(** * The dynamic (on-chain) RLN group manager

    A shallow embedding of [DynamicGroupManager]: the reconciliation
    [handler] with its two passes [RemoveMembers] and [InsertMembers], and the
    life cycle [Start] / [Stop].  The manager is a mutable struct reached
    through a pointer; the Merkle tree, the root tracker, the chain client and
    the keystore are collaborators outside the package.  The embedding keeps
    the struct in an explicit store, asks the collaborators through an
    interface of oracles over an abstract world, and records every call made
    to them, in order, together with the error it returned.

    The last part of the definitions embeds the generated codec of the light
    push protocol: the varint helpers and the size, the encoder and the
    decoder of [PushResponse], on byte slices as lists, with the panics of
    indexing and slicing out of range. *)

From Stdlib Require Import ZArith List Lia Bool String Sorted Permutation.
Import ListNotations.
Local Open Scope Z_scope.

(** ** Machine integers *)

(** Go's [uint] and [int] are 32 or 64 bits wide, according to the target. *)
Class Platform := {
  uint_bits : Z;
  uint_bits_spec : uint_bits = 32 \/ uint_bits = 64
}.

#[export] Instance Platform64 : Platform :=
  {| uint_bits := 64; uint_bits_spec := or_intror eq_refl |}.

Definition Platform32 : Platform :=
  {| uint_bits := 32; uint_bits_spec := or_introl eq_refl |}.

(** Conversion of an integer value to [uint]: the low [uint_bits] bits. *)
Definition uint `{Platform} (z : Z) : Z := z mod 2 ^ uint_bits.

(** Conversion of an integer value to [int]: two's complement on
    [uint_bits] bits. *)
Definition int `{Platform} (z : Z) : Z :=
  (z + 2 ^ (uint_bits - 1)) mod 2 ^ uint_bits - 2 ^ (uint_bits - 1).

(** Conversion to [int64]: two's complement on 64 bits. *)
Definition int64 (z : Z) : Z := (z + 2 ^ 63) mod 2 ^ 64 - 2 ^ 63.

(** [math/big]: a [*big.Int] is a sign and a magnitude; [low64] is the least
    significant 64-bit word of the magnitude.  [Uint64] returns that word,
    [Int64] reinterprets it as an [int64] and negates it (in [int64]) when the
    number is negative.  Neither checks that the value fits. *)
Module big.

Definition low64 (x : Z) : Z := Z.abs x mod 2 ^ 64.

Definition Uint64 (x : Z) : Z := low64 x.

Definition Int64 (x : Z) : Z :=
  let v := int64 (low64 x) in
  if x <? 0 then int64 (- v) else v.

End big.

(** ** The ordered map

    [om.OrderedMap] of go-ordered-map keeps its pairs in the order in which
    their keys were first set: [Set] on a key that is present replaces the
    value in place, [Set] on a new key appends a pair at the newest end.
    [Oldest] followed by [Next] walks the pairs from the first key set to the
    last one, [Newest] followed by [Prev] walks them the other way round.  A
    map is the list of its pairs, oldest first. *)
Module om.
Section OrderedMap.
Context {V : Type}.

Definition OrderedMap := list (Z * V).

Definition New : OrderedMap := [].

Fixpoint Get (m : OrderedMap) (key : Z) : option V :=
  match m with
  | [] => None
  | (k, v) :: rest => if k =? key then Some v else Get rest key
  end.

Fixpoint Set_ (m : OrderedMap) (key : Z) (value : V) : OrderedMap :=
  match m with
  | [] => [(key, value)]
  | (k, v) :: rest =>
      if k =? key then (k, value) :: rest
      else (k, v) :: Set_ rest key value
  end.

(** The pairs met by [for pair := m.Oldest(); pair != nil; pair = pair.Next()]. *)
Definition from_Oldest (m : OrderedMap) : list (Z * V) := m.

(** The pairs met by [for pair := m.Newest(); pair != nil; pair = pair.Prev()]. *)
Definition from_Newest (m : OrderedMap) : list (Z * V) := rev m.

Definition Keys (m : OrderedMap) : list Z := map fst m.

End OrderedMap.
Arguments OrderedMap : clear implicits.
End om.

(** ** Events and errors *)

(** A Go [error] value that is not nil. *)
Definition error := string.

(** [contracts.RLNMemberRegistered]: the commitment and the index are
    [*big.Int], the block number is a [uint64]. *)
Record RLNMemberRegistered := {
  IdCommitment : Z;
  Index : Z;
  Raw_BlockNumber : Z;
  Raw_Removed : bool
}.

(** An entry of the keystore: [keystore.MembershipCredentials]. *)
Record MembershipGroup := { TreeIndex : Z }.

Record MembershipCredentials (IC : Type) := {
  credential_IdentityCredential : option IC;
  MembershipGroups : list MembershipGroup
}.
Arguments credential_IdentityCredential {IC}.
Arguments MembershipGroups {IC}.

(** ** The collaborators *)

(** What lies outside the package: the handles the manager stores and the
    operations it calls on them.  Every operation reads and changes the
    world; one that returns a Go [error] returns [Some e] when it fails. *)
Class Collaborators := {
  World : Type;
  RLN : Type;
  MerkleRootTracker : Type;
  Client : Type;
  RLNContract : Type;
  CancelFunc : Type;
  Address : Type;
  IdentityCredential : Type;
  IDCommitment : Type;
  BigIntToBytes32 : Z -> IDCommitment;
  rln_InsertMembers :
    option RLN -> Z -> list IDCommitment -> World -> option error * World;
  rln_DeleteMembers : option RLN -> list Z -> World -> option error * World;
  rln_Flush : option RLN -> World -> option error * World;
  tracker_UpdateLatestRoot :
    option MerkleRootTracker -> Z -> World -> option error * World;
  tracker_Backfill : option MerkleRootTracker -> Z -> World -> World;
  context_WithCancel : World -> CancelFunc * World;
  run_cancel : CancelFunc -> World -> World;
  ethclient_Dial : string -> World -> (option Client * option error) * World;
  client_ChainID : option Client -> World -> (option Z * option error) * World;
  client_Close : option Client -> World -> World;
  contracts_NewRLN :
    Address -> option Client -> World ->
    (option RLNContract * option error) * World;
  contract_MEMBERSHIPDEPOSIT : option RLNContract -> World -> option error * World;
  keystore_GetMembershipCredentials :
    string -> string -> option Z -> Address -> World ->
    (list (MembershipCredentials IdentityCredential) * option error) * World;
  wg_Wait : World -> World
}.

(** ** The manager *)

(** The struct, without its logger, wait group and event handler (the handler
    is always [handler] below).  A pointer field is an [option]. *)
Record DynamicGroupManager `{Collaborators} := {
  rln : option RLN;
  cancel : option CancelFunc;
  identityCredential : option IdentityCredential;
  membershipIndex : option Z;
  membershipContractAddress : Address;
  membershipGroupIndex : Z;
  ethClientAddress : string;
  ethClient : option Client;
  lastBlockProcessed : Z;
  chainId : option Z;
  rlnContract : option RLNContract;
  saveKeystore : bool;
  keystorePath : string;
  keystorePassword : string;
  keystoreIndex : Z;
  rootTracker : option MerkleRootTracker
}.

(** The methods of the manager that live in other files of the package. *)
Class Package `{Collaborators} := {
  gm_SetMetadata : DynamicGroupManager -> Z -> World -> option error * World;
  gm_HandleGroupUpdates :
    DynamicGroupManager -> World ->
    (option error * DynamicGroupManager) * World
}.

(** ** Calls and traces *)

Inductive Level := Debug | Info | Warn | Error.

Inductive Call `{Collaborators} :=
| call_DeleteMembers (memberIndexes : list Z)
| call_Backfill (blockNumber : Z)
| call_InsertMembers (startIndex : Z) (idCommitments : list IDCommitment)
| call_UpdateLatestRoot (blockNumber : Z)
| call_SetMetadata (lastProcessedBlock : Z)
| call_log (level : Level) (msg : string)
| call_WithCancel
| call_cancel
| call_Dial (addr : string)
| call_ChainID
| call_NewRLN
| call_MEMBERSHIPDEPOSIT
| call_GetMembershipCredentials
| call_HandleGroupUpdates
| call_Flush
| call_Close
| call_Wait.

(** One call as observed from outside: what was called and the error that
    came back ([None] for success and for calls that return no error). *)
Record Entry `{Collaborators} := {
  ecall : Call;
  eerr : option error
}.

(** ** The monad of the methods

    A method runs on a store (the struct behind the receiver and the world),
    returns a value or panics, and leaves a store and the list of the calls it
    made. *)
Record Store `{Collaborators} := {
  st_gm : DynamicGroupManager;
  st_world : World
}.

Inductive Result (A : Type) :=
| Ret (a : A)
| Panic.
Arguments Ret {A}.
Arguments Panic {A}.

Section Monad.
Context `{C : Collaborators}.

Definition M (A : Type) : Type := Store -> Result A * Store * list Entry.

Definition ret {A} (a : A) : M A := fun s => (Ret a, s, []).

Definition bind {A B} (m : M A) (f : A -> M B) : M B :=
  fun s =>
    match m s with
    | (Ret a, s1, t1) =>
        match f a s1 with
        | (r, s2, t2) => (r, s2, t1 ++ t2)
        end
    | (Panic, s1, t1) => (Panic, s1, t1)
    end.

Definition panic {A} : M A := fun s => (Panic, s, []).

(** The receiver's struct. *)
Definition get_gm : M DynamicGroupManager := fun s => (Ret (st_gm s), s, []).

Definition modify_gm (f : DynamicGroupManager -> DynamicGroupManager) : M unit :=
  fun s => (Ret tt, {| st_gm := f (st_gm s); st_world := st_world s |}, []).

(** A call that returns an error. *)
Definition call (c : Call) (f : World -> option error * World)
  : M (option error) :=
  fun s =>
    match f (st_world s) with
    | (e, w) =>
        (Ret e, {| st_gm := st_gm s; st_world := w |},
         [{| ecall := c; eerr := e |}])
    end.

(** A call that returns a value and an error. *)
Definition call_with {A} (c : Call) (f : World -> (A * option error) * World)
  : M (A * option error) :=
  fun s =>
    match f (st_world s) with
    | ((a, e), w) =>
        (Ret (a, e), {| st_gm := st_gm s; st_world := w |},
         [{| ecall := c; eerr := e |}])
    end.

(** A call that returns nothing. *)
Definition call_void (c : Call) (f : World -> World) : M unit :=
  fun s =>
    (Ret tt, {| st_gm := st_gm s; st_world := f (st_world s) |},
     [{| ecall := c; eerr := None |}]).

(** A call that returns a value and no error. *)
Definition call_value {A} (c : Call) (f : World -> A * World) : M A :=
  fun s =>
    match f (st_world s) with
    | (a, w) =>
        (Ret a, {| st_gm := st_gm s; st_world := w |},
         [{| ecall := c; eerr := None |}])
    end.

(** The logger only leaves a line. *)
Definition log (level : Level) (msg : string) : M unit :=
  fun s => (Ret tt, s, [{| ecall := call_log level msg; eerr := None |}]).

Definition result {A} (m : M A) (s : Store) : Result A := fst (fst (m s)).
Definition final {A} (m : M A) (s : Store) : Store := snd (fst (m s)).
Definition trace {A} (m : M A) (s : Store) : list Entry := snd (m s).

End Monad.

Declare Scope gm_scope.
Delimit Scope gm_scope with gm.
Notation "x <- m ;; k" := (bind m (fun x => k))
  (at level 61, m at next level, right associativity) : gm_scope.
Notation "m ;; k" := (bind m (fun _ => k))
  (at level 61, right associativity) : gm_scope.

(** ** The methods *)

Section Methods.
Context `{P : Platform} `{C : Collaborators} `{K : @Package C}.
Local Open Scope gm_scope.

(** Assignments to the fields of the receiver. *)
Definition set_cancel (v : option CancelFunc) (g : DynamicGroupManager)
  : DynamicGroupManager :=
  {| rln := rln g; cancel := v; identityCredential := identityCredential g;
     membershipIndex := membershipIndex g;
     membershipContractAddress := membershipContractAddress g;
     membershipGroupIndex := membershipGroupIndex g;
     ethClientAddress := ethClientAddress g; ethClient := ethClient g;
     lastBlockProcessed := lastBlockProcessed g; chainId := chainId g;
     rlnContract := rlnContract g; saveKeystore := saveKeystore g;
     keystorePath := keystorePath g; keystorePassword := keystorePassword g;
     keystoreIndex := keystoreIndex g; rootTracker := rootTracker g |}.

Definition set_ethClient (v : option Client) (g : DynamicGroupManager)
  : DynamicGroupManager :=
  {| rln := rln g; cancel := cancel g; identityCredential := identityCredential g;
     membershipIndex := membershipIndex g;
     membershipContractAddress := membershipContractAddress g;
     membershipGroupIndex := membershipGroupIndex g;
     ethClientAddress := ethClientAddress g; ethClient := v;
     lastBlockProcessed := lastBlockProcessed g; chainId := chainId g;
     rlnContract := rlnContract g; saveKeystore := saveKeystore g;
     keystorePath := keystorePath g; keystorePassword := keystorePassword g;
     keystoreIndex := keystoreIndex g; rootTracker := rootTracker g |}.

Definition set_rln (v : option RLN) (g : DynamicGroupManager)
  : DynamicGroupManager :=
  {| rln := v; cancel := cancel g; identityCredential := identityCredential g;
     membershipIndex := membershipIndex g;
     membershipContractAddress := membershipContractAddress g;
     membershipGroupIndex := membershipGroupIndex g;
     ethClientAddress := ethClientAddress g; ethClient := ethClient g;
     lastBlockProcessed := lastBlockProcessed g; chainId := chainId g;
     rlnContract := rlnContract g; saveKeystore := saveKeystore g;
     keystorePath := keystorePath g; keystorePassword := keystorePassword g;
     keystoreIndex := keystoreIndex g; rootTracker := rootTracker g |}.

Definition set_rootTracker (v : option MerkleRootTracker) (g : DynamicGroupManager)
  : DynamicGroupManager :=
  {| rln := rln g; cancel := cancel g; identityCredential := identityCredential g;
     membershipIndex := membershipIndex g;
     membershipContractAddress := membershipContractAddress g;
     membershipGroupIndex := membershipGroupIndex g;
     ethClientAddress := ethClientAddress g; ethClient := ethClient g;
     lastBlockProcessed := lastBlockProcessed g; chainId := chainId g;
     rlnContract := rlnContract g; saveKeystore := saveKeystore g;
     keystorePath := keystorePath g; keystorePassword := keystorePassword g;
     keystoreIndex := keystoreIndex g; rootTracker := v |}.

Definition set_chainId (v : option Z) (g : DynamicGroupManager)
  : DynamicGroupManager :=
  {| rln := rln g; cancel := cancel g; identityCredential := identityCredential g;
     membershipIndex := membershipIndex g;
     membershipContractAddress := membershipContractAddress g;
     membershipGroupIndex := membershipGroupIndex g;
     ethClientAddress := ethClientAddress g; ethClient := ethClient g;
     lastBlockProcessed := lastBlockProcessed g; chainId := v;
     rlnContract := rlnContract g; saveKeystore := saveKeystore g;
     keystorePath := keystorePath g; keystorePassword := keystorePassword g;
     keystoreIndex := keystoreIndex g; rootTracker := rootTracker g |}.

Definition set_rlnContract (v : option RLNContract) (g : DynamicGroupManager)
  : DynamicGroupManager :=
  {| rln := rln g; cancel := cancel g; identityCredential := identityCredential g;
     membershipIndex := membershipIndex g;
     membershipContractAddress := membershipContractAddress g;
     membershipGroupIndex := membershipGroupIndex g;
     ethClientAddress := ethClientAddress g; ethClient := ethClient g;
     lastBlockProcessed := lastBlockProcessed g; chainId := chainId g;
     rlnContract := v; saveKeystore := saveKeystore g;
     keystorePath := keystorePath g; keystorePassword := keystorePassword g;
     keystoreIndex := keystoreIndex g; rootTracker := rootTracker g |}.

Definition set_identityCredential (v : option IdentityCredential)
  (g : DynamicGroupManager) : DynamicGroupManager :=
  {| rln := rln g; cancel := cancel g; identityCredential := v;
     membershipIndex := membershipIndex g;
     membershipContractAddress := membershipContractAddress g;
     membershipGroupIndex := membershipGroupIndex g;
     ethClientAddress := ethClientAddress g; ethClient := ethClient g;
     lastBlockProcessed := lastBlockProcessed g; chainId := chainId g;
     rlnContract := rlnContract g; saveKeystore := saveKeystore g;
     keystorePath := keystorePath g; keystorePassword := keystorePassword g;
     keystoreIndex := keystoreIndex g; rootTracker := rootTracker g |}.

Definition set_membershipIndex (v : option Z) (g : DynamicGroupManager)
  : DynamicGroupManager :=
  {| rln := rln g; cancel := cancel g; identityCredential := identityCredential g;
     membershipIndex := v;
     membershipContractAddress := membershipContractAddress g;
     membershipGroupIndex := membershipGroupIndex g;
     ethClientAddress := ethClientAddress g; ethClient := ethClient g;
     lastBlockProcessed := lastBlockProcessed g; chainId := chainId g;
     rlnContract := rlnContract g; saveKeystore := saveKeystore g;
     keystorePath := keystorePath g; keystorePassword := keystorePassword g;
     keystoreIndex := keystoreIndex g; rootTracker := rootTracker g |}.

Definition set_lastBlockProcessed (v : Z) (g : DynamicGroupManager)
  : DynamicGroupManager :=
  {| rln := rln g; cancel := cancel g; identityCredential := identityCredential g;
     membershipIndex := membershipIndex g;
     membershipContractAddress := membershipContractAddress g;
     membershipGroupIndex := membershipGroupIndex g;
     ethClientAddress := ethClientAddress g; ethClient := ethClient g;
     lastBlockProcessed := v; chainId := chainId g;
     rlnContract := rlnContract g; saveKeystore := saveKeystore g;
     keystorePath := keystorePath g; keystorePassword := keystorePassword g;
     keystoreIndex := keystoreIndex g; rootTracker := rootTracker g |}.

(** *** RemoveMembers *)

(** The body of the loop of [RemoveMembers] from one pair onward: delete the
    indexes of the pair, stop on an error, backfill the tracker at the
    pair's key, go on to the previous pair. *)
Fixpoint RemoveMembers_from (pairs : list (Z * list Z)) : M (option error) :=
  match pairs with
  | [] => ret None
  | (key, memberIndexes) :: prev =>
      gm <- get_gm ;;
      err <- call (call_DeleteMembers memberIndexes)
                  (rln_DeleteMembers (rln gm) memberIndexes) ;;
      match err with
      | Some e =>
          log Error "deleting members" ;;
          ret (Some e)
      | None =>
          call_void (call_Backfill key) (tracker_Backfill (rootTracker gm) key) ;;
          RemoveMembers_from prev
      end
  end.

Definition RemoveMembers (toRemove : om.OrderedMap (list Z)) : M (option error) :=
  RemoveMembers_from (om.from_Newest toRemove).

(** *** InsertMembers *)

(** The inner loop over the events of one block: the commitments in the
    order of the events, and [oldestIndexInBlock], which is assigned only
    while it is nil. *)
Definition collect_block (events : list RLNMemberRegistered)
  : list IDCommitment * option Z :=
  fold_left
    (fun acc evt =>
       let '(idCommitments, oldestIndexInBlock) := acc in
       let oldestIndexInBlock :=
         match oldestIndexInBlock with
         | None => Some (Index evt)
         | Some i => Some i
         end in
       (idCommitments ++ [BigIntToBytes32 (IdCommitment evt)], oldestIndexInBlock))
    events ([], None).

(** [rln.MembershipIndex(uint(oldestIndexInBlock.Int64()))]. *)
Definition startIndex_of (oldestIndexInBlock : Z) : Z :=
  uint (big.Int64 oldestIndexInBlock).

Fixpoint InsertMembers_from (pairs : list (Z * list RLNMemberRegistered))
  : M (option error) :=
  match pairs with
  | [] => ret None
  | (key, events) :: next =>
      let '(idCommitments, oldestIndexInBlock) := collect_block events in
      if (Z.of_nat (List.length idCommitments) =? 0) then InsertMembers_from next
      else
        match oldestIndexInBlock with
        | None => panic
        | Some oldest =>
            let startIndex := startIndex_of oldest in
            gm <- get_gm ;;
            err <- call (call_InsertMembers startIndex idCommitments)
                        (rln_InsertMembers (rln gm) startIndex idCommitments) ;;
            match err with
            | Some e =>
                log Error "inserting members into merkletree" ;;
                ret (Some e)
            | None =>
                err <- call (call_UpdateLatestRoot key)
                            (tracker_UpdateLatestRoot (rootTracker gm) key) ;;
                match err with
                | Some e => ret (Some e)
                | None => InsertMembers_from next
                end
            end
        end
  end.

Definition InsertMembers (toInsert : om.OrderedMap (list RLNMemberRegistered))
  : M (option error) :=
  InsertMembers_from (om.from_Oldest toInsert).

(** *** handler *)

(** The two tables and the candidate for the watermark, as the first loop
    of [handler] builds them. *)
Record Tables := {
  toRemoveTable : om.OrderedMap (list Z);
  toInsertTable : om.OrderedMap (list RLNMemberRegistered);
  candidate : Z
}.

Definition get_or_nil {V} (m : om.OrderedMap (list V)) (key : Z) : list V :=
  match om.Get m key with
  | Some l => l
  | None => []
  end.

Definition sort_event (acc : Tables) (event : RLNMemberRegistered) : Tables :=
  if Raw_Removed event then
    let indexes := get_or_nil (toRemoveTable acc) (Raw_BlockNumber event) in
    let indexes := indexes ++ [uint (big.Uint64 (Index event))] in
    {| toRemoveTable := om.Set_ (toRemoveTable acc) (Raw_BlockNumber event) indexes;
       toInsertTable := toInsertTable acc;
       candidate := candidate acc |}
  else
    let eventsPerBlock := get_or_nil (toInsertTable acc) (Raw_BlockNumber event) in
    let eventsPerBlock := eventsPerBlock ++ [event] in
    {| toRemoveTable := toRemoveTable acc;
       toInsertTable := om.Set_ (toInsertTable acc) (Raw_BlockNumber event) eventsPerBlock;
       candidate :=
         if Raw_BlockNumber event >? candidate acc
         then Raw_BlockNumber event else candidate acc |}.

Definition sort_events (lastBlockProcessed : Z) (events : list RLNMemberRegistered)
  : Tables :=
  fold_left sort_event events
    {| toRemoveTable := om.New; toInsertTable := om.New;
       candidate := lastBlockProcessed |}.

Definition SetMetadata (LastProcessedBlock : Z) : M (option error) :=
  gm <- get_gm ;;
  call (call_SetMetadata LastProcessedBlock) (gm_SetMetadata gm LastProcessedBlock).

Definition handler (events : list RLNMemberRegistered) : M (option error) :=
  gm <- get_gm ;;
  let tables := sort_events (lastBlockProcessed gm) events in
  err <- RemoveMembers (toRemoveTable tables) ;;
  match err with
  | Some e => ret (Some e)
  | None =>
      err <- InsertMembers (toInsertTable tables) ;;
      match err with
      | Some e => ret (Some e)
      | None =>
          modify_gm (set_lastBlockProcessed (candidate tables)) ;;
          gm <- get_gm ;;
          err <- SetMetadata (lastBlockProcessed gm) ;;
          match err with
          | Some e => log Warn "failed to persist rln metadata"
          | None => log Debug "rln metadata persisted"
          end ;;
          ret None
      end
  end.

(** *** Start *)

Definition HandleGroupUpdates : M (option error) :=
  fun s =>
    match gm_HandleGroupUpdates (st_gm s) (st_world s) with
    | ((e, g), w) =>
        (Ret e, {| st_gm := g; st_world := w |},
         [{| ecall := call_HandleGroupUpdates; eerr := e |}])
    end.

Definition getMembershipFee : M (option error) :=
  gm <- get_gm ;;
  call call_MEMBERSHIPDEPOSIT (contract_MEMBERSHIPDEPOSIT (rlnContract gm)).

Definition is_empty (s : string) : bool :=
  match s with
  | EmptyString => true
  | _ => false
  end.

(** The block of [Start] that reads the keystore. *)
Definition load_credentials : M (option error) :=
  gm <- get_gm ;;
  match identityCredential gm with
  | None =>
      if negb (is_empty (keystorePassword gm)) && negb (is_empty (keystorePath gm))
      then
        r <- call_with call_GetMembershipCredentials
               (keystore_GetMembershipCredentials (keystorePath gm)
                  (keystorePassword gm) (chainId gm)
                  (membershipContractAddress gm)) ;;
        let '(credentials, err) := r in
        match err with
        | Some e => ret (Some e)
        | None =>
            if negb (Z.of_nat (List.length credentials) =? 0) then
              if int (keystoreIndex gm) <=? Z.of_nat (List.length credentials) - 1 then
                match nth_error credentials (Z.to_nat (keystoreIndex gm)) with
                | None => panic
                | Some credential =>
                    modify_gm (set_identityCredential
                                 (credential_IdentityCredential credential)) ;;
                    if int (membershipGroupIndex gm)
                       <=? Z.of_nat (List.length (MembershipGroups credential)) - 1
                    then
                      match nth_error (MembershipGroups credential)
                              (Z.to_nat (membershipGroupIndex gm)) with
                      | None => panic
                      | Some group =>
                          modify_gm (set_membershipIndex (Some (TreeIndex group))) ;;
                          ret None
                      end
                    else ret (Some "invalid membership group index"%string)
                end
              else ret (Some "invalid keystore index"%string)
            else ret None
        end
      else ret None
  | Some _ => ret None
  end.

Definition is_nil {A} (o : option A) : bool :=
  match o with
  | None => true
  | Some _ => false
  end.

Definition Start (rlnInstance : option RLN) (rootTracker' : option MerkleRootTracker)
  : M (option error) :=
  gm <- get_gm ;;
  if negb (is_nil (cancel gm)) then ret (Some "already started"%string)
  else
    cancel' <- call_value call_WithCancel context_WithCancel ;;
    modify_gm (set_cancel (Some cancel')) ;;
    log Info "mounting rln-relay in on-chain/dynamic mode" ;;
    r <- call_with (call_Dial (ethClientAddress gm))
           (ethclient_Dial (ethClientAddress gm)) ;;
    let '(backend, err) := r in
    match err with
    | Some e => ret (Some e)
    | None =>
        modify_gm (set_ethClient backend) ;;
        modify_gm (set_rln rlnInstance) ;;
        modify_gm (set_rootTracker rootTracker') ;;
        r <- call_with call_ChainID (client_ChainID backend) ;;
        let '(id, err) := r in
        modify_gm (set_chainId id) ;;
        match err with
        | Some e => ret (Some e)
        | None =>
            r <- call_with call_NewRLN
                   (contracts_NewRLN (membershipContractAddress gm) backend) ;;
            let '(contract, err) := r in
            modify_gm (set_rlnContract contract) ;;
            match err with
            | Some e => ret (Some e)
            | None =>
                err <- getMembershipFee ;;
                match err with
                | Some e => ret (Some e)
                | None =>
                    err <- load_credentials ;;
                    match err with
                    | Some e => ret (Some e)
                    | None =>
                        gm <- get_gm ;;
                        if is_nil (identityCredential gm) || is_nil (membershipIndex gm)
                        then ret (Some "no credentials available"%string)
                        else
                          err <- HandleGroupUpdates ;;
                          match err with
                          | Some e => ret (Some e)
                          | None => ret None
                          end
                    end
                end
            end
        end
    end.

(** *** Stop

    [Close] goes through its receiver to the connection: on a manager whose
    client is nil, which a [Start] that failed at the dial leaves, the call
    panics.  The flush is asked of the tree the manager holds. *)

Definition Stop : M (option error) :=
  gm <- get_gm ;;
  match cancel gm with
  | None => ret None
  | Some cancel' =>
      call_void call_cancel (run_cancel cancel') ;;
      err <- call call_Flush (rln_Flush (rln gm)) ;;
      match err with
      | Some e => ret (Some e)
      | None =>
          match ethClient gm with
          | None => panic
          | Some _ =>
              call_void call_Close (client_Close (ethClient gm)) ;;
              call_void call_Wait wg_Wait ;;
              ret None
          end
      end
  end.

End Methods.

(** ** Reading a trace *)

Section Traces.
Context `{P : Platform} `{C : Collaborators}.

Definition is_removal (c : Call) : bool :=
  match c with
  | call_DeleteMembers _ | call_Backfill _ => true
  | _ => false
  end.

Definition is_insertion (c : Call) : bool :=
  match c with
  | call_InsertMembers _ _ | call_UpdateLatestRoot _ => true
  | _ => false
  end.

(** The mutations of the tree and of the root history that can fail. *)
Definition is_tree_mutation (c : Call) : bool :=
  match c with
  | call_DeleteMembers _ | call_InsertMembers _ _ | call_UpdateLatestRoot _ => true
  | _ => false
  end.

Definition calls (tr : list Entry) : list Call := map ecall tr.

Definition removals_of (tr : list Entry) : list Call := filter is_removal (calls tr).

Definition insertions_of (tr : list Entry) : list Call := filter is_insertion (calls tr).

Definition is_log (c : Call) : bool :=
  match c with
  | call_log _ _ => true
  | _ => false
  end.

(** The blocks of the [Backfill] calls among the given calls, in order. *)
Definition backfilled (cs : list Call) : list Z :=
  flat_map (fun c => match c with call_Backfill b => [b] | _ => [] end) cs.

(** The blocks of the [UpdateLatestRoot] calls among the given calls. *)
Definition root_updated (cs : list Call) : list Z :=
  flat_map (fun c => match c with call_UpdateLatestRoot b => [b] | _ => [] end) cs.

Definition Backfill_blocks (tr : list Entry) : list Z := backfilled (calls tr).

Definition UpdateLatestRoot_blocks (tr : list Entry) : list Z :=
  root_updated (calls tr).

(** The distinct block numbers of a sequence, in the order in which each one
    first arrives. *)
Definition arrives (acc : list Z) (b : Z) : list Z :=
  if existsb (Z.eqb b) acc then acc else acc ++ [b].

Definition arrival_order (blocks : list Z) : list Z := fold_left arrives blocks [].

Definition in_block (b : Z) (event : RLNMemberRegistered) : bool :=
  Raw_BlockNumber event =? b.

Definition is_inserted (event : RLNMemberRegistered) : bool :=
  negb (Raw_Removed event).

Definition commitments_of (events : list RLNMemberRegistered) : list IDCommitment :=
  map (fun evt => BigIntToBytes32 (IdCommitment evt)) events.

Definition removed_indexes_of (events : list RLNMemberRegistered) : list Z :=
  map (fun evt => uint (big.Uint64 (Index evt))) events.


(** The ordered map with the given keys, oldest first, and the value [g b]
    at key [b]. *)
Definition tabulate {V} (g : Z -> V) (keys : list Z) : om.OrderedMap V :=
  map (fun b => (b, g b)) keys.

Definition inserted_events (events : list RLNMemberRegistered) :=
  filter is_inserted events.

Definition removed_events (events : list RLNMemberRegistered) :=
  filter Raw_Removed events.

Definition blocks_of (events : list RLNMemberRegistered) : list Z :=
  map Raw_BlockNumber events.

(** The calls of a whole removal pass over the given pairs. *)
Definition removal_calls (pairs : list (Z * list Z)) : list Call :=
  flat_map (fun pair => [call_DeleteMembers (snd pair); call_Backfill (fst pair)])
    pairs.

(** The calls of a whole insertion pass over the given pairs. *)
Definition insertion_calls (pairs : list (Z * list RLNMemberRegistered))
  : list Call :=
  flat_map
    (fun pair =>
       match snd pair with
       | [] => []
       | first :: _ =>
           [call_InsertMembers (startIndex_of (Index first)) (commitments_of (snd pair));
            call_UpdateLatestRoot (fst pair)]
       end)
    pairs.

(** The removal groups of a batch, newest block first: each block that
    arrived with removed events, with the indexes of these events in
    arrival order. *)
Definition removal_groups (events : list RLNMemberRegistered) : list (Z * list Z) :=
  rev (tabulate
         (fun b => removed_indexes_of (filter (in_block b) (removed_events events)))
         (arrival_order (blocks_of (removed_events events)))).

(** The insertion groups of a batch, oldest block first. *)
Definition insertion_groups (events : list RLNMemberRegistered)
  : list (Z * list RLNMemberRegistered) :=
  tabulate (fun b => filter (in_block b) (inserted_events events))
    (arrival_order (blocks_of (inserted_events events))).

(** All the removal calls a batch asks for, and all its insertion calls. *)
Definition batch_removals (events : list RLNMemberRegistered) : list Call :=
  removal_calls (removal_groups events).

Definition batch_insertions (events : list RLNMemberRegistered) : list Call :=
  insertion_calls (insertion_groups events).

Definition ok (c : Call) : Entry := {| ecall := c; eerr := None |}.
Definition failed (c : Call) (e : error) : Entry := {| ecall := c; eerr := Some e |}.

(** The runs of the removal pass: what it returns and the trace it leaves. *)
Inductive removal_run : list (Z * list Z) -> option error -> list Entry -> Prop :=
| removal_done : removal_run [] None []
| removal_failed key memberIndexes prev e :
    removal_run ((key, memberIndexes) :: prev) (Some e)
      [failed (call_DeleteMembers memberIndexes) e;
       ok (call_log Error "deleting members")]
| removal_next key memberIndexes prev r tr :
    removal_run prev r tr ->
    removal_run ((key, memberIndexes) :: prev) r
      (ok (call_DeleteMembers memberIndexes) :: ok (call_Backfill key) :: tr).

(** The runs of the insertion pass. *)
Inductive insertion_run
  : list (Z * list RLNMemberRegistered) -> option error -> list Entry -> Prop :=
| insertion_done : insertion_run [] None []
| insertion_skip key next r tr :
    insertion_run next r tr ->
    insertion_run ((key, []) :: next) r tr
| insertion_failed key first rest next e :
    insertion_run ((key, first :: rest) :: next) (Some e)
      [failed (call_InsertMembers (startIndex_of (Index first))
                 (commitments_of (first :: rest))) e;
       ok (call_log Error "inserting members into merkletree")]
| insertion_root_failed key first rest next e :
    insertion_run ((key, first :: rest) :: next) (Some e)
      [ok (call_InsertMembers (startIndex_of (Index first))
             (commitments_of (first :: rest)));
       failed (call_UpdateLatestRoot key) e]
| insertion_next key first rest next r tr :
    insertion_run next r tr ->
    insertion_run ((key, first :: rest) :: next) r
      (ok (call_InsertMembers (startIndex_of (Index first))
             (commitments_of (first :: rest)))
       :: ok (call_UpdateLatestRoot key) :: tr).

(** The end of a successful [handler]: the metadata are written, and one
    line is logged according to the outcome. *)
Definition persisted (watermark : Z) (o : option error) : list Entry :=
  [{| ecall := call_SetMetadata watermark; eerr := o |};
   ok (match o with
       | Some _ => call_log Warn "failed to persist rln metadata"
       | None => call_log Debug "rln metadata persisted"
       end)].

(** The runs of [handler] on the tables of a batch, from a manager [g]:
    the error returned, the manager left behind and the trace. *)
Inductive handler_run (T : Tables) (g : DynamicGroupManager)
  : option error -> DynamicGroupManager -> list Entry -> Prop :=
| handler_removal_failed e tr_r :
    removal_run (om.from_Newest (toRemoveTable T)) (Some e) tr_r ->
    handler_run T g (Some e) g tr_r
| handler_insertion_failed e tr_r tr_i :
    removal_run (om.from_Newest (toRemoveTable T)) None tr_r ->
    insertion_run (om.from_Oldest (toInsertTable T)) (Some e) tr_i ->
    handler_run T g (Some e) g (tr_r ++ tr_i)
| handler_done o tr_r tr_i :
    removal_run (om.from_Newest (toRemoveTable T)) None tr_r ->
    insertion_run (om.from_Oldest (toInsertTable T)) None tr_i ->
    handler_run T g None (set_lastBlockProcessed (candidate T) g)
      (tr_r ++ tr_i ++ persisted (candidate T) o).

(** After the run of [m] from [s], the manager holds a cancel function, or
    the run went as far as subscribing to the events. *)
Definition settled {A} (m : M A) (s : Store) : Prop :=
  In call_HandleGroupUpdates (calls (trace m s))
  \/ cancel (st_gm (final m s)) <> None.

(** [m] does not lose the cancel function. *)
Definition keeps_cancel {A} (m : M A) : Prop :=
  forall s, cancel (st_gm s) <> None -> settled m s.

End Traces.

(** ** A scripted world

    A world for running the methods on concrete inputs: every call that can
    fail takes its answer from a script, in order, and succeeds once the
    script is used up.  The handles carry no data. *)
Module Script.

Record world := {
  script : list (option error);
  keystore : list (MembershipCredentials unit)
}.

Definition answer (w : world) : option error * world :=
  match script w with
  | [] => (None, w)
  | e :: rest => (e, {| script := rest; keystore := keystore w |})
  end.

Definition answer_with {A} (a : A) (w : world) : (option A * option error) * world :=
  match answer w with
  | (None, w') => ((Some a, None), w')
  | (Some e, w') => ((None, Some e), w')
  end.

Definition collaborators : Collaborators :=
  {| World := world;
     RLN := unit;
     MerkleRootTracker := unit;
     Client := unit;
     RLNContract := unit;
     CancelFunc := unit;
     Address := unit;
     IdentityCredential := unit;
     IDCommitment := Z;
     BigIntToBytes32 := fun z => z;
     rln_InsertMembers := fun _ _ _ => answer;
     rln_DeleteMembers := fun _ _ => answer;
     rln_Flush := fun _ => answer;
     tracker_UpdateLatestRoot := fun _ _ => answer;
     tracker_Backfill := fun _ _ w => w;
     context_WithCancel := fun w => (tt, w);
     run_cancel := fun _ w => w;
     ethclient_Dial := fun _ => answer_with tt;
     client_ChainID := fun _ => answer_with 1;
     client_Close := fun _ w => w;
     contracts_NewRLN := fun _ _ => answer_with tt;
     contract_MEMBERSHIPDEPOSIT := fun _ => answer;
     keystore_GetMembershipCredentials :=
       fun _ _ _ _ w =>
         match answer w with
         | (None, w') => ((keystore w, None), w')
         | (Some e, w') => (([], Some e), w')
         end;
     wg_Wait := fun w => w |}.

#[local] Existing Instance collaborators.

Definition package : Package :=
  {| gm_SetMetadata := fun _ _ => answer;
     gm_HandleGroupUpdates :=
       fun g w => match answer w with (e, w') => ((e, g), w') end |}.

#[local] Existing Instance package.

(** A manager as [NewDynamicGroupManager] returns it. *)
Definition manager : DynamicGroupManager :=
  {| rln := None; cancel := None; identityCredential := None;
     membershipIndex := None; membershipContractAddress := tt;
     membershipGroupIndex := 0; ethClientAddress := "ws://localhost:8545";
     ethClient := None; lastBlockProcessed := 0; chainId := None;
     rlnContract := None; saveKeystore := false;
     keystorePath := "rlnKeystore.json"; keystorePassword := "password";
     keystoreIndex := 0; rootTracker := None |}.

(** A keystore with one credential that belongs to one group, at slot 3. *)
Definition one_credential : list (MembershipCredentials unit) :=
  [{| credential_IdentityCredential := Some tt;
      MembershipGroups := [{| TreeIndex := 3 |}] |}].

Definition store (answers : list (option error)) : Store :=
  {| st_gm := manager;
     st_world := {| script := answers; keystore := one_credential |} |}.

Definition event (commitment index block : Z) (removed : bool) : RLNMemberRegistered :=
  {| IdCommitment := commitment; Index := index;
     Raw_BlockNumber := block; Raw_Removed := removed |}.

(** The manager as a successful [Start] leaves it, and a store that holds it
    in a world with the given script. *)
Definition started_manager : DynamicGroupManager :=
  st_gm (final (Start (P := Platform64) (Some tt) (Some tt)) (store [])).

Definition started_store (answers : list (option error)) : Store :=
  {| st_gm := started_manager;
     st_world := {| script := answers; keystore := one_credential |} |}.



(** Removals and insertions for the blocks 100, 105 and 110, arriving in
    block order and out of it. *)
Definition removals_100_105_110 : list RLNMemberRegistered :=
  [event 2 2 100 true; event 3 3 105 true; event 1 1 110 true].

Definition removals_110_100_105 : list RLNMemberRegistered :=
  [event 1 1 110 true; event 2 2 100 true; event 3 3 105 true].

Definition insertions_100_105_110 : list RLNMemberRegistered :=
  [event 2 2 100 false; event 3 3 105 false; event 1 1 110 false].

Definition insertions_110_100_105 : list RLNMemberRegistered :=
  [event 1 1 110 false; event 2 2 100 false; event 3 3 105 false].

(** A removal at block 100 and an insertion at block 110. *)
Definition mixed_batch : list RLNMemberRegistered :=
  [event 4 4 100 true; event 1 1 110 false].

End Script.

(** ** The constructor and the accessors *)

Section Accessors.
Context `{C : Collaborators}.

(** The default path and password of the keystore package. *)
Variable RLN_CREDENTIALS_FILENAME : string.
Variable RLN_CREDENTIALS_PASSWORD : string.

(** [NewDynamicGroupManager]: the manager, the error (always nil) and the
    warnings logged on the way. *)
Definition NewDynamicGroupManager (ethClientAddr : string) (memContractAddr : Address)
  (membershipGroupIndex' : Z) (keystorePath' keystorePassword' : string)
  (keystoreIndex' : Z) (saveKeystore' : bool)
  : (DynamicGroupManager * option error) * list Call :=
  let '(path, warn_path) :=
    if is_empty keystorePath'
    then (RLN_CREDENTIALS_FILENAME,
          [call_log Warn "keystore: no credentials path set, using default path"])
    else (keystorePath', []) in
  let '(password, warn_password) :=
    if is_empty keystorePassword'
    then (RLN_CREDENTIALS_PASSWORD,
          [call_log Warn "keystore: no credentials password set, using default password"])
    else (keystorePassword', []) in
  (({| rln := None; cancel := None; identityCredential := None;
       membershipIndex := None;
       membershipContractAddress := memContractAddr;
       membershipGroupIndex := membershipGroupIndex';
       ethClientAddress := ethClientAddr; ethClient := None;
       lastBlockProcessed := 0; chainId := None; rlnContract := None;
       saveKeystore := saveKeystore';
       keystorePath := path; keystorePassword := password;
       keystoreIndex := keystoreIndex'; rootTracker := None |},
    None),
   warn_path ++ warn_password).

(** The zero value of [rln.IdentityCredential]. *)
Variable zero_credential : IdentityCredential.

Definition IdentityCredentials (gm : DynamicGroupManager)
  : IdentityCredential * option error :=
  match identityCredential gm with
  | None => (zero_credential, Some "identity credential has not been setup"%string)
  | Some c => (c, None)
  end.

Definition MembershipIndex (gm : DynamicGroupManager) : Z * option error :=
  match membershipIndex gm with
  | None => (0, Some "membership index has not been setup"%string)
  | Some i => (i, None)
  end.

End Accessors.

(** ** Reasoning on the methods *)

Section Outcomes.
Context `{C : Collaborators}.

(** [Q] holds of what the run of [m] from [s] returns, leaves and calls. *)
Definition post {A} (m : M A) (s : Store)
  (Q : Result A -> Store -> list Entry -> Prop) : Prop :=
  Q (result m s) (final m s) (trace m s).

(** Every call of every run of [m] is one of the calls [allowed]. *)
Definition only_calls {A} (allowed : Call -> bool) (m : M A) : Prop :=
  forall s, Forall (fun en => allowed (ecall en) = true) (trace m s).

(** The calls of the life cycle that release what [Start] acquired. *)
Definition is_release (c : Call) : bool :=
  match c with
  | call_cancel | call_Flush | call_Close | call_Wait => true
  | _ => false
  end.

(** The commitments handed to the tree by the insert calls among the given
    calls, and the indexes handed to it by the delete calls, in order. *)
Definition inserted_commitments (cs : list Call) : list IDCommitment :=
  flat_map (fun c => match c with call_InsertMembers _ l => l | _ => [] end) cs.

Definition deleted_indexes (cs : list Call) : list Z :=
  flat_map (fun c => match c with call_DeleteMembers l => l | _ => [] end) cs.

(** A group of the insertion table that holds events. *)
Definition has_events (pair : Z * list RLNMemberRegistered) : bool :=
  match snd pair with
  | [] => false
  | _ :: _ => true
  end.

End Outcomes.

(** ** The answers to the calls of Start

    What the collaborators answer to the calls that [Start] makes, one after
    the other, on a manager that holds no cancel function, each call made in
    the world that the call before it left (the logger leaves the world as it
    is): the context; the dial of the address of the manager; the chain
    identifier, read from the client the dial returned; the binding of the
    contract at the address of the manager, on that client; the probe of the
    contract that was bound; and the keystore, asked for the path and the
    password of the manager, the chain identifier that was read and the
    address of the contract. *)
Section Answers.
Context `{C : Collaborators}.

Definition answer_WithCancel (s : Store) : CancelFunc * World :=
  context_WithCancel (st_world s).

Definition answer_Dial (s : Store) : (option Client * option error) * World :=
  ethclient_Dial (ethClientAddress (st_gm s)) (snd (answer_WithCancel s)).

Definition answer_ChainID (s : Store) : (option Z * option error) * World :=
  client_ChainID (fst (fst (answer_Dial s))) (snd (answer_Dial s)).

Definition answer_NewRLN (s : Store) : (option RLNContract * option error) * World :=
  contracts_NewRLN (membershipContractAddress (st_gm s))
    (fst (fst (answer_Dial s))) (snd (answer_ChainID s)).

Definition answer_MEMBERSHIPDEPOSIT (s : Store) : option error * World :=
  contract_MEMBERSHIPDEPOSIT (fst (fst (answer_NewRLN s))) (snd (answer_NewRLN s)).

Definition answer_GetMembershipCredentials (s : Store)
  : (list (MembershipCredentials IdentityCredential) * option error) * World :=
  keystore_GetMembershipCredentials (keystorePath (st_gm s))
    (keystorePassword (st_gm s)) (fst (fst (answer_ChainID s)))
    (membershipContractAddress (st_gm s)) (snd (answer_MEMBERSHIPDEPOSIT s)).

(** The manager as [Start] has assigned it when the cancel function is set,
    when the chain identifier has been read, and when the contract has been
    bound. *)
Definition after_WithCancel (s : Store) : DynamicGroupManager :=
  set_cancel (Some (fst (answer_WithCancel s))) (st_gm s).

Definition after_ChainID (rlnInstance : option RLN)
  (rootTracker' : option MerkleRootTracker) (s : Store) : DynamicGroupManager :=
  set_chainId (fst (fst (answer_ChainID s)))
    (set_rootTracker rootTracker'
       (set_rln rlnInstance
          (set_ethClient (fst (fst (answer_Dial s))) (after_WithCancel s)))).

Definition after_NewRLN (rlnInstance : option RLN)
  (rootTracker' : option MerkleRootTracker) (s : Store) : DynamicGroupManager :=
  set_rlnContract (fst (fst (answer_NewRLN s)))
    (after_ChainID rlnInstance rootTracker' s).

End Answers.

(** [handler] called on batches one after the other, whatever each call
    returns: the errors returned, in order. *)
Fixpoint handle_batches `{P : Platform} `{C : Collaborators} `{K : @Package C}
  (batches : list (list RLNMemberRegistered)) : M (list (option error)) :=
  match batches with
  | [] => ret []
  | events :: more =>
      bind (handler events) (fun err =>
      bind (handle_batches more) (fun errs => ret (err :: errs)))
  end.

(** ** Managers with a chosen keystore index

    A manager as the constructor returns it in the scripted world, with the
    given keystore index and group index, and a store that holds it in a
    world where every call succeeds and the keystore holds one credential. *)
Module Indexed.
Import Script.

Definition manager (keystoreIndex' membershipGroupIndex' : Z)
  : @DynamicGroupManager collaborators :=
  fst (fst (@NewDynamicGroupManager collaborators "rlnKeystore.json" "password"
              "ws://localhost:8545" tt membershipGroupIndex' "" "" keystoreIndex'
              false)).

Definition store (keystoreIndex' membershipGroupIndex' : Z) : @Store collaborators :=
  @Build_Store collaborators (manager keystoreIndex' membershipGroupIndex')
    {| script := []; keystore := one_credential |}.

End Indexed.

(** The manager the constructor builds in the scripted world when it is given
    no path and no password, and a store that holds it. *)
Module Fresh.
Import Script.

Definition manager : @DynamicGroupManager collaborators :=
  fst (fst (@NewDynamicGroupManager collaborators "rlnKeystore.json" "password"
              "ws://localhost:8545" tt 0 "" "" 0 false)).

Definition store : @Store collaborators :=
  @Build_Store collaborators manager {| script := []; keystore := one_credential |}.

End Fresh.

(** ** The light push wire format

    The generated protobuf code of [waku_lightpush.pb.go]: the varint helpers,
    and the size, the encoder and the decoder of [PushResponse].  A byte is an
    integer below 256, a byte slice and a string are lists of bytes, a slice
    index is an [int].  Indexing or slicing outside a slice panics.  A loop of
    the source is a function with a counter of the iterations left: [None] is
    a loop that ran out of them. *)
Module pb.

(** The errors of the decoder: the three package variables, [io]'s
    [ErrUnexpectedEOF], and the errors built with [fmt.Errorf], which carry
    the numbers they print. *)
Inductive DecodeError :=
| ErrInvalidLengthWakuLightpush
| ErrIntOverflowWakuLightpush
| ErrUnexpectedEndOfGroupWakuLightpush
| ErrUnexpectedEOF
| ErrEndGroupForNonGroup
| ErrIllegalTag (fieldNum wire : Z)
| ErrWrongWireType (wireType : Z) (field : string)
| ErrIllegalWireType (wireType : Z).

(** [XXX_unrecognized] is [None] for a nil slice. *)
Record PushResponse := {
  IsSuccess : bool;
  Info : list Z;
  XXX_unrecognized : option (list Z)
}.

(** [PushResponse{}] *)
Definition zero : PushResponse :=
  {| IsSuccess := false; Info := []; XXX_unrecognized := None |}.

Definition set_IsSuccess (m : PushResponse) (v : bool) : PushResponse :=
  {| IsSuccess := v; Info := Info m; XXX_unrecognized := XXX_unrecognized m |}.

Definition set_Info (m : PushResponse) (v : list Z) : PushResponse :=
  {| IsSuccess := IsSuccess m; Info := v; XXX_unrecognized := XXX_unrecognized m |}.

Definition set_XXX_unrecognized (m : PushResponse) (v : option (list Z)) : PushResponse :=
  {| IsSuccess := IsSuccess m; Info := Info m; XXX_unrecognized := v |}.

Definition GetIsSuccess (m : option PushResponse) : bool :=
  match m with
  | Some m => IsSuccess m
  | None => false
  end.

Definition GetInfo (m : option PushResponse) : list Z :=
  match m with
  | Some m => Info m
  | None => []
  end.

Definition Reset (m : PushResponse) : PushResponse := zero.

(** A run that may panic, or run out of iterations. *)
Definition Run (A : Type) : Type := option (Result A).

Definition run_bind {A B : Type} (m : Run A) (k : A -> Run B) : Run B :=
  match m with
  | Some (Ret a) => k a
  | Some Panic => Some Panic
  | None => None
  end.

Definition done {A : Type} (a : A) : Run A := Some (Ret a).

Definition must {A : Type} (r : Result A) : Run A := Some r.

Declare Scope pb_scope.
Delimit Scope pb_scope with pb.
Notation "x <- m ;; k" := (run_bind m (fun x => k))
  (at level 61, m at next level, right associativity) : pb_scope.
Notation "' p <- m ;; k" := (run_bind m (fun x => match x with p => k end))
  (at level 61, p pattern, m at next level, right associativity) : pb_scope.

Definition uint8 (z : Z) : Z := z mod 2 ^ 8.

Definition uint64 (z : Z) : Z := z mod 2 ^ 64.

Definition int32 (z : Z) : Z := (z + 2 ^ 31) mod 2 ^ 32 - 2 ^ 31.

(** [len(s)] *)
Definition len {A : Type} (s : list A) : Z := Z.of_nat (List.length s).

(** The bytes of [dAtA] from the index [lo] up to the index [hi]. *)
Definition sub (dAtA : list Z) (lo hi : Z) : list Z :=
  firstn (Z.to_nat (hi - lo)) (skipn (Z.to_nat lo) dAtA).

(** [dAtA[i]] *)
Definition load (dAtA : list Z) (i : Z) : Result Z :=
  if (0 <=? i) && (i <? len dAtA)
  then Ret (nth (Z.to_nat i) dAtA 0)
  else Panic.

(** [dAtA[lo:hi]], on a slice whose capacity is its length. *)
Definition slice (dAtA : list Z) (lo hi : Z) : Result (list Z) :=
  if (0 <=? lo) && (lo <=? hi) && (hi <=? len dAtA)
  then Ret (sub dAtA lo hi)
  else Panic.

(** [dAtA[i] = b] *)
Definition store (dAtA : list Z) (i b : Z) : Result (list Z) :=
  if (0 <=? i) && (i <? len dAtA)
  then Ret (firstn (Z.to_nat i) dAtA ++ b :: skipn (S (Z.to_nat i)) dAtA)
  else Panic.

(** [copy(dAtA[i:], src)]: the slice expression panics unless
    [0 <= i <= len(dAtA)]; [copy] writes as many bytes as both slices hold. *)
Definition copy (dAtA : list Z) (i : Z) (src : list Z) : Result (list Z) :=
  if (0 <=? i) && (i <=? len dAtA)
  then
    let n := Nat.min (List.length dAtA - Z.to_nat i) (List.length src) in
    Ret (firstn (Z.to_nat i) dAtA ++ firstn n src ++ skipn (Z.to_nat i + n) dAtA)
  else Panic.

(** [append(s, t...)] on a slice that may be nil: appending nothing to nil
    leaves nil. *)
Definition append (s : option (list Z)) (t : list Z) : option (list Z) :=
  match s, t with
  | None, [] => None
  | None, _ => Some t
  | Some s, _ => Some (s ++ t)
  end.

Section Codec.
Context `{P : Platform}.
Local Open Scope pb_scope.

(** [math/bits.Len64]: the number of bits of [x], 0 for 0. *)
Definition Len64 (x : Z) : Z := if x =? 0 then 0 else Z.log2 x + 1.

(** The operands are not negative: Go's division is [/] here. *)
Definition sovWakuLightpush (x : Z) : Z := (Len64 (Z.lor x 1) + 6) / 7.

Definition sozWakuLightpush (x : Z) : Z :=
  sovWakuLightpush
    (uint64 (Z.lxor (uint64 (Z.shiftl x 1)) (uint64 (Z.shiftr (int64 x) 63)))).

(** The loop of [encodeVarintWakuLightpush]. *)
Fixpoint encode_loop (fuel : nat) (dAtA : list Z) (offset v : Z) : Run (list Z) :=
  match fuel with
  | O => None
  | S fuel =>
    if 2 ^ 7 <=? v
    then
      dAtA <- must (store dAtA offset (uint8 (Z.lor (Z.land v 127) 128))) ;;
      encode_loop fuel dAtA (offset + 1) (Z.shiftr v 7)
    else must (store dAtA offset (uint8 v))
  end.

(** A [uint64] has ten groups of seven bits at most.  The result is the
    buffer after the writes, and [base]. *)
Definition encodeVarintWakuLightpush (dAtA : list Z) (offset v : Z) : Run (list Z * Z) :=
  let offset := offset - sovWakuLightpush v in
  let base := offset in
  dAtA <- encode_loop 10 dAtA offset v ;;
  done (dAtA, base).

Definition Size (m : option PushResponse) : Z :=
  match m with
  | None => 0
  | Some m =>
    let n := 0 in
    let n := if IsSuccess m then int (n + 2) else n in
    let l := len (Info m) in
    let n :=
      if 0 <? l
      then int (n + int (int (1 + l) + sovWakuLightpush (uint64 l)))
      else n in
    let n :=
      match XXX_unrecognized m with
      | Some u => int (n + len u)
      | None => n
      end in
    n
  end.

(** The result is the buffer after the writes, and the number of bytes
    written; the error of the source is nil on every path.  [i] stays between
    [- len(dAtA)] and [len(dAtA)] up to the first write out of range. *)
Definition MarshalToSizedBuffer (m : PushResponse) (dAtA : list Z) : Run (list Z * Z) :=
  let i := len dAtA in
  '(dAtA, i) <-
    match XXX_unrecognized m with
    | Some u =>
      let i := i - len u in
      dAtA <- must (copy dAtA i u) ;;
      done (dAtA, i)
    | None => done (dAtA, i)
    end ;;
  '(dAtA, i) <-
    (if 0 <? len (Info m)
     then
       let i := i - len (Info m) in
       dAtA <- must (copy dAtA i (Info m)) ;;
       '(dAtA, i) <- encodeVarintWakuLightpush dAtA i (uint64 (len (Info m))) ;;
       let i := i - 1 in
       dAtA <- must (store dAtA i 18) ;;
       done (dAtA, i)
     else done (dAtA, i)) ;;
  '(dAtA, i) <-
    (if IsSuccess m
     then
       let i := i - 1 in
       dAtA <- must (store dAtA i (if IsSuccess m then 1 else 0)) ;;
       let i := i - 1 in
       dAtA <- must (store dAtA i 8) ;;
       done (dAtA, i)
     else done (dAtA, i)) ;;
  done (dAtA, len dAtA - i).

(** [make] panics on a negative length and gives [size] zero bytes otherwise;
    the method call on a nil receiver panics at its first field access;
    [dAtA[:n]] is the first [n] bytes of the buffer the method wrote to. *)
Definition Marshal (m : option PushResponse) : Run (list Z) :=
  let size := Size m in
  if size <? 0 then Some Panic else
  let dAtA := repeat 0 (Z.to_nat size) in
  match m with
  | None => Some Panic
  | Some m =>
    buf <- must (slice dAtA 0 size) ;;
    '(dAtA, n) <- MarshalToSizedBuffer m buf ;;
    must (slice dAtA 0 n)
  end.

(** The loop that reads a varint into an accumulator of the integer type of
    conversion [conv]: [uint64] for [wire] and [stringLen], [int] for [v] and
    [length].  The result is an error, or the accumulator and [iNdEx] after
    the loop. *)
Fixpoint decode_varint (conv : Z -> Z) (fuel : nat) (dAtA : list Z)
    (l iNdEx shift acc : Z) : Run (DecodeError + Z * Z) :=
  match fuel with
  | O => None
  | S fuel =>
    if 64 <=? shift then done (inl ErrIntOverflowWakuLightpush)
    else if l <=? iNdEx then done (inl ErrUnexpectedEOF)
    else
      b <- must (load dAtA iNdEx) ;;
      let iNdEx := iNdEx + 1 in
      let acc := Z.lor acc (conv (Z.shiftl (conv (Z.land b 127)) shift)) in
      if b <? 128 then done (inr (acc, iNdEx))
      else decode_varint conv fuel dAtA l iNdEx (shift + 7) acc
  end.

(** The loop of [skipWakuLightpush] that passes over a varint. *)
Fixpoint skip_varint (fuel : nat) (dAtA : list Z) (l iNdEx shift : Z)
    : Run (DecodeError + Z) :=
  match fuel with
  | O => None
  | S fuel =>
    if 64 <=? shift then done (inl ErrIntOverflowWakuLightpush)
    else if l <=? iNdEx then done (inl ErrUnexpectedEOF)
    else
      let iNdEx := iNdEx + 1 in
      b <- must (load dAtA (iNdEx - 1)) ;;
      if b <? 128 then done (inr iNdEx)
      else skip_varint fuel dAtA l iNdEx (shift + 7)
  end.

(** A varint loop leaves at its eleventh test of [shift] at the latest. *)
Definition varint_fuel : nat := 11.

(** The end of a turn of the loop of [skipWakuLightpush], after the switch;
    [again] is the next turn. *)
Definition after_switch (again : Z -> Z -> Run (Z * option DecodeError))
    (iNdEx depth : Z) : Run (Z * option DecodeError) :=
  if iNdEx <? 0 then done (0, Some ErrInvalidLengthWakuLightpush)
  else if depth =? 0 then done (iNdEx, None)
  else again iNdEx depth.

(** The outer loop of [skipWakuLightpush]; the result is [(n, err)]. *)
Fixpoint skip_loop (fuel : nat) (dAtA : list Z) (l iNdEx depth : Z)
    : Run (Z * option DecodeError) :=
  match fuel with
  | O => None
  | S fuel =>
    if iNdEx <? l
    then
      r <- decode_varint uint64 varint_fuel dAtA l iNdEx 0 0 ;;
      match r with
      | inl err => done (0, Some err)
      | inr (wire, iNdEx) =>
        let wireType := int (Z.land wire 7) in
        match wireType with
        | 0 =>
          r <- skip_varint varint_fuel dAtA l iNdEx 0 ;;
          match r with
          | inl err => done (0, Some err)
          | inr iNdEx => after_switch (skip_loop fuel dAtA l) iNdEx depth
          end
        | 1 => after_switch (skip_loop fuel dAtA l) (int (iNdEx + 8)) depth
        | 2 =>
          r <- decode_varint int varint_fuel dAtA l iNdEx 0 0 ;;
          match r with
          | inl err => done (0, Some err)
          | inr (length, iNdEx) =>
            if length <? 0 then done (0, Some ErrInvalidLengthWakuLightpush)
            else after_switch (skip_loop fuel dAtA l) (int (iNdEx + length)) depth
          end
        | 3 => after_switch (skip_loop fuel dAtA l) iNdEx (int (depth + 1))
        | 4 =>
          if depth =? 0 then done (0, Some ErrUnexpectedEndOfGroupWakuLightpush)
          else after_switch (skip_loop fuel dAtA l) iNdEx (int (depth - 1))
        | 5 => after_switch (skip_loop fuel dAtA l) (int (iNdEx + 4)) depth
        | _ => done (0, Some (ErrIllegalWireType wireType))
        end
      end
    else done (0, Some ErrUnexpectedEOF)
  end.

(** Every turn of the outer loop reads a byte at least. *)
Definition skipWakuLightpush (dAtA : list Z) : Run (Z * option DecodeError) :=
  skip_loop (S (List.length dAtA)) dAtA (len dAtA) 0 0.

(** The outer loop of [Unmarshal]; the result is the message as the method
    leaves it, and the error it returns. *)
Fixpoint Unmarshal_loop (fuel : nat) (m : PushResponse) (dAtA : list Z) (l iNdEx : Z)
    : Run (PushResponse * option DecodeError) :=
  match fuel with
  | O => None
  | S fuel =>
    if iNdEx <? l
    then
      let preIndex := iNdEx in
      r <- decode_varint uint64 varint_fuel dAtA l iNdEx 0 0 ;;
      match r with
      | inl err => done (m, Some err)
      | inr (wire, iNdEx) =>
        let fieldNum := int32 (Z.shiftr wire 3) in
        let wireType := int (Z.land wire 7) in
        if wireType =? 4 then done (m, Some ErrEndGroupForNonGroup)
        else if fieldNum <=? 0 then done (m, Some (ErrIllegalTag fieldNum wire))
        else
          match fieldNum with
          | 1 =>
            if negb (wireType =? 0)
            then done (m, Some (ErrWrongWireType wireType "IsSuccess"))
            else
              r <- decode_varint int varint_fuel dAtA l iNdEx 0 0 ;;
              match r with
              | inl err => done (m, Some err)
              | inr (v, iNdEx) =>
                let m := set_IsSuccess m (negb (v =? 0)) in
                Unmarshal_loop fuel m dAtA l iNdEx
              end
          | 2 =>
            if negb (wireType =? 2)
            then done (m, Some (ErrWrongWireType wireType "Info"))
            else
              r <- decode_varint uint64 varint_fuel dAtA l iNdEx 0 0 ;;
              match r with
              | inl err => done (m, Some err)
              | inr (stringLen, iNdEx) =>
                let intStringLen := int stringLen in
                if intStringLen <? 0
                then done (m, Some ErrInvalidLengthWakuLightpush)
                else
                  let postIndex := int (iNdEx + intStringLen) in
                  if postIndex <? 0
                  then done (m, Some ErrInvalidLengthWakuLightpush)
                  else if l <? postIndex
                  then done (m, Some ErrUnexpectedEOF)
                  else
                    info <- must (slice dAtA iNdEx postIndex) ;;
                    let m := set_Info m info in
                    let iNdEx := postIndex in
                    Unmarshal_loop fuel m dAtA l iNdEx
              end
          | _ =>
            let iNdEx := preIndex in
            rest <- must (slice dAtA iNdEx (len dAtA)) ;;
            r <- skipWakuLightpush rest ;;
            match r with
            | (_, Some err) => done (m, Some err)
            | (skippy, None) =>
              if (skippy <? 0) || (int (iNdEx + skippy) <? 0)
              then done (m, Some ErrInvalidLengthWakuLightpush)
              else if l <? int (iNdEx + skippy)
              then done (m, Some ErrUnexpectedEOF)
              else
                unknown <- must (slice dAtA iNdEx (int (iNdEx + skippy))) ;;
                let m :=
                  set_XXX_unrecognized m (append (XXX_unrecognized m) unknown) in
                let iNdEx := int (iNdEx + skippy) in
                Unmarshal_loop fuel m dAtA l iNdEx
            end
          end
      end
    else done (m, if l <? iNdEx then Some ErrUnexpectedEOF else None)
  end.

(** Every turn of the outer loop reads a byte at least. *)
Definition Unmarshal (m : PushResponse) (dAtA : list Z)
    : Run (PushResponse * option DecodeError) :=
  Unmarshal_loop (S (List.length dAtA)) m dAtA (len dAtA) 0.

(** The base-128 code of [v] on [n] bytes, the least significant group first,
    the top bit set on every byte but the last. *)
Fixpoint base128 (n : nat) (v : Z) : list Z :=
  match n with
  | O => []
  | S n' =>
    match n' with
    | O => [uint8 v]
    | S _ => uint8 (Z.lor (Z.land v 127) 128) :: base128 n' (Z.shiftr v 7)
    end
  end.

Definition varint (v : Z) : list Z := base128 (Z.to_nat (sovWakuLightpush v)) v.

(** The bytes of a message on the wire: the field [IsSuccess] when it is set,
    the field [Info] when it is not empty, the unrecognized bytes. *)
Definition wire (m : PushResponse) : list Z :=
  (if IsSuccess m then [8; 1] else []) ++
  (match Info m with
   | [] => []
   | _ => 18 :: varint (len (Info m)) ++ Info m
   end) ++
  (match XXX_unrecognized m with
   | Some u => u
   | None => []
   end).

(** The number of fields of a message on the wire. *)
Definition fields (m : PushResponse) : nat :=
  (if IsSuccess m then 1 else 0) +
  (match Info m with
   | [] => 0
   | _ => 1
   end).

(** The message [m0] with the fields that [m] has on the wire written over
    its own. *)
Definition merge (m0 m : PushResponse) : PushResponse :=
  {| IsSuccess := if IsSuccess m then true else IsSuccess m0;
     Info :=
       match Info m with
       | [] => Info m0
       | _ => Info m
       end;
     XXX_unrecognized := XXX_unrecognized m0 |}.

(** The buffer [d] with the bytes [bs] written from the index [k] on. *)
Definition splice (d : list Z) (k : nat) (bs : list Z) : list Z :=
  firstn k d ++ bs ++ skipn (k + List.length bs) d.

Definition put (d : list Z) (i : Z) (bs : list Z) : list Z :=
  splice d (Z.to_nat i) bs.

(** What [skipWakuLightpush] returns when it returns no error, from the
    index [i] on: an index further on, that fits an [int]. *)
Definition skipped (i : Z) (r : Z * option DecodeError) : Prop :=
  snd r = None -> i < fst r < 2 ^ (uint_bits - 1).

End Codec.

End pb.

(** A response that reports a failure with a message, and a response that
    reports a success. *)
Module Responses.
Import pb.

Definition refused : PushResponse :=
  {| IsSuccess := false; Info := [110; 111]; XXX_unrecognized := None |}.

Definition accepted : PushResponse :=
  {| IsSuccess := true; Info := [111; 107]; XXX_unrecognized := None |}.

End Responses.


(** * Properties *)

(** ** Truncation of indexes *)

Section Truncation.
Context `{P : Platform}.

Lemma uint_bits_cases : 2 ^ uint_bits = 2 ^ 32 \/ 2 ^ uint_bits = 2 ^ 64.
Proof.
  destruct uint_bits_spec as [E | E]; rewrite E; [left | right]; reflexivity.
Qed.

(** On an index that is not negative, the detour through [int64] keeps the
    low bits: the start index is the index modulo the size of [uint]. *)
Lemma startIndex_of_mod (idx : Z) :
  0 <= idx -> startIndex_of idx = idx mod 2 ^ uint_bits.
Proof.
  intros Hidx.
  unfold startIndex_of, uint, big.Int64, big.low64, int64.
  assert (Hneg : (idx <? 0) = false) by (apply Z.ltb_ge; exact Hidx).
  rewrite Hneg, (Z.abs_eq idx Hidx).
  destruct uint_bits_cases as [E | E]; rewrite E;
    change (2 ^ 64) with 18446744073709551616;
    change (2 ^ 63) with 9223372036854775808;
    change (2 ^ 32) with 4294967296;
    Z.div_mod_to_equations; lia.
Qed.



End Truncation.

(** ** Lists *)

Section Lists.

Lemma fold_left_min_le (l : list Z) (a : Z) : fold_left Z.min l a <= a.
Proof.
  revert a. induction l as [| x l IH]; intros a; simpl; [lia |].
  specialize (IH (Z.min a x)). lia.
Qed.


Lemma fold_left_max_ge (l : list Z) (a : Z) : a <= fold_left Z.max l a.
Proof.
  revert a. induction l as [| x l IH]; intros a; simpl; [lia |].
  specialize (IH (Z.max a x)). lia.
Qed.

Lemma existsb_eqb_In (b : Z) (l : list Z) : existsb (Z.eqb b) l = true <-> In b l.
Proof.
  rewrite existsb_exists. split.
  - intros [x [Hin Heq]]. apply Z.eqb_eq in Heq. subst. exact Hin.
  - intros Hin. exists b. split; [exact Hin | apply Z.eqb_refl].
Qed.

Lemma existsb_eqb_not_In (b : Z) (l : list Z) :
  existsb (Z.eqb b) l = false <-> ~ In b l.
Proof.
  rewrite <- existsb_eqb_In. destruct (existsb (Z.eqb b) l); split; intros H;
    try reflexivity; try discriminate; try (intros H'; discriminate).
  exfalso. apply H. reflexivity.
Qed.

Lemma StronglySorted_snoc {A} (R : A -> A -> Prop) (l : list A) (b : A) :
  StronglySorted R l -> Forall (fun x => R x b) l -> StronglySorted R (l ++ [b]).
Proof.
  induction 1 as [| x l Hs IH Hx]; intros Hall; simpl.
  - constructor; constructor.
  - inversion Hall as [| ? ? Hxb Hlb]; subst. constructor.
    + apply IH. exact Hlb.
    + apply Forall_app. split; [exact Hx | constructor; [exact Hxb | constructor]].
Qed.

Lemma StronglySorted_snoc_inv {A} (R : A -> A -> Prop) (l : list A) (b : A) :
  StronglySorted R (l ++ [b]) -> StronglySorted R l /\ Forall (fun x => R x b) l.
Proof.
  induction l as [| x l IH]; simpl; intros Hs.
  - split; constructor.
  - inversion Hs as [| ? ? Hs' Hx]; subst. destruct (IH Hs') as [Hl Hb].
    apply Forall_app in Hx. destruct Hx as [Hxl Hxb].
    inversion Hxb; subst. split; constructor; assumption.
Qed.

Lemma StronglySorted_prefix {A} (R : A -> A -> Prop) (l rest : list A) :
  StronglySorted R (l ++ rest) -> StronglySorted R l.
Proof.
  induction l as [| x l IH]; simpl; intros Hs; [constructor |].
  inversion Hs as [| ? ? Hs' Hx]; subst. constructor.
  - apply IH. exact Hs'.
  - apply Forall_app in Hx. apply Hx.
Qed.

Lemma StronglySorted_rev {A} (R : A -> A -> Prop) (l : list A) :
  StronglySorted R l -> StronglySorted (fun a b => R b a) (rev l).
Proof.
  induction 1 as [| x l Hs IH Hx]; simpl; [constructor |].
  apply StronglySorted_snoc; [exact IH |].
  apply Forall_rev. exact Hx.
Qed.

(** *** Arrival order *)

Lemma arrival_order_snoc (l : list Z) (b : Z) :
  arrival_order (l ++ [b]) = arrives (arrival_order l) b.
Proof. unfold arrival_order. rewrite fold_left_app. reflexivity. Qed.

Lemma arrives_In (acc : list Z) (b x : Z) :
  In x (arrives acc b) <-> In x acc \/ x = b.
Proof.
  unfold arrives. destruct (existsb (Z.eqb b) acc) eqn:E.
  - apply existsb_eqb_In in E. split; [auto | intros [H | ->]; assumption].
  - rewrite in_app_iff. simpl. split.
    + intros [H | [-> | []]]; auto.
    + intros [H | ->]; auto.
Qed.

Lemma arrival_order_In (l : list Z) (x : Z) : In x (arrival_order l) <-> In x l.
Proof.
  induction l as [| b l IH] using rev_ind.
  - reflexivity.
  - rewrite arrival_order_snoc, arrives_In, in_app_iff, IH. simpl.
    split.
    + intros [H | ->]; auto.
    + intros [H | [-> | []]]; auto.
Qed.

Lemma arrival_order_NoDup (l : list Z) : NoDup (arrival_order l).
Proof.
  induction l as [| b l IH] using rev_ind.
  - constructor.
  - rewrite arrival_order_snoc. unfold arrives.
    destruct (existsb (Z.eqb b) (arrival_order l)) eqn:E; [exact IH |].
    apply existsb_eqb_not_In in E.
    apply NoDup_rev in IH. rewrite <- (rev_involutive (_ ++ _)).
    apply NoDup_rev. rewrite rev_app_distr. simpl. constructor; [| exact IH].
    rewrite <- in_rev. exact E.
Qed.

(** Blocks that arrive in nondecreasing order are met in strictly
    increasing order. *)
Lemma arrival_order_sorted (l : list Z) :
  StronglySorted Z.le l -> StronglySorted Z.lt (arrival_order l).
Proof.
  induction l as [| b l IH] using rev_ind; intros Hs.
  - constructor.
  - apply StronglySorted_snoc_inv in Hs. destruct Hs as [Hl Hb].
    rewrite arrival_order_snoc. unfold arrives.
    destruct (existsb (Z.eqb b) (arrival_order l)) eqn:E; [exact (IH Hl) |].
    apply existsb_eqb_not_In in E.
    apply StronglySorted_snoc; [exact (IH Hl) |].
    apply Forall_forall. intros x Hx.
    assert (Hxl : In x l) by (apply arrival_order_In; exact Hx).
    rewrite Forall_forall in Hb. specialize (Hb x Hxl).
    assert (x <> b) by (intros ->; apply E; exact Hx). lia.
Qed.

End Lists.

(** ** The tables of the handler *)

Section TablesOfHandler.
Context `{P : Platform} `{C : Collaborators}.

Lemma Get_tabulate {V} (g : Z -> V) (keys : list Z) (k : Z) :
  om.Get (tabulate g keys) k = if existsb (Z.eqb k) keys then Some (g k) else None.
Proof.
  induction keys as [| a keys IH]; simpl; [reflexivity |].
  rewrite (Z.eqb_sym k a). destruct (a =? k) eqn:E; simpl.
  - apply Z.eqb_eq in E. subst. reflexivity.
  - exact IH.
Qed.

Lemma tabulate_ext {V} (g h : Z -> V) (keys : list Z) :
  (forall b, In b keys -> g b = h b) -> tabulate g keys = tabulate h keys.
Proof.
  intros H. unfold tabulate. apply map_ext_in. intros b Hb. rewrite (H b Hb).
  reflexivity.
Qed.

Lemma tabulate_map_id {A} (g : Z -> list A) (keys : list Z) :
  tabulate (fun b => map (fun x => x) (g b)) keys = tabulate g keys.
Proof. apply tabulate_ext. intros b _. apply map_id. Qed.

Lemma Set_tabulate {V} (g : Z -> V) (keys : list Z) (k : Z) (v : V) :
  NoDup keys ->
  om.Set_ (tabulate g keys) k v
  = tabulate (fun b => if b =? k then v else g b) (arrives keys k).
Proof.
  induction keys as [| a keys IH]; intros ND.
  - unfold arrives. simpl. rewrite Z.eqb_refl. reflexivity.
  - inversion ND as [| ? ? Hnotin ND']; subst.
    unfold arrives. simpl. rewrite (Z.eqb_sym k a).
    destruct (a =? k) eqn:E; simpl.
    + apply Z.eqb_eq in E. subst. rewrite Z.eqb_refl. f_equal.
      apply tabulate_ext. intros b Hb.
      destruct (b =? k) eqn:E'; [| reflexivity].
      apply Z.eqb_eq in E'. subst. contradiction.
    + rewrite (IH ND'). unfold arrives.
      destruct (existsb (Z.eqb k) keys); simpl; rewrite E; reflexivity.
Qed.

Lemma Keys_tabulate {V} (g : Z -> V) (keys : list Z) :
  om.Keys (tabulate g keys) = keys.
Proof.
  unfold om.Keys, tabulate. rewrite map_map. simpl. apply map_id.
Qed.

Lemma filter_in_block_nil (b : Z) (events : list RLNMemberRegistered) :
  ~ In b (blocks_of events) -> filter (in_block b) events = [].
Proof.
  induction events as [| e events IH]; simpl; intros Hnotin; [reflexivity |].
  unfold in_block at 1. destruct (Raw_BlockNumber e =? b) eqn:E.
  - apply Z.eqb_eq in E. exfalso. apply Hnotin. left. exact E.
  - apply IH. intros H. apply Hnotin. right. exact H.
Qed.

(** Adding one event to the table of its kind: the block arrives, and the
    group of the block grows at its end. *)
Lemma Set_group {V} (h : RLNMemberRegistered -> V)
  (events : list RLNMemberRegistered) (e : RLNMemberRegistered) :
  let table evs :=
    tabulate (fun b => map h (filter (in_block b) evs))
      (arrival_order (blocks_of evs)) in
  om.Set_ (table events) (Raw_BlockNumber e)
    (get_or_nil (table events) (Raw_BlockNumber e) ++ [h e])
  = table (events ++ [e]).
Proof.
  intros table. unfold table.
  rewrite Set_tabulate by apply arrival_order_NoDup.
  unfold blocks_of at 3. rewrite map_app. simpl.
  rewrite arrival_order_snoc. fold (blocks_of events).
  apply tabulate_ext. intros b Hb.
  rewrite filter_app, map_app. simpl.
  replace (in_block b e) with (b =? Raw_BlockNumber e)
    by (unfold in_block; apply Z.eqb_sym).
  destruct (b =? Raw_BlockNumber e) eqn:E.
  - apply Z.eqb_eq in E. subst b. f_equal.
    unfold get_or_nil. rewrite Get_tabulate.
    destruct (existsb (Z.eqb (Raw_BlockNumber e)) (arrival_order (blocks_of events)))
      eqn:E'; [reflexivity |].
    apply existsb_eqb_not_In in E'. rewrite arrival_order_In in E'.
    rewrite (filter_in_block_nil _ _ E'). reflexivity.
  - simpl. rewrite app_nil_r. reflexivity.
Qed.

Lemma fold_left_max_snoc (l : list Z) (a b : Z) :
  fold_left Z.max (l ++ [b]) a = Z.max (fold_left Z.max l a) b.
Proof. rewrite fold_left_app. reflexivity. Qed.

(** What the first loop of [handler] computes: each table holds the blocks
    of its kind of event in their order of first arrival, each block with
    its events in arrival order; the candidate is the maximum of the
    watermark and the blocks of the events that are not removed. *)
Lemma sort_events_spec (last : Z) (events : list RLNMemberRegistered) :
  sort_events last events
  = {| toRemoveTable :=
         tabulate
           (fun b => removed_indexes_of (filter (in_block b) (removed_events events)))
           (arrival_order (blocks_of (removed_events events)));
       toInsertTable :=
         tabulate
           (fun b => filter (in_block b) (inserted_events events))
           (arrival_order (blocks_of (inserted_events events)));
       candidate := fold_left Z.max (blocks_of (inserted_events events)) last |}.
Proof.
  induction events as [| e events IH] using rev_ind.
  - reflexivity.
  - unfold sort_events in *. rewrite fold_left_app. simpl. rewrite IH. clear IH.
    unfold sort_event, removed_events, inserted_events, is_inserted. simpl.
    rewrite !filter_app. simpl.
    destruct (Raw_Removed e) eqn:R; simpl; rewrite !app_nil_r; f_equal.
    + unfold removed_indexes_of.
      exact (Set_group (fun evt => uint (big.Uint64 (Index evt)))
               (filter Raw_Removed events) e).
    + pose proof (Set_group (fun evt => evt)
                    (filter (fun event => negb (Raw_Removed event)) events) e) as H.
      simpl in H. rewrite !tabulate_map_id in H. exact H.
    + unfold blocks_of. rewrite map_app. simpl. rewrite fold_left_max_snoc.
      set (m := fold_left Z.max _ last).
      destruct (Raw_BlockNumber e >? m) eqn:G.
      * apply Z.gtb_lt in G. lia.
      * rewrite Z.gtb_ltb in G. apply Z.ltb_ge in G. lia.
Qed.

End TablesOfHandler.

(** ** The two passes *)

Section Passes.
Context `{P : Platform} `{C : Collaborators}.

Lemma collect_block_from (events : list RLNMemberRegistered)
  (idCommitments : list IDCommitment) (oldest : option Z) :
  fold_left
    (fun acc evt =>
       let '(idCommitments, oldestIndexInBlock) := acc in
       let oldestIndexInBlock :=
         match oldestIndexInBlock with
         | None => Some (Index evt)
         | Some i => Some i
         end in
       (idCommitments ++ [BigIntToBytes32 (IdCommitment evt)], oldestIndexInBlock))
    events (idCommitments, oldest)
  = (idCommitments ++ commitments_of events,
     match oldest with
     | Some i => Some i
     | None => match events with [] => None | first :: _ => Some (Index first) end
     end).
Proof.
  revert idCommitments oldest.
  induction events as [| e events IH]; intros cs oldest; simpl.
  - rewrite app_nil_r. destruct oldest; reflexivity.
  - rewrite IH. rewrite <- app_assoc. simpl. destruct oldest; reflexivity.
Qed.

(** The inner loop keeps the commitments in arrival order and the index of
    the event that arrived first. *)
Lemma collect_block_spec (events : list RLNMemberRegistered) :
  collect_block events
  = (commitments_of events,
     match events with [] => None | first :: _ => Some (Index first) end).
Proof. unfold collect_block. rewrite collect_block_from. reflexivity. Qed.

Lemma RemoveMembers_from_run (pairs : list (Z * list Z)) (s : Store) :
  exists r s' tr,
    RemoveMembers_from pairs s = (Ret r, s', tr)
    /\ st_gm s' = st_gm s
    /\ removal_run pairs r tr.
Proof.
  revert s. induction pairs as [| [key memberIndexes] prev IH]; intros s.
  - exists None, s, []. repeat split. constructor.
  - simpl. unfold bind at 1. unfold get_gm. unfold bind at 1. unfold call at 1.
    destruct (rln_DeleteMembers (rln (st_gm s)) memberIndexes (st_world s))
      as [[e |] w].
    + eexists (Some e), _, _. repeat split. apply removal_failed.
    + unfold bind, call_void. simpl.
      match goal with
      | |- context [RemoveMembers_from prev ?s1] =>
          destruct (IH s1) as (r & s' & tr & E & G & R); rewrite E
      end.
      exists r, s', (ok (call_DeleteMembers memberIndexes) :: ok (call_Backfill key) :: tr).
      repeat split; [exact G | apply removal_next; exact R].
Qed.

Lemma InsertMembers_from_run (pairs : list (Z * list RLNMemberRegistered))
  (s : Store) :
  exists r s' tr,
    InsertMembers_from pairs s = (Ret r, s', tr)
    /\ st_gm s' = st_gm s
    /\ insertion_run pairs r tr.
Proof.
  revert s. induction pairs as [| [key events] next IH]; intros s.
  - exists None, s, []. repeat split. constructor.
  - simpl. rewrite collect_block_spec.
    destruct events as [| first rest].
    + simpl. destruct (IH s) as (r & s' & tr & E & G & R).
      exists r, s', tr. repeat split; [exact E | exact G |].
      apply insertion_skip. exact R.
    + replace (Z.of_nat (List.length (commitments_of (first :: rest))) =? 0)
        with false by (symmetry; apply Z.eqb_neq; simpl; lia).
      unfold bind at 1. unfold get_gm. unfold bind at 1. unfold call at 1.
      destruct (rln_InsertMembers (rln (st_gm s)) (startIndex_of (Index first))
                  (commitments_of (first :: rest)) (st_world s)) as [[e |] w].
      * eexists (Some e), _, _. repeat split. apply insertion_failed.
      * unfold bind at 1. unfold call at 1. simpl st_world. simpl st_gm.
        destruct (tracker_UpdateLatestRoot (rootTracker (st_gm s)) key w)
          as [[e |] w'].
        -- eexists (Some e), _, _. repeat split. apply insertion_root_failed.
        -- match goal with
           | |- context [InsertMembers_from next ?s1] =>
               destruct (IH s1) as (r & s' & tr & E & G & R); rewrite E
           end.
           eexists r, s', _. repeat split; [exact G |].
           apply insertion_next. exact R.
Qed.

End Passes.

(** ** The runs of the passes *)

Section Runs.
Context `{P : Platform} `{C : Collaborators}.

Lemma removals_of_app (a b : list Entry) :
  removals_of (a ++ b) = removals_of a ++ removals_of b.
Proof. unfold removals_of, calls. rewrite map_app, filter_app. reflexivity. Qed.

Lemma insertions_of_app (a b : list Entry) :
  insertions_of (a ++ b) = insertions_of a ++ insertions_of b.
Proof. unfold insertions_of, calls. rewrite map_app, filter_app. reflexivity. Qed.

Lemma backfilled_app (a b : list Call) :
  backfilled (a ++ b) = backfilled a ++ backfilled b.
Proof. apply flat_map_app. Qed.

Lemma root_updated_app (a b : list Call) :
  root_updated (a ++ b) = root_updated a ++ root_updated b.
Proof. apply flat_map_app. Qed.

Lemma backfilled_removals (cs : list Call) :
  backfilled (filter is_removal cs) = backfilled cs.
Proof.
  induction cs as [| c cs IH]; simpl; [reflexivity |].
  destruct c; simpl; rewrite ?IH; reflexivity.
Qed.

Lemma root_updated_insertions (cs : list Call) :
  root_updated (filter is_insertion cs) = root_updated cs.
Proof.
  induction cs as [| c cs IH]; simpl; [reflexivity |].
  destruct c; simpl; rewrite ?IH; reflexivity.
Qed.

Lemma backfilled_removal_calls (pairs : list (Z * list Z)) :
  backfilled (removal_calls pairs) = map fst pairs.
Proof.
  induction pairs as [| [key idx] pairs IH]; simpl; [reflexivity |].
  f_equal. exact IH.
Qed.

Lemma root_updated_insertion_calls (pairs : list (Z * list RLNMemberRegistered)) :
  Forall (fun pair => snd pair <> []) pairs ->
  root_updated (insertion_calls pairs) = map fst pairs.
Proof.
  induction 1 as [| [key events] pairs Hne _ IH]; simpl; [reflexivity |].
  destruct events as [| first rest]; [contradiction Hne; reflexivity |].
  simpl. f_equal. exact IH.
Qed.

(** *** The removal pass *)

Lemma removal_run_kind pairs r tr :
  removal_run pairs r tr ->
  Forall (fun en => is_removal (ecall en) || is_log (ecall en) = true) tr.
Proof.
  induction 1; repeat constructor; assumption.
Qed.

(** The removal calls made are the first calls of the whole pass, and all
    of them when the pass returns no error. *)
Lemma removal_run_calls pairs r tr :
  removal_run pairs r tr ->
  exists rest,
    removal_calls pairs = removals_of tr ++ rest /\ (r = None -> rest = []).
Proof.
  induction 1 as [| key idx prev e | key idx prev r tr _ [rest [IH1 IH2]]].
  - exists []. split; reflexivity.
  - exists (call_Backfill key :: removal_calls prev). split; [reflexivity |].
    discriminate.
  - exists rest. split; [| exact IH2].
    simpl. unfold removals_of in *. simpl. rewrite IH1. reflexivity.
Qed.

Lemma removal_run_error pairs r tr :
  removal_run pairs r tr ->
  forall c e, In {| ecall := c; eerr := Some e |} tr -> r = Some e.
Proof.
  induction 1 as [| key idx prev e0 | key idx prev r tr _ IH]; intros c e Hin.
  - destruct Hin.
  - destruct Hin as [Heq | [Heq | []]].
    + unfold failed in Heq. congruence.
    + unfold ok in Heq. discriminate.
  - destruct Hin as [Heq | [Heq | Hin]]; try (unfold ok in Heq; discriminate).
    exact (IH c e Hin).
Qed.

(** *** The insertion pass *)

Lemma insertion_run_kind pairs r tr :
  insertion_run pairs r tr ->
  Forall (fun en => is_insertion (ecall en) || is_log (ecall en) = true) tr.
Proof.
  induction 1; repeat constructor; assumption.
Qed.

Lemma insertion_run_calls pairs r tr :
  insertion_run pairs r tr ->
  exists rest,
    insertion_calls pairs = insertions_of tr ++ rest /\ (r = None -> rest = []).
Proof.
  induction 1 as [| key next r tr _ [rest [IH1 IH2]]
                  | key first others next e
                  | key first others next e
                  | key first others next r tr _ [rest [IH1 IH2]]].
  - exists []. split; reflexivity.
  - exists rest. split; [exact IH1 | exact IH2].
  - exists (call_UpdateLatestRoot key :: insertion_calls next).
    split; [reflexivity | discriminate].
  - exists (insertion_calls next). split; [reflexivity | discriminate].
  - exists rest. split; [| exact IH2].
    simpl. unfold insertions_of in *. simpl. rewrite IH1. reflexivity.
Qed.

Lemma insertion_run_error pairs r tr :
  insertion_run pairs r tr ->
  forall c e, In {| ecall := c; eerr := Some e |} tr -> r = Some e.
Proof.
  induction 1 as [| key next r tr _ IH
                  | key first others next e0
                  | key first others next e0
                  | key first others next r tr _ IH]; intros c e Hin.
  - destruct Hin.
  - exact (IH c e Hin).
  - destruct Hin as [Heq | [Heq | []]].
    + unfold failed in Heq. congruence.
    + unfold ok in Heq. discriminate.
  - destruct Hin as [Heq | [Heq | []]].
    + unfold ok in Heq. discriminate.
    + unfold failed in Heq. congruence.
  - destruct Hin as [Heq | [Heq | Hin]]; try (unfold ok in Heq; discriminate).
    exact (IH c e Hin).
Qed.


End Runs.

(** ** The handler *)

Section Handler.
Context `{P : Platform} `{C : Collaborators} `{K : @Package C}.

(** Every run of [handler] returns, and is one of the three runs of
    [handler_run]. *)
Lemma handler_spec (events : list RLNMemberRegistered) (s : Store) :
  exists r s' tr,
    handler events s = (Ret r, s', tr)
    /\ handler_run (sort_events (lastBlockProcessed (st_gm s)) events)
         (st_gm s) r (st_gm s') tr.
Proof.
  unfold handler. unfold bind at 1. unfold get_gm at 1.
  set (T := sort_events (lastBlockProcessed (st_gm s)) events).
  unfold bind at 1. unfold RemoveMembers.
  destruct (RemoveMembers_from_run (om.from_Newest (toRemoveTable T)) s)
    as (r_r & s1 & tr_r & E1 & G1 & R1).
  rewrite E1. destruct r_r as [e |].
  - exists (Some e), s1, (tr_r ++ []). split; [reflexivity |].
    rewrite app_nil_r, G1. apply handler_removal_failed. exact R1.
  - unfold bind at 1. unfold InsertMembers.
    destruct (InsertMembers_from_run (om.from_Oldest (toInsertTable T)) s1)
      as (r_i & s2 & tr_i & E2 & G2 & R2).
    rewrite E2. destruct r_i as [e |].
    + exists (Some e), s2, (tr_r ++ tr_i ++ []). split; [reflexivity |].
      rewrite app_nil_r, G2, G1. apply handler_insertion_failed; assumption.
    + unfold bind, modify_gm, get_gm, SetMetadata, call, log, ret. simpl.
      destruct (gm_SetMetadata
                  (set_lastBlockProcessed (candidate T) (st_gm s2))
                  (candidate T) (st_world s2)) as [o w] eqn:E3.
      unfold bind, get_gm, call. simpl. rewrite E3.
      exists None.
      destruct o as [e |]; simpl; eexists _, _; (split; [reflexivity |]);
        simpl; rewrite G2, G1.
      * exact (handler_done T (st_gm s) (Some e) tr_r tr_i R1 R2).
      * exact (handler_done T (st_gm s) None tr_r tr_i R1 R2).
Qed.


Lemma handler_tables (last : Z) (events : list RLNMemberRegistered) :
  om.from_Newest (toRemoveTable (sort_events last events)) = removal_groups events
  /\ om.from_Oldest (toInsertTable (sort_events last events)) = insertion_groups events
  /\ candidate (sort_events last events)
     = fold_left Z.max (blocks_of (inserted_events events)) last.
Proof. rewrite sort_events_spec. repeat split. Qed.

Lemma no_removals (tr : list Entry) :
  Forall (fun en => is_removal (ecall en) = false) tr -> removals_of tr = [].
Proof.
  induction 1 as [| en tr H _ IH]; [reflexivity |].
  unfold removals_of in *. simpl. rewrite H. exact IH.
Qed.

Lemma no_insertions (tr : list Entry) :
  Forall (fun en => is_insertion (ecall en) = false) tr -> insertions_of tr = [].
Proof.
  induction 1 as [| en tr H _ IH]; [reflexivity |].
  unfold insertions_of in *. simpl. rewrite H. exact IH.
Qed.

Lemma removal_kind_no_insertion (tr : list Entry) :
  Forall (fun en => is_removal (ecall en) || is_log (ecall en) = true) tr ->
  Forall (fun en => is_insertion (ecall en) = false) tr.
Proof.
  apply Forall_impl. intros [c o]. simpl. destruct c; simpl; congruence.
Qed.

Lemma insertion_kind_no_removal (tr : list Entry) :
  Forall (fun en => is_insertion (ecall en) || is_log (ecall en) = true) tr ->
  Forall (fun en => is_removal (ecall en) = false) tr.
Proof.
  apply Forall_impl. intros [c o]. simpl. destruct c; simpl; congruence.
Qed.

Lemma removal_kind_no_metadata (tr : list Entry) b o :
  Forall (fun en => is_removal (ecall en) || is_log (ecall en) = true) tr ->
  ~ In {| ecall := call_SetMetadata b; eerr := o |} tr.
Proof.
  intros H Hin. rewrite Forall_forall in H. specialize (H _ Hin). discriminate.
Qed.

Lemma insertion_kind_no_metadata (tr : list Entry) b o :
  Forall (fun en => is_insertion (ecall en) || is_log (ecall en) = true) tr ->
  ~ In {| ecall := call_SetMetadata b; eerr := o |} tr.
Proof.
  intros H Hin. rewrite Forall_forall in H. specialize (H _ Hin). discriminate.
Qed.

(** The shape of every trace of [handler]: a first part without any
    insertion call, holding removal calls of the batch from the first one
    on, and a second part without any removal call, holding insertion calls
    of the batch from the first one on.  The removals are complete as soon
    as the second part holds an insertion, and both are complete when the
    handler returns no error. *)
Lemma handler_run_shape events last g r g' tr :
  handler_run (sort_events last events) g r g' tr ->
  exists before after,
    tr = before ++ after
    /\ Forall (fun en => is_insertion (ecall en) = false) before
    /\ Forall (fun en => is_removal (ecall en) = false) after
    /\ (exists rest,
           batch_removals events = removals_of before ++ rest
           /\ (r = None \/ insertions_of after <> [] -> rest = []))
    /\ (exists rest,
           batch_insertions events = insertions_of after ++ rest
           /\ (r = None -> rest = [])).
Proof.
  unfold batch_removals, batch_insertions.
  destruct (handler_tables last events) as (HR & HI & _).
  intros Hrun. destruct Hrun as [e tr_r R | e tr_r tr_i R I | o tr_r tr_i R I];
    rewrite HR in R; try rewrite HI in I.
  - exists tr_r, []. rewrite app_nil_r.
    destruct (removal_run_calls _ _ _ R) as [rest [Hc _]].
    repeat split.
    + apply removal_kind_no_insertion. exact (removal_run_kind _ _ _ R).
    + constructor.
    + exists rest. split; [exact Hc |].
      intros [H | H]; [discriminate | contradiction H; reflexivity].
    + eexists. split; [reflexivity | discriminate].
  - exists tr_r, tr_i.
    destruct (removal_run_calls _ _ _ R) as [rest [Hc Hn]].
    destruct (insertion_run_calls _ _ _ I) as [rest' [Hc' _]].
    repeat split.
    + apply removal_kind_no_insertion. exact (removal_run_kind _ _ _ R).
    + apply insertion_kind_no_removal. exact (insertion_run_kind _ _ _ I).
    + exists rest. split; [exact Hc |]. intros _. apply Hn. reflexivity.
    + exists rest'. split; [exact Hc' | discriminate].
  - exists tr_r, (tr_i ++ persisted (candidate (sort_events last events)) o).
    destruct (removal_run_calls _ _ _ R) as [rest [Hc Hn]].
    destruct (insertion_run_calls _ _ _ I) as [rest' [Hc' Hn']].
    repeat split.
    + apply removal_kind_no_insertion. exact (removal_run_kind _ _ _ R).
    + apply Forall_app. split.
      * apply insertion_kind_no_removal. exact (insertion_run_kind _ _ _ I).
      * destruct o; repeat constructor.
    + exists rest. split; [exact Hc |]. intros _. apply Hn. reflexivity.
    + exists rest'. split; [| exact Hn'].
      rewrite insertions_of_app.
      replace (insertions_of (persisted _ o)) with (@nil Call)
        by (destruct o; reflexivity).
      rewrite app_nil_r. exact Hc'.
Qed.

End Handler.

(** ** Reconciliation of a batch *)

Section Reconciliation.
Context `{P : Platform} `{C : Collaborators} `{K : @Package C}.

Lemma handler_returns (events : list RLNMemberRegistered) (s : Store) :
  exists r,
    result (handler events) s = Ret r
    /\ handler_run (sort_events (lastBlockProcessed (st_gm s)) events)
         (st_gm s) r (st_gm (final (handler events) s))
         (trace (handler events) s).
Proof.
  destruct (handler_spec events s) as (r & s' & tr & E & R).
  exists r. unfold result, final, trace. rewrite E. simpl. split; [reflexivity | exact R].
Qed.

Lemma filter_in_block_nonempty (b : Z) (events : list RLNMemberRegistered) :
  In b (blocks_of events) -> filter (in_block b) events <> [].
Proof.
  unfold blocks_of. rewrite in_map_iff. intros [e [Hb Hin]] Hnil.
  assert (Hf : In e (filter (in_block b) events)).
  { apply filter_In. split; [exact Hin |]. unfold in_block. apply Z.eqb_eq. exact Hb. }
  rewrite Hnil in Hf. destruct Hf.
Qed.

Lemma insertion_groups_nonempty (events : list RLNMemberRegistered) :
  Forall (fun pair => snd pair <> []) (insertion_groups events).
Proof.
  unfold insertion_groups, tabulate. apply Forall_forall. intros pair Hin.
  apply in_map_iff in Hin. destruct Hin as [b [<- Hb]]. simpl.
  apply filter_in_block_nonempty. apply arrival_order_In. exact Hb.
Qed.

Lemma removal_groups_blocks (events : list RLNMemberRegistered) :
  map fst (removal_groups events)
  = rev (arrival_order (blocks_of (removed_events events))).
Proof.
  unfold removal_groups. rewrite map_rev. f_equal. apply Keys_tabulate.
Qed.

Lemma insertion_groups_blocks (events : list RLNMemberRegistered) :
  map fst (insertion_groups events)
  = arrival_order (blocks_of (inserted_events events)).
Proof. unfold insertion_groups. apply Keys_tabulate. Qed.

(** The removal calls of a run of [handler] are the first removal calls of
    the batch, all of them when it returns no error; so are its insertion
    calls. *)
Lemma handler_calls (events : list RLNMemberRegistered) (s : Store) :
  (exists rest,
      batch_removals events = removals_of (trace (handler events) s) ++ rest
      /\ (result (handler events) s = Ret None -> rest = []))
  /\ (exists rest,
         batch_insertions events = insertions_of (trace (handler events) s) ++ rest
         /\ (result (handler events) s = Ret None -> rest = [])).
Proof.
  destruct (handler_returns events s) as (r & Hr & Hrun).
  apply handler_run_shape in Hrun.
  destruct Hrun as (before & after & Htr & Hb & Ha & [rest [Hc Hn]] & [rest' [Hc' Hn']]).
  rewrite Htr, Hr, removals_of_app, insertions_of_app.
  rewrite (no_removals _ Ha), (no_insertions _ Hb), app_nil_r. simpl.
  split.
  - exists rest. split; [exact Hc |]. intros E. apply Hn. left. congruence.
  - exists rest'. split; [exact Hc' |]. intros E. apply Hn'. congruence.
Qed.

(** C2, as amended.  The removal pass walks the blocks that arrived with
    removed events in the reverse of their order of first arrival: its
    removal calls are, for each such block in that order, the deletion of
    the indexes of the block's removed events followed by the backfill at
    the block, up to the first failing deletion (all of them when the
    handler returns no error).  When the removed events arrive in
    nondecreasing block order, the backfills are made at strictly decreasing
    blocks. *)
Theorem handler_removal_order (events : list RLNMemberRegistered) (s : Store) :
  (exists rest,
      batch_removals events = removals_of (trace (handler events) s) ++ rest
      /\ (result (handler events) s = Ret None -> rest = []))
  /\ (exists rest,
         rev (arrival_order (blocks_of (removed_events events)))
         = Backfill_blocks (trace (handler events) s) ++ rest
         /\ (result (handler events) s = Ret None -> rest = []))
  /\ (StronglySorted Z.le (blocks_of (removed_events events)) ->
      StronglySorted (fun a b => b < a) (Backfill_blocks (trace (handler events) s))).
Proof.
  destruct (handler_calls events s) as [[rest [Hc Hn]] _].
  assert (Hblocks :
            rev (arrival_order (blocks_of (removed_events events)))
            = Backfill_blocks (trace (handler events) s) ++ backfilled rest).
  { rewrite <- removal_groups_blocks, <- backfilled_removal_calls.
    fold (batch_removals events). rewrite Hc, backfilled_app.
    unfold removals_of. rewrite backfilled_removals. reflexivity. }
  split; [| split].
  - exists rest. split; assumption.
  - exists (backfilled rest). split; [exact Hblocks |].
    intros E. rewrite (Hn E). reflexivity.
  - intros Hsorted.
    apply (StronglySorted_prefix _ _ (backfilled rest)). rewrite <- Hblocks.
    apply StronglySorted_rev. apply arrival_order_sorted. exact Hsorted.
Qed.

(** C3, as amended.  The insertion pass walks the blocks that arrived with
    events that are not removed in their order of first arrival: its
    insertion calls are, for each such block in that order, the insertion of
    the commitments of the block's events followed by one update of the
    latest root at the block, up to the first failing call (all of them when
    the handler returns no error).  No block has its root updated twice.
    When these events arrive in nondecreasing block order, the roots are
    updated at strictly increasing blocks. *)
Theorem handler_insertion_order (events : list RLNMemberRegistered) (s : Store) :
  (exists rest,
      batch_insertions events = insertions_of (trace (handler events) s) ++ rest
      /\ (result (handler events) s = Ret None -> rest = []))
  /\ (exists rest,
         arrival_order (blocks_of (inserted_events events))
         = UpdateLatestRoot_blocks (trace (handler events) s) ++ rest
         /\ (result (handler events) s = Ret None -> rest = []))
  /\ NoDup (UpdateLatestRoot_blocks (trace (handler events) s))
  /\ (StronglySorted Z.le (blocks_of (inserted_events events)) ->
      StronglySorted Z.lt (UpdateLatestRoot_blocks (trace (handler events) s))).
Proof.
  destruct (handler_calls events s) as [_ [rest [Hc Hn]]].
  assert (Hblocks :
            arrival_order (blocks_of (inserted_events events))
            = UpdateLatestRoot_blocks (trace (handler events) s) ++ root_updated rest).
  { rewrite <- insertion_groups_blocks.
    rewrite <- (root_updated_insertion_calls _ (insertion_groups_nonempty events)).
    fold (batch_insertions events). rewrite Hc, root_updated_app.
    unfold insertions_of. rewrite root_updated_insertions. reflexivity. }
  split; [| split; [| split]].
  - exists rest. split; assumption.
  - exists (root_updated rest). split; [exact Hblocks |].
    intros E. rewrite (Hn E). reflexivity.
  - apply (NoDup_app_remove_r _ (root_updated rest)). rewrite <- Hblocks.
    apply arrival_order_NoDup.
  - intros Hsorted.
    apply (StronglySorted_prefix _ _ (root_updated rest)). rewrite <- Hblocks.
    apply arrival_order_sorted. exact Hsorted.
Qed.


(** C4.  In the trace of one run of [handler], when an insertion call (an
    insert into the tree or an update of the latest root) is made, every
    removal call of the batch (deletions and backfills) has been made
    before it, and none is made from there on. *)
Theorem handler_removals_first (events : list RLNMemberRegistered) (s : Store)
  (j : nat) (en : Entry) :
  nth_error (trace (handler events) s) j = Some en ->
  is_insertion (ecall en) = true ->
  removals_of (firstn j (trace (handler events) s)) = batch_removals events
  /\ removals_of (skipn j (trace (handler events) s)) = [].
Proof.
  intros Hnth Hins.
  destruct (handler_returns events s) as (r & _ & Hrun).
  apply handler_run_shape in Hrun.
  destruct Hrun as (before & after & Htr & Hb & Ha & [rest [Hc Hn]] & _).
  rewrite Htr in *.
  destruct (Nat.lt_ge_cases j (List.length before)) as [Hlt | Hge].
  - rewrite nth_error_app1 in Hnth by exact Hlt.
    apply nth_error_In in Hnth. rewrite Forall_forall in Hb.
    rewrite (Hb _ Hnth) in Hins. discriminate.
  - rewrite nth_error_app2 in Hnth by exact Hge.
    assert (Hafter : insertions_of after <> []).
    { intros Hnil. apply nth_error_In in Hnth.
      assert (Hin : In (ecall en) (insertions_of after)).
      { unfold insertions_of, calls. apply filter_In. split; [| exact Hins].
        apply in_map. exact Hnth. }
      rewrite Hnil in Hin. destruct Hin. }
    rewrite (Hn (or_intror Hafter)), app_nil_r in Hc.
    rewrite <- (firstn_skipn (j - List.length before) after) in Ha.
    apply Forall_app in Ha. destruct Ha as [Ha1 Ha2].
    rewrite firstn_app, skipn_app, removals_of_app, removals_of_app.
    rewrite (firstn_all2 before) by exact Hge.
    rewrite (skipn_all2 before) by exact Hge.
    rewrite (no_removals _ Ha1), (no_removals _ Ha2), app_nil_r.
    split; [symmetry; exact Hc | reflexivity].
Qed.

(** C5.  When [handler] returns no error, the watermark it leaves is the
    maximum of the watermark it found and of the blocks of the events of the
    batch that are not removed; it is not below the one it found, and it is
    the one it found when every event of the batch is removed. *)
Theorem handler_watermark (events : list RLNMemberRegistered) (s : Store) :
  result (handler events) s = Ret None ->
  lastBlockProcessed (st_gm (final (handler events) s))
  = fold_left Z.max (blocks_of (inserted_events events))
      (lastBlockProcessed (st_gm s))
  /\ lastBlockProcessed (st_gm s)
     <= lastBlockProcessed (st_gm (final (handler events) s))
  /\ (forallb Raw_Removed events = true ->
      lastBlockProcessed (st_gm (final (handler events) s))
      = lastBlockProcessed (st_gm s)).
Proof.
  intros Hres.
  destruct (handler_returns events s) as (r & Hr & Hrun).
  rewrite Hres in Hr. injection Hr as <-.
  destruct (handler_tables (lastBlockProcessed (st_gm s)) events) as (_ & _ & Hcand).
  assert (Hw : lastBlockProcessed (st_gm (final (handler events) s))
               = fold_left Z.max (blocks_of (inserted_events events))
                   (lastBlockProcessed (st_gm s))).
  { remember (st_gm (final (handler events) s)) as g' eqn:Eg'.
    remember (trace (handler events) s) as tr eqn:Etr.
    remember (@None error) as r eqn:Er.
    destruct Hrun; try discriminate.
    simpl. exact Hcand. }
  rewrite Hw. split; [reflexivity | split].
  - apply fold_left_max_ge.
  - intros Hall.
    replace (inserted_events events) with (@nil RLNMemberRegistered); [reflexivity |].
    symmetry. unfold inserted_events, is_inserted.
    clear - Hall. induction events as [| e events IH]; [reflexivity |].
    simpl in *. apply andb_true_iff in Hall. destruct Hall as [He Hall].
    rewrite He. simpl. apply IH. exact Hall.
Qed.

(** C6.  When a mutation of the tree fails during a run of [handler] (a
    deletion, an insertion or an update of the latest root returns an
    error), [handler] returns that error, the watermark is the one it found
    and the metadata are not written. *)
Theorem handler_mutation_failure (events : list RLNMemberRegistered) (s : Store)
  (c : Call) (e : error) :
  In {| ecall := c; eerr := Some e |} (trace (handler events) s) ->
  is_tree_mutation c = true ->
  result (handler events) s = Ret (Some e)
  /\ lastBlockProcessed (st_gm (final (handler events) s))
     = lastBlockProcessed (st_gm s)
  /\ (forall b o,
         ~ In {| ecall := call_SetMetadata b; eerr := o |} (trace (handler events) s)).
Proof.
  intros Hin Hmut.
  destruct (handler_returns events s) as (r & Hr & Hrun).
  rewrite Hr.
  destruct Hrun as [e0 tr_r R | e0 tr_r tr_i R I | o tr_r tr_i R I].
  - rewrite (removal_run_error _ _ _ R c e Hin).
    repeat split. intros b o.
    apply removal_kind_no_metadata. exact (removal_run_kind _ _ _ R).
  - apply in_app_or in Hin. destruct Hin as [Hin | Hin].
    + pose proof (removal_run_error _ _ _ R c e Hin). discriminate.
    + rewrite (insertion_run_error _ _ _ I c e Hin).
      repeat split. intros b o Hmeta. apply in_app_or in Hmeta.
      destruct Hmeta as [Hmeta | Hmeta].
      * exact (removal_kind_no_metadata _ _ _ (removal_run_kind _ _ _ R) Hmeta).
      * exact (insertion_kind_no_metadata _ _ _ (insertion_run_kind _ _ _ I) Hmeta).
  - exfalso. apply in_app_or in Hin. destruct Hin as [Hin | Hin].
    + pose proof (removal_run_error _ _ _ R c e Hin). discriminate.
    + apply in_app_or in Hin. destruct Hin as [Hin | Hin].
      * pose proof (insertion_run_error _ _ _ I c e Hin). discriminate.
      * destruct Hin as [Heq | [Heq | []]].
        -- injection Heq as <- _. discriminate.
        -- unfold ok in Heq. discriminate.
Qed.

(** C7.  When no mutation of the tree fails during a run of [handler] and
    the write of the metadata returns an error, [handler] returns no error,
    the watermark it leaves is the advanced one (the maximum of the
    watermark it found and of the blocks of the events that are not
    removed), which is the value it tried to write, and the failure is
    logged as a warning. *)
Theorem handler_metadata_failure (events : list RLNMemberRegistered) (s : Store)
  (b : Z) (e : error) :
  (forall c e', In {| ecall := c; eerr := Some e' |} (trace (handler events) s) ->
                is_tree_mutation c = false) ->
  In {| ecall := call_SetMetadata b; eerr := Some e |} (trace (handler events) s) ->
  result (handler events) s = Ret None
  /\ lastBlockProcessed (st_gm (final (handler events) s)) = b
  /\ b = fold_left Z.max (blocks_of (inserted_events events))
           (lastBlockProcessed (st_gm s))
  /\ In (ok (call_log Warn "failed to persist rln metadata"))
       (trace (handler events) s).
Proof.
  intros _ Hin.
  destruct (handler_returns events s) as (r & Hr & Hrun).
  destruct (handler_tables (lastBlockProcessed (st_gm s)) events) as (_ & _ & Hcand).
  rewrite Hr.
  destruct Hrun as [e0 tr_r R | e0 tr_r tr_i R I | o tr_r tr_i R I].
  - exfalso.
    exact (removal_kind_no_metadata _ _ _ (removal_run_kind _ _ _ R) Hin).
  - exfalso. apply in_app_or in Hin. destruct Hin as [Hin | Hin].
    + exact (removal_kind_no_metadata _ _ _ (removal_run_kind _ _ _ R) Hin).
    + exact (insertion_kind_no_metadata _ _ _ (insertion_run_kind _ _ _ I) Hin).
  - apply in_app_or in Hin. destruct Hin as [Hin | Hin];
      [exfalso; exact (removal_kind_no_metadata _ _ _ (removal_run_kind _ _ _ R) Hin) |].
    apply in_app_or in Hin. destruct Hin as [Hin | Hin];
      [exfalso; exact (insertion_kind_no_metadata _ _ _ (insertion_run_kind _ _ _ I) Hin) |].
    destruct Hin as [Heq | [Heq | []]]; [| unfold ok in Heq; destruct o; discriminate].
    injection Heq as Hb Ho. subst o.
    repeat split.
    + simpl. exact Hb.
    + rewrite <- Hb. exact Hcand.
    + apply in_or_app. right. apply in_or_app. right. right. left. reflexivity.
Qed.

End Reconciliation.

(** ** The start index of an insertion *)

Section StartIndex.
Context `{P : Platform} `{C : Collaborators}.





End StartIndex.

(** ** Start and Stop *)

(** Case analysis on a scrutinee that holds no other case analysis. *)
Ltac innermost_case :=
  match goal with
  | |- context [match ?x with _ => _ end] =>
      lazymatch x with
      | context [match _ with _ => _ end] => fail
      | _ => destruct x eqn:?; simpl
      end
  end.

Section LifeCycle.
Context `{P : Platform} `{C : Collaborators} `{K : @Package C}.

Lemma Start_already_started (rlnInstance : option RLN)
  (rootTracker' : option MerkleRootTracker) (s : Store) :
  cancel (st_gm s) <> None ->
  Start rlnInstance rootTracker' s = (Ret (Some "already started"%string), s, []).
Proof.
  intros Hset. unfold Start, bind, get_gm.
  destruct (cancel (st_gm s)); [reflexivity | contradiction Hset; reflexivity].
Qed.

(** Reading the keystore leaves the cancel function alone and does not
    subscribe to the events. *)
Lemma load_credentials_cancel (s : Store) :
  cancel (st_gm (final load_credentials s)) = cancel (st_gm s)
  /\ ~ In call_HandleGroupUpdates (calls (trace load_credentials s)).
Proof.
  unfold final, trace, load_credentials, bind, get_gm, call_with, modify_gm, ret, panic.
  simpl.
  repeat innermost_case;
    (split; [reflexivity | intros H; simpl in H; intuition discriminate]).
Qed.

Lemma bind_get_gm {A} (f : DynamicGroupManager -> M A) (s : Store) :
  bind get_gm f s = f (st_gm s) s.
Proof.
  unfold bind, get_gm. destruct (f (st_gm s) s) as [[r s2] t2]. reflexivity.
Qed.

Lemma settled_here {A} (m : M A) (s : Store) :
  cancel (st_gm (final m s)) <> None -> settled m s.
Proof. intros H. right. exact H. Qed.

Lemma keeps_ret {A} (a : A) : keeps_cancel (ret a).
Proof. intros s H. apply settled_here. exact H. Qed.

Lemma keeps_panic {A} : keeps_cancel (@panic _ A).
Proof. intros s H. apply settled_here. exact H. Qed.

Lemma keeps_log level msg : keeps_cancel (log level msg).
Proof. intros s H. apply settled_here. exact H. Qed.

Lemma keeps_call c f : keeps_cancel (call c f).
Proof.
  intros s H. apply settled_here. unfold final, call.
  destruct (f (st_world s)) as [e w]. exact H.
Qed.

Lemma keeps_call_with {A} c (f : World -> (A * option error) * World) :
  keeps_cancel (call_with c f).
Proof.
  intros s H. apply settled_here. unfold final, call_with.
  destruct (f (st_world s)) as [[a e] w]. exact H.
Qed.

Lemma keeps_modify_gm (f : DynamicGroupManager -> DynamicGroupManager) :
  (forall g, cancel (f g) = cancel g) -> keeps_cancel (modify_gm f).
Proof.
  intros Hf s H. apply settled_here. unfold final, modify_gm. simpl.
  rewrite Hf. exact H.
Qed.

Lemma keeps_HandleGroupUpdates : keeps_cancel HandleGroupUpdates.
Proof.
  intros s _. left. unfold trace, HandleGroupUpdates.
  destruct (gm_HandleGroupUpdates (st_gm s) (st_world s)) as [[e g] w].
  left. reflexivity.
Qed.

Lemma keeps_load_credentials : keeps_cancel load_credentials.
Proof.
  intros s H. apply settled_here.
  destruct (load_credentials_cancel s) as [E _]. rewrite E. exact H.
Qed.

Lemma keeps_bind {A B} (m : M A) (f : A -> M B) :
  keeps_cancel m -> (forall a, keeps_cancel (f a)) -> keeps_cancel (bind m f).
Proof.
  intros Hm Hf s H. specialize (Hm s H).
  unfold settled, final, trace, bind in *.
  destruct (m s) as [[[a |] s1] t1]; simpl in *.
  - destruct Hm as [Hm | Hm].
    + left. destruct (f a s1) as [[r s2] t2]. simpl.
      unfold calls in *. rewrite map_app. apply in_or_app. left. exact Hm.
    + specialize (Hf a s1 Hm). unfold settled, final, trace in Hf.
      destruct (f a s1) as [[r s2] t2]. simpl in *.
      destruct Hf as [Hf | Hf]; [left | right; exact Hf].
      unfold calls in *. rewrite map_app. apply in_or_app. right. exact Hf.
  - exact Hm.
Qed.

Lemma keeps_bind_get_gm {A} (f : DynamicGroupManager -> M A) :
  (forall g, keeps_cancel (f g)) -> keeps_cancel (bind get_gm f).
Proof.
  intros Hf s H. unfold settled, final, trace. rewrite bind_get_gm.
  exact (Hf (st_gm s) s H).
Qed.

(** The steps of a method one after the other, through its case analyses. *)
Ltac keeps_cancel_steps :=
  repeat
    match goal with
    | |- keeps_cancel (bind get_gm _) => apply keeps_bind_get_gm; intros
    | |- keeps_cancel (bind _ _) => apply keeps_bind; [| intros]
    | |- keeps_cancel (ret _) => apply keeps_ret
    | |- keeps_cancel (log _ _) => apply keeps_log
    | |- keeps_cancel (call _ _) => apply keeps_call
    | |- keeps_cancel (call_with _ _) => apply keeps_call_with
    | |- keeps_cancel (modify_gm _) => apply keeps_modify_gm; intros; reflexivity
    | |- keeps_cancel HandleGroupUpdates => apply keeps_HandleGroupUpdates
    | |- keeps_cancel load_credentials => apply keeps_load_credentials
    | |- keeps_cancel getMembershipFee => unfold getMembershipFee
    | |- keeps_cancel (match ?x with _ => _ end) => destruct x
    end.

Lemma settled_eq {A} (m m' : M A) (s : Store) :
  m s = m' s -> settled m' s -> settled m s.
Proof. unfold settled, final, trace. intros ->. exact (fun H => H). Qed.

Lemma settled_bind_call_value {A B} c (o : World -> A * World) (f : A -> M B)
  (s : Store) :
  (forall a s1, settled (f a) s1) -> settled (bind (call_value c o) f) s.
Proof.
  intros Hf. unfold settled, final, trace, bind, call_value.
  destruct (o (st_world s)) as [a w].
  specialize (Hf a {| st_gm := st_gm s; st_world := w |}).
  unfold settled, final, trace in Hf.
  destruct (f a {| st_gm := st_gm s; st_world := w |}) as [[r s2] t2].
  simpl in *. destruct Hf as [Hf | Hf]; [left; right; exact Hf | right; exact Hf].
Qed.

Lemma settled_bind_set_cancel {B} (c : CancelFunc) (f : unit -> M B) (s : Store) :
  keeps_cancel (f tt) -> settled (bind (modify_gm (set_cancel (Some c))) f) s.
Proof.
  intros Hf. unfold settled, final, trace, bind, modify_gm.
  specialize (Hf {| st_gm := set_cancel (Some c) (st_gm s); st_world := st_world s |}).
  unfold settled, final, trace in Hf.
  destruct (f tt {| st_gm := set_cancel (Some c) (st_gm s); st_world := st_world s |})
    as [[r s2] t2].
  simpl in *. apply Hf. discriminate.
Qed.

(** A call of [Start] on a manager that has no cancel function leaves it
    with one, unless it went as far as subscribing to the events. *)
Lemma Start_settles (rlnInstance : option RLN)
  (rootTracker' : option MerkleRootTracker) (s : Store) :
  cancel (st_gm s) = None -> settled (Start rlnInstance rootTracker') s.
Proof.
  intros Hnil.
  eapply settled_eq.
  { unfold Start. rewrite bind_get_gm, Hnil. cbn [negb is_nil]. reflexivity. }
  apply settled_bind_call_value. intros c s1.
  apply settled_bind_set_cancel.
  keeps_cancel_steps.
Qed.

(** A manager that holds a cancel function differs from one that holds
    none. *)
Lemma cancel_differs (g g' : DynamicGroupManager) :
  cancel g = None -> cancel g' <> None -> g' <> g.
Proof. intros Hg Hg' E. apply Hg'. rewrite E. exact Hg. Qed.

(** A [Start] that returns an error before it subscribes to the events leaves
    the cancel function set, so that every later [Start] is rejected. *)
Lemma Start_error_cancel (rlnInstance : option RLN)
  (rootTracker' : option MerkleRootTracker) (s : Store) (e : error) :
  result (Start rlnInstance rootTracker') s = Ret (Some e) ->
  (cancel (st_gm s) <> None ->
   e = "already started"%string
   /\ final (Start rlnInstance rootTracker') s = s
   /\ trace (Start rlnInstance rootTracker') s = [])
  /\ (cancel (st_gm s) = None ->
      ~ In call_HandleGroupUpdates (calls (trace (Start rlnInstance rootTracker') s)) ->
      cancel (st_gm (final (Start rlnInstance rootTracker') s)) <> None
      /\ st_gm (final (Start rlnInstance rootTracker') s) <> st_gm s
      /\ forall rlnInstance2 rootTracker2 w,
          Start rlnInstance2 rootTracker2
            {| st_gm := st_gm (final (Start rlnInstance rootTracker') s);
               st_world := w |}
          = (Ret (Some "already started"%string),
             {| st_gm := st_gm (final (Start rlnInstance rootTracker') s);
                st_world := w |},
             [])).
Proof.
  intros Hres. split.
  - intros Hset. unfold result, final, trace in *.
    rewrite (Start_already_started _ _ _ Hset) in *. simpl in *.
    injection Hres as <-. repeat split.
  - intros Hnil Hno.
    assert (Hset : cancel (st_gm (final (Start rlnInstance rootTracker') s)) <> None).
    { destruct (Start_settles rlnInstance rootTracker' s Hnil) as [H | H];
        [contradiction | exact H]. }
    split; [exact Hset | split].
    + apply cancel_differs; assumption.
    + intros a b w. apply Start_already_started. exact Hset.
Qed.

(** *** Stop *)

(** When the flush fails, [Stop] has cancelled the context and returns the
    error of the flush at once: the client is not closed and the wait group
    is not waited for. *)
Lemma Stop_flush_error (s : Store) (c : CancelFunc) (e : error) :
  cancel (st_gm s) = Some c ->
  fst (rln_Flush (rln (st_gm s)) (run_cancel c (st_world s))) = Some e ->
  result Stop s = Ret (Some e)
  /\ trace Stop s = [ok call_cancel; failed call_Flush e].
Proof.
  intros Hc Hf. unfold result, trace, Stop. rewrite bind_get_gm, Hc.
  unfold bind, call_void, call. simpl.
  destruct (rln_Flush (rln (st_gm s)) (run_cancel c (st_world s))) as [o w].
  simpl in Hf. subst o. split; reflexivity.
Qed.

(** The run of [Stop] when the flush succeeds, for comparison: on a manager
    that holds a client, the client is closed and the wait group waited for;
    on a manager that holds none, [Stop] panics once the flush is done. *)
Lemma Stop_flush_ok (s : Store) (c : CancelFunc) :
  cancel (st_gm s) = Some c ->
  fst (rln_Flush (rln (st_gm s)) (run_cancel c (st_world s))) = None ->
  (ethClient (st_gm s) <> None ->
   result Stop s = Ret None
   /\ trace Stop s = [ok call_cancel; ok call_Flush; ok call_Close; ok call_Wait])
  /\ (ethClient (st_gm s) = None ->
      result Stop s = Panic
      /\ trace Stop s = [ok call_cancel; ok call_Flush]).
Proof.
  intros Hc Hf. unfold result, trace, Stop. rewrite bind_get_gm, Hc.
  unfold bind, call_void, call, panic. simpl.
  destruct (rln_Flush (rln (st_gm s)) (run_cancel c (st_world s))) as [o w].
  simpl in Hf. subst o.
  destruct (ethClient (st_gm s)); split; intros H;
    try (split; reflexivity); try discriminate; contradiction H; reflexivity.
Qed.

End LifeCycle.

(** * Runs in the scripted world *)

Module Runs.
Import Script.
#[local] Existing Instance Platform64.
#[local] Existing Instance collaborators.
#[local] Existing Instance package.
Local Open Scope string_scope.



(** C2, as stated, fails.  The removals arrive for the blocks 110, 100 and
    105: the backfills are made at 105, 100 and 110, which is not a decreasing
    order. *)
Lemma handler_backfill_not_decreasing :
  Backfill_blocks (trace (handler removals_110_100_105) (store [])) = [105; 100; 110]
  /\ ~ StronglySorted (fun a b => b < a)
         (Backfill_blocks (trace (handler removals_110_100_105) (store []))).
Proof.
  split; [reflexivity |].
  change (Backfill_blocks (trace (handler removals_110_100_105) (store [])))
    with [105; 100; 110].
  intros H. inversion H as [| ? ? _ Hall]; subst.
  inversion Hall as [| ? ? _ Hall']; subst.
  inversion Hall' as [| ? ? Hlt _]; subst. lia.
Qed.

(** The removals arrive for the blocks 100, 105 and 110: the backfills are
    made at 110, 105 and 100. *)
Lemma handler_removal_order_witness :
  StronglySorted Z.le (blocks_of (removed_events removals_100_105_110))
  /\ Backfill_blocks (trace (handler removals_100_105_110) (store [])) = [110; 105; 100]
  /\ StronglySorted (fun a b => b < a)
       (Backfill_blocks (trace (handler removals_100_105_110) (store []))).
Proof.
  assert (Hs : StronglySorted Z.le (blocks_of (removed_events removals_100_105_110))).
  { repeat constructor; discriminate. }
  split; [exact Hs | split; [reflexivity |]].
  exact (proj2 (proj2 (handler_removal_order removals_100_105_110 (store []))) Hs).
Defined.

(** C3, as stated, fails.  The insertions arrive for the blocks 110, 100 and
    105: the latest root is updated at 110, 100 and 105, which is not an
    increasing order. *)
Lemma handler_root_updates_not_increasing :
  UpdateLatestRoot_blocks (trace (handler insertions_110_100_105) (store []))
  = [110; 100; 105]
  /\ ~ StronglySorted Z.lt
         (UpdateLatestRoot_blocks (trace (handler insertions_110_100_105) (store []))).
Proof.
  split; [reflexivity |].
  change (UpdateLatestRoot_blocks (trace (handler insertions_110_100_105) (store [])))
    with [110; 100; 105].
  intros H. inversion H as [| ? ? _ Hall]; subst.
  inversion Hall as [| ? ? Hlt _]; subst. lia.
Qed.

(** The insertions arrive for the blocks 100, 105 and 110: the latest root is
    updated at 100, 105 and 110. *)
Lemma handler_insertion_order_witness :
  StronglySorted Z.le (blocks_of (inserted_events insertions_100_105_110))
  /\ UpdateLatestRoot_blocks (trace (handler insertions_100_105_110) (store []))
     = [100; 105; 110]
  /\ StronglySorted Z.lt
       (UpdateLatestRoot_blocks (trace (handler insertions_100_105_110) (store []))).
Proof.
  assert (Hs : StronglySorted Z.le (blocks_of (inserted_events insertions_100_105_110))).
  { repeat constructor; discriminate. }
  split; [exact Hs | split; [reflexivity |]].
  exact (proj2 (proj2 (proj2
           (handler_insertion_order insertions_100_105_110 (store [])))) Hs).
Defined.

(** A removal at block 100 and an insertion at block 110: when the insert
    call is made, third in the trace, the deletion and the backfill are
    done. *)
Lemma handler_removals_first_witness :
  nth_error (trace (handler mixed_batch) (store [])) 2
  = Some (ok (call_InsertMembers 1 [1]))
  /\ removals_of (firstn 2 (trace (handler mixed_batch) (store [])))
     = [call_DeleteMembers [4]; call_Backfill 100]
  /\ removals_of (firstn 2 (trace (handler mixed_batch) (store [])))
     = batch_removals mixed_batch
  /\ removals_of (skipn 2 (trace (handler mixed_batch) (store []))) = [].
Proof.
  split; [reflexivity | split; [reflexivity |]].
  apply (handler_removals_first mixed_batch (store []) 2
           (@ok collaborators (@call_InsertMembers collaborators 1 [1])));
    reflexivity.
Defined.

(** The same batch on a manager whose watermark is 0: the watermark becomes
    110. *)
Lemma handler_watermark_witness :
  result (handler mixed_batch) (store []) = Ret None
  /\ lastBlockProcessed (st_gm (final (handler mixed_batch) (store []))) = 110
  /\ lastBlockProcessed (st_gm (final (handler mixed_batch) (store [])))
     = fold_left Z.max (blocks_of (inserted_events mixed_batch))
         (lastBlockProcessed (st_gm (store [])))
  /\ lastBlockProcessed (st_gm (store []))
     <= lastBlockProcessed (st_gm (final (handler mixed_batch) (store [])))
  /\ (forallb Raw_Removed mixed_batch = true ->
      lastBlockProcessed (st_gm (final (handler mixed_batch) (store [])))
      = lastBlockProcessed (st_gm (store []))).
Proof.
  split; [reflexivity | split; [reflexivity |]].
  apply (handler_watermark mixed_batch (store [])). reflexivity.
Defined.

(** The same batch when the insertion into the tree fails: the handler
    returns the error of the tree, the watermark stays at 0 and no metadata
    are written. *)
Lemma handler_mutation_failure_witness :
  In (failed (call_InsertMembers 1 [1]) "tree unavailable")
    (trace (handler mixed_batch) (store [None; Some "tree unavailable"]))
  /\ result (handler mixed_batch) (store [None; Some "tree unavailable"])
     = Ret (Some "tree unavailable")
  /\ lastBlockProcessed
       (st_gm (final (handler mixed_batch) (store [None; Some "tree unavailable"])))
     = lastBlockProcessed (st_gm (store [None; Some "tree unavailable"]))
  /\ (forall b o,
         ~ In {| ecall := call_SetMetadata b; eerr := o |}
             (trace (handler mixed_batch) (store [None; Some "tree unavailable"]))).
Proof.
  assert (Hin : In (failed (call_InsertMembers 1 [1]) "tree unavailable")
                  (trace (handler mixed_batch) (store [None; Some "tree unavailable"]))).
  { right. right. left. reflexivity. }
  split; [exact Hin |].
  exact (handler_mutation_failure mixed_batch (store [None; Some "tree unavailable"])
           (@call_InsertMembers collaborators 1 [1]) "tree unavailable" Hin eq_refl).
Defined.

(** The same batch when the tree accepts everything and the write of the
    metadata fails: the handler returns no error and the watermark is 110. *)
Lemma handler_metadata_failure_witness :
  In (failed (call_SetMetadata 110) "disk full")
    (trace (handler mixed_batch) (store [None; None; None; Some "disk full"]))
  /\ result (handler mixed_batch) (store [None; None; None; Some "disk full"])
     = Ret None
  /\ lastBlockProcessed
       (st_gm (final (handler mixed_batch) (store [None; None; None; Some "disk full"])))
     = 110
  /\ 110 = fold_left Z.max (blocks_of (inserted_events mixed_batch))
             (lastBlockProcessed (st_gm (store [None; None; None; Some "disk full"])))
  /\ In (ok (call_log Warn "failed to persist rln metadata"))
       (trace (handler mixed_batch) (store [None; None; None; Some "disk full"])).
Proof.
  assert (Hin : In (failed (call_SetMetadata 110) "disk full")
                  (trace (handler mixed_batch)
                     (store [None; None; None; Some "disk full"]))).
  { do 4 right. left. reflexivity. }
  split; [exact Hin |].
  apply (handler_metadata_failure mixed_batch
           (store [None; None; None; Some "disk full"]) 110 "disk full");
    [| exact Hin].
  intros c e' H.
  repeat (destruct H as [H | H]; [try discriminate H |]).
  - injection H as <- _. reflexivity.
  - destruct H.
Defined.

(** C8, as stated, fails.  The dial fails in the first call of [Start]: the
    call returns the error of the dial and leaves the cancel function set, and
    a second call, in a world where every step would succeed, is rejected as
    already started. *)
Lemma Start_failure_blocks_retry :
  result (Start (Some tt) (Some tt)) (store [Some "dial failed"])
  = Ret (Some "dial failed")
  /\ cancel (st_gm (store [Some "dial failed"])) = None
  /\ cancel (st_gm (final (Start (Some tt) (Some tt)) (store [Some "dial failed"])))
     = Some tt
  /\ result (Start (Some tt) (Some tt))
       {| st_gm := st_gm (final (Start (Some tt) (Some tt)) (store [Some "dial failed"]));
          st_world := {| script := []; keystore := one_credential |} |}
     = Ret (Some "already started").
Proof. repeat split. Qed.

(** C9: the code at the failing input.  [Start] succeeds; then [Stop] runs in
    a world where the flush fails: it cancels the context, flushes, and
    returns the error of the flush without closing the client and without
    waiting for the background task.  When the flush succeeds, both are
    done. *)
Theorem Stop_flush_failure_skips_cleanup :
  result (Start (Some tt) (Some tt)) (store []) = Ret None
  /\ result Stop (started_store [Some "flush failed"]) = Ret (Some "flush failed")
  /\ calls (trace Stop (started_store [Some "flush failed"]))
     = [call_cancel; call_Flush]
  /\ ~ In call_Close (calls (trace Stop (started_store [Some "flush failed"])))
  /\ ~ In call_Wait (calls (trace Stop (started_store [Some "flush failed"])))
  /\ calls (trace Stop (started_store []))
     = [call_cancel; call_Flush; call_Close; call_Wait].
Proof.
  repeat split; intros [H | [H | []]]; discriminate.
Qed.



End Runs.

(** * More of the manager *)

(** ** Outcomes of the methods, step by step *)

Section Steps.
Context `{C : Collaborators}.

Lemma post_ret {A} (a : A) s (Q : Result A -> Store -> list Entry -> Prop) :
  Q (Ret a) s [] -> post (ret a) s Q.
Proof. exact (fun H => H). Qed.

Lemma post_panic {A} s (Q : Result A -> Store -> list Entry -> Prop) :
  Q Panic s [] -> post panic s Q.
Proof. exact (fun H => H). Qed.

Lemma post_get_gm s (Q : Result DynamicGroupManager -> Store -> list Entry -> Prop) :
  Q (Ret (st_gm s)) s [] -> post get_gm s Q.
Proof. exact (fun H => H). Qed.

Lemma post_modify_gm f s (Q : Result unit -> Store -> list Entry -> Prop) :
  Q (Ret tt) {| st_gm := f (st_gm s); st_world := st_world s |} [] ->
  post (modify_gm f) s Q.
Proof. exact (fun H => H). Qed.

Lemma post_log level msg s (Q : Result unit -> Store -> list Entry -> Prop) :
  Q (Ret tt) s [ok (call_log level msg)] -> post (log level msg) s Q.
Proof. exact (fun H => H). Qed.

Lemma post_call c f s (Q : Result (option error) -> Store -> list Entry -> Prop) :
  (forall e w, f (st_world s) = (e, w) ->
               Q (Ret e) {| st_gm := st_gm s; st_world := w |}
                 [{| ecall := c; eerr := e |}]) ->
  post (call c f) s Q.
Proof.
  intros H. unfold post, result, final, trace, call.
  destruct (f (st_world s)) as [e w] eqn:E. exact (H e w eq_refl).
Qed.

Lemma post_call_with {A} c (f : World -> (A * option error) * World) s
  (Q : Result (A * option error) -> Store -> list Entry -> Prop) :
  (forall a e w, f (st_world s) = ((a, e), w) ->
                 Q (Ret (a, e)) {| st_gm := st_gm s; st_world := w |}
                   [{| ecall := c; eerr := e |}]) ->
  post (call_with c f) s Q.
Proof.
  intros H. unfold post, result, final, trace, call_with.
  destruct (f (st_world s)) as [[a e] w] eqn:E. exact (H a e w eq_refl).
Qed.

Lemma post_call_value {A} c (f : World -> A * World) s
  (Q : Result A -> Store -> list Entry -> Prop) :
  (forall a w, f (st_world s) = (a, w) ->
               Q (Ret a) {| st_gm := st_gm s; st_world := w |} [ok c]) ->
  post (call_value c f) s Q.
Proof.
  intros H. unfold post, result, final, trace, call_value.
  destruct (f (st_world s)) as [a w] eqn:E. exact (H a w eq_refl).
Qed.

Lemma post_call_void c f s (Q : Result unit -> Store -> list Entry -> Prop) :
  Q (Ret tt) {| st_gm := st_gm s; st_world := f (st_world s) |} [ok c] ->
  post (call_void c f) s Q.
Proof. exact (fun H => H). Qed.

Lemma post_bind {A B} (m : M A) (f : A -> M B) s
  (Q : Result B -> Store -> list Entry -> Prop) :
  post m s (fun r s1 t1 =>
              match r with
              | Ret a => post (f a) s1 (fun r2 s2 t2 => Q r2 s2 (t1 ++ t2))
              | Panic => Q Panic s1 t1
              end) ->
  post (bind m f) s Q.
Proof.
  unfold post, result, final, trace, bind.
  destruct (m s) as [[[a |] s1] t1]; simpl; [| exact (fun H => H)].
  destruct (f a s1) as [[r2 s2] t2]. simpl. exact (fun H => H).
Qed.

Lemma post_HandleGroupUpdates `{K : @Package C} s
  (Q : Result (option error) -> Store -> list Entry -> Prop) :
  (forall e g w, gm_HandleGroupUpdates (st_gm s) (st_world s) = ((e, g), w) ->
                 Q (Ret e) {| st_gm := g; st_world := w |}
                   [{| ecall := call_HandleGroupUpdates; eerr := e |}]) ->
  post HandleGroupUpdates s Q.
Proof.
  intros H. unfold post, result, final, trace, HandleGroupUpdates.
  destruct (gm_HandleGroupUpdates (st_gm s) (st_world s)) as [[e g] w] eqn:E.
  exact (H e g w eq_refl).
Qed.

Lemma post_weaken {A} (m : M A) s (Q Q' : Result A -> Store -> list Entry -> Prop) :
  (forall r s' t, Q r s' t -> Q' r s' t) -> post m s Q -> post m s Q'.
Proof. intros H. unfold post. apply H. Qed.

End Steps.

(** One step of a method. *)
Ltac method_step :=
  lazymatch goal with
  | |- post (bind _ _) _ _ => apply post_bind
  | |- post (ret _) _ _ => apply post_ret
  | |- post panic _ _ => apply post_panic
  | |- post get_gm _ _ => apply post_get_gm
  | |- post (modify_gm _) _ _ => apply post_modify_gm
  | |- post (log _ _) _ _ => apply post_log
  | |- post (call _ _) _ _ => apply post_call; intros ? ? ?
  | |- post (call_with _ _) _ _ => apply post_call_with; intros ? ? ? ?
  | |- post (call_value _ _) _ _ => apply post_call_value; intros ? ? ?
  | |- post (call_void _ _) _ _ => apply post_call_void
  | |- post HandleGroupUpdates _ _ => apply post_HandleGroupUpdates; intros ? ? ? ?
  | |- post getMembershipFee _ _ => unfold getMembershipFee
  | |- post (match ?x with _ => _ end) _ _ => destruct x eqn:?
  end;
  lazy beta iota; cbn [st_gm st_world].

Ltac method_steps := repeat method_step.

(** ** Start, step by step *)

Section StartSteps.
Context `{P : Platform} `{C : Collaborators} `{K : @Package C}.

(** When [Start] returns no error, it has made these calls, in this order and
    all without error: the context, the dial, the chain identifier, the
    binding of the contract, the probe of the contract, the keystore (only
    when the manager had no credential and has a path and a password), and
    the subscription to the events last.  A manager without a credential is
    never started without reading the keystore. *)
Theorem Start_success_steps (rlnInstance : option RLN)
  (rootTracker' : option MerkleRootTracker) (s : Store) :
  result (Start rlnInstance rootTracker') s = Ret None ->
  cancel (st_gm s) = None
  /\ exists keystore_calls,
      calls (trace (Start rlnInstance rootTracker') s)
      = [call_WithCancel;
         call_log Info "mounting rln-relay in on-chain/dynamic mode";
         call_Dial (ethClientAddress (st_gm s)); call_ChainID; call_NewRLN;
         call_MEMBERSHIPDEPOSIT]
        ++ keystore_calls ++ [call_HandleGroupUpdates]
      /\ (keystore_calls = [] \/ keystore_calls = [call_GetMembershipCredentials])
      /\ (identityCredential (st_gm s) = None ->
          keystore_calls = [call_GetMembershipCredentials])
      /\ Forall (fun en => eerr en = None) (trace (Start rlnInstance rootTracker') s).
Proof.
  change (post (Start rlnInstance rootTracker') s
            (fun r _ t =>
               r = Ret None ->
               cancel (st_gm s) = None
               /\ exists keystore_calls,
                   calls t
                   = [call_WithCancel;
                      call_log Info "mounting rln-relay in on-chain/dynamic mode";
                      call_Dial (ethClientAddress (st_gm s)); call_ChainID;
                      call_NewRLN; call_MEMBERSHIPDEPOSIT]
                     ++ keystore_calls ++ [call_HandleGroupUpdates]
                   /\ (keystore_calls = [] \/ keystore_calls = [call_GetMembershipCredentials])
                   /\ (identityCredential (st_gm s) = None ->
                       keystore_calls = [call_GetMembershipCredentials])
                   /\ Forall (fun en => eerr en = None) t)).
  unfold Start. method_steps.
  all: try (unfold load_credentials; method_steps).
  all: try (intros; discriminate).
  all: intros _;
    (split; [destruct (cancel (st_gm s)); [discriminate | reflexivity] |]).
  all: first
         [ exists [call_GetMembershipCredentials];
           split; [reflexivity |];
           split; [right; reflexivity |];
           split; [reflexivity | repeat constructor]
         | exists [];
           split; [reflexivity |];
           split; [left; reflexivity |];
           split; [| repeat constructor];
           intros Hnil; exfalso; simpl in *; rewrite Hnil in *; discriminate ].
Qed.

(** The goal as the outcome of a run. *)
Ltac as_post m s :=
  pattern (result m s), (final m s), (trace m s);
  match goal with
  | |- ?F _ _ _ => change (post m s F)
  end.

(** The answers of the collaborators, read through the equations of the
    calls of the run. *)
Ltac through_answers :=
  unfold after_NewRLN, after_ChainID, after_WithCancel,
    answer_GetMembershipCredentials, answer_MEMBERSHIPDEPOSIT, answer_NewRLN,
    answer_ChainID, answer_Dial, answer_WithCancel in *;
  cbn [keystorePath keystorePassword chainId membershipContractAddress
       ethClientAddress rlnContract keystoreIndex membershipGroupIndex
       identityCredential membershipIndex cancel
       set_cancel set_ethClient set_rln set_rootTracker set_chainId
       set_rlnContract set_identityCredential set_membershipIndex
       st_gm st_world] in *;
  repeat match goal with
         | H : _ = (_, _) |- _ => progress (rewrite H in * ); cbn [fst snd] in *
         end.

Ltac compare_to_Prop :=
  repeat match goal with
         | H : (_ <=? _) = true |- _ => apply Z.leb_le in H
         | H : (_ <=? _) = false |- _ => apply Z.leb_gt in H
         | H : (_ =? _) = true |- _ => apply Z.eqb_eq in H
         | H : (_ =? _) = false |- _ => apply Z.eqb_neq in H
         | H : negb _ = true |- _ => apply negb_true_iff in H
         | H : negb _ = false |- _ => apply negb_false_iff in H
         end.

(** A keystore index beyond the credentials of the keystore.  When [Start]
    reads the keystore, and the keystore answers that call with credentials,
    fewer than the keystore index asks for, [Start] returns the error of an
    invalid keystore index, leaves the manager without credential and does
    not subscribe to the events. *)
Theorem Start_invalid_keystore_index (rlnInstance : option RLN)
  (rootTracker' : option MerkleRootTracker) (s : Store)
  (credentials : list (MembershipCredentials IdentityCredential)) :
  In call_GetMembershipCredentials (calls (trace (Start rlnInstance rootTracker') s)) ->
  fst (answer_GetMembershipCredentials s) = (credentials, None) ->
  credentials <> [] ->
  Z.of_nat (List.length credentials) - 1 < int (keystoreIndex (st_gm s)) ->
  result (Start rlnInstance rootTracker') s = Ret (Some "invalid keystore index"%string)
  /\ identityCredential (st_gm (final (Start rlnInstance rootTracker') s)) = None
  /\ ~ In call_HandleGroupUpdates (calls (trace (Start rlnInstance rootTracker') s)).
Proof.
  intros Hin Hks Hne Hidx. revert Hin.
  as_post (Start rlnInstance rootTracker') s.
  unfold Start. method_steps.
  all: try (unfold load_credentials; method_steps).
  all: try solve [intros Hin; simpl in Hin; exfalso; intuition discriminate].
  all: through_answers; apply pair_equal_spec in Hks; destruct Hks as [? ?];
    subst; try congruence.
  all: compare_to_Prop; simpl in *.
  all: try (destruct credentials; [contradiction Hne; reflexivity | discriminate]).
  all: try lia.
  all: intros _; split; [reflexivity | split; [assumption |]].
  all: intros Hin; simpl in Hin; intuition discriminate.
Qed.

(** A group index beyond the groups of the chosen credential.  When [Start]
    reads the keystore, and the credential that the keystore answers that
    call with at the keystore index belongs to fewer groups than the group
    index asks for, [Start] returns the error of an invalid membership group
    index and does not subscribe to the events; the identity credential of
    that entry has been assigned all the same. *)
Theorem Start_invalid_group_index (rlnInstance : option RLN)
  (rootTracker' : option MerkleRootTracker) (s : Store)
  (credentials : list (MembershipCredentials IdentityCredential))
  (credential : MembershipCredentials IdentityCredential) :
  In call_GetMembershipCredentials (calls (trace (Start rlnInstance rootTracker') s)) ->
  fst (answer_GetMembershipCredentials s) = (credentials, None) ->
  int (keystoreIndex (st_gm s)) <= Z.of_nat (List.length credentials) - 1 ->
  nth_error credentials (Z.to_nat (keystoreIndex (st_gm s))) = Some credential ->
  Z.of_nat (List.length (MembershipGroups credential)) - 1
  < int (membershipGroupIndex (st_gm s)) ->
  result (Start rlnInstance rootTracker') s
  = Ret (Some "invalid membership group index"%string)
  /\ identityCredential (st_gm (final (Start rlnInstance rootTracker') s))
     = credential_IdentityCredential credential
  /\ ~ In call_HandleGroupUpdates (calls (trace (Start rlnInstance rootTracker') s)).
Proof.
  intros Hin Hks Hidx Hnth Hgroup. revert Hin.
  as_post (Start rlnInstance rootTracker') s.
  unfold Start. method_steps.
  all: try (unfold load_credentials; method_steps).
  all: try solve [intros Hin; simpl in Hin; exfalso; intuition discriminate].
  all: through_answers; apply pair_equal_spec in Hks; destruct Hks as [? ?];
    subst; try congruence.
  all: compare_to_Prop; simpl in *.
  all: try (destruct credentials; [destruct (Z.to_nat _) in Hnth; discriminate | discriminate]).
  all: try lia.
  all: try congruence.
  all: match goal with
       | H : nth_error _ _ = Some ?c |- _ =>
           rewrite Hnth in H; injection H as <-
       end.
  all: try lia.
  all: intros _; split; [reflexivity | split; [reflexivity |]].
  all: intros Hin; simpl in Hin; intuition discriminate.
Qed.

Lemma int_of_large (z : Z) :
  2 ^ (uint_bits - 1) <= z < 2 ^ uint_bits -> int z = z - 2 ^ uint_bits.
Proof.
  unfold int. destruct uint_bits_spec as [E | E]; rewrite E; simpl Z.sub;
    change (2 ^ 64) with 18446744073709551616;
    change (2 ^ 63) with 9223372036854775808;
    change (2 ^ 32) with 4294967296;
    change (2 ^ 31) with 2147483648;
    intros H; Z.div_mod_to_equations; lia.
Qed.

(** A keystore index in the upper half of [uint].  Converted to [int] for the
    comparison with the number of credentials it is negative, so the
    comparison lets it through, and the indexing of the credentials is out of
    range: when [Start] reads the keystore, and the keystore answers that
    call with credentials, [Start] panics. *)
Theorem Start_keystore_index_panic (rlnInstance : option RLN)
  (rootTracker' : option MerkleRootTracker) (s : Store)
  (credentials : list (MembershipCredentials IdentityCredential)) :
  In call_GetMembershipCredentials (calls (trace (Start rlnInstance rootTracker') s)) ->
  fst (answer_GetMembershipCredentials s) = (credentials, None) ->
  credentials <> [] ->
  Z.of_nat (List.length credentials) <= 2 ^ (uint_bits - 1) ->
  2 ^ (uint_bits - 1) <= keystoreIndex (st_gm s) < 2 ^ uint_bits ->
  result (Start rlnInstance rootTracker') s = Panic.
Proof.
  intros Hin Hks Hne Hlen Hidx. revert Hin.
  assert (Hint : int (keystoreIndex (st_gm s)) < 0).
  { rewrite (int_of_large _ Hidx). lia. }
  assert (Hnth : nth_error credentials (Z.to_nat (keystoreIndex (st_gm s))) = None).
  { apply nth_error_None. lia. }
  as_post (Start rlnInstance rootTracker') s.
  unfold Start. method_steps.
  all: try (unfold load_credentials; method_steps).
  all: try solve [intros Hin; simpl in Hin; exfalso; intuition discriminate].
  all: through_answers; apply pair_equal_spec in Hks; destruct Hks as [? ?];
    subst; try congruence.
  all: compare_to_Prop; simpl in *.
  all: try (destruct credentials; [contradiction Hne; reflexivity | discriminate]).
  all: try lia.
  all: try congruence.
  all: intros _; reflexivity.
Qed.

(** [Start] releases nothing: in no run does it cancel the context it made,
    flush the tree, close the client or wait for the background task.  A
    client that was dialled stays open when a later step fails. *)
Theorem Start_never_releases (rlnInstance : option RLN)
  (rootTracker' : option MerkleRootTracker) :
  only_calls (fun c => negb (is_release c)) (Start rlnInstance rootTracker').
Proof.
  intros s.
  change (post (Start rlnInstance rootTracker') s
            (fun _ _ t => Forall (fun en => negb (is_release (ecall en)) = true) t)).
  unfold Start. method_steps.
  all: try (unfold load_credentials; method_steps).
  all: repeat (apply Forall_app; split); repeat constructor.
Qed.

(** The accessors around [Start].  On a manager as the constructor returns
    it, [IdentityCredentials] and [MembershipIndex] return their error.  After
    a [Start] that returned no error they return none and give the credential
    and the index the manager holds, provided the subscription to the events
    leaves these two fields alone. *)
Theorem accessors_after_Start (zero_credential : IdentityCredential)
  (default_path default_password : string)
  (rlnInstance : option RLN) (rootTracker' : option MerkleRootTracker) (s : Store) :
  (forall addr contract group path password index save,
      let gm := fst (fst (NewDynamicGroupManager default_path default_password
                            addr contract group path password index save)) in
      snd (IdentityCredentials zero_credential gm)
      = Some "identity credential has not been setup"%string
      /\ MembershipIndex gm = (0, Some "membership index has not been setup"%string))
  /\ ((forall g w,
          identityCredential (snd (fst (gm_HandleGroupUpdates g w))) = identityCredential g
          /\ membershipIndex (snd (fst (gm_HandleGroupUpdates g w))) = membershipIndex g) ->
      result (Start rlnInstance rootTracker') s = Ret None ->
      exists credential index,
        identityCredential (st_gm (final (Start rlnInstance rootTracker') s))
        = Some credential
        /\ membershipIndex (st_gm (final (Start rlnInstance rootTracker') s))
           = Some index
        /\ IdentityCredentials zero_credential
             (st_gm (final (Start rlnInstance rootTracker') s))
           = (credential, None)
        /\ MembershipIndex (st_gm (final (Start rlnInstance rootTracker') s))
           = (index, None)).
Proof.
  split.
  - intros addr contract group path password index save.
    unfold NewDynamicGroupManager.
    destruct (is_empty path), (is_empty password); split; reflexivity.
  - intros Hhgu.
    change (post (Start rlnInstance rootTracker') s
              (fun r s' _ =>
                 r = Ret None ->
                 exists credential index,
                   identityCredential (st_gm s') = Some credential
                   /\ membershipIndex (st_gm s') = Some index
                   /\ IdentityCredentials zero_credential (st_gm s') = (credential, None)
                   /\ MembershipIndex (st_gm s') = (index, None))).
    unfold Start. method_steps.
    all: try (unfold load_credentials; method_steps).
    all: try (intros; discriminate).
    all: intros _;
      match goal with
      | H : gm_HandleGroupUpdates ?g0 ?w0 = (_, ?g, _) |- _ =>
          destruct (Hhgu g0 w0) as [Hc Hi]; rewrite H in Hc, Hi; simpl in Hc, Hi;
          unfold IdentityCredentials, MembershipIndex; rewrite Hc, Hi
      end;
      cbn [identityCredential membershipIndex set_rlnContract set_chainId
             set_rootTracker set_rln set_ethClient set_cancel
             set_identityCredential set_membershipIndex] in *;
      match goal with
      | H : is_nil ?c || is_nil ?i = false |- _ =>
          destruct c as [credential |] eqn:Ec; [| discriminate H];
          destruct i as [index |] eqn:Ei; [| discriminate H];
          exists credential, index; rewrite ?Ec, ?Ei; repeat split;
          try (injection Ei as <-; reflexivity)
      end.
Qed.

(** The manager a failed [Start] leaves, field by field. *)
Lemma Start_error_state (rlnInstance : option RLN)
  (rootTracker' : option MerkleRootTracker) (s : Store) (e : error) :
  cancel (st_gm s) = None ->
  result (Start rlnInstance rootTracker') s = Ret (Some e) ->
  ~ In call_HandleGroupUpdates (calls (trace (Start rlnInstance rootTracker') s)) ->
  cancel (st_gm (final (Start rlnInstance rootTracker') s))
  = Some (fst (answer_WithCancel s))
  /\ (snd (fst (answer_Dial s)) <> None ->
      st_gm (final (Start rlnInstance rootTracker') s) = after_WithCancel s)
  /\ (snd (fst (answer_Dial s)) = None ->
      snd (fst (answer_ChainID s)) <> None ->
      st_gm (final (Start rlnInstance rootTracker') s)
      = after_ChainID rlnInstance rootTracker' s)
  /\ (snd (fst (answer_Dial s)) = None ->
      snd (fst (answer_ChainID s)) = None ->
      set_membershipIndex
        (membershipIndex (st_gm (final (Start rlnInstance rootTracker') s)))
        (set_identityCredential
           (identityCredential (st_gm (final (Start rlnInstance rootTracker') s)))
           (after_NewRLN rlnInstance rootTracker' s))
      = st_gm (final (Start rlnInstance rootTracker') s)
      /\ (~ In call_GetMembershipCredentials
              (calls (trace (Start rlnInstance rootTracker') s)) ->
          st_gm (final (Start rlnInstance rootTracker') s)
          = after_NewRLN rlnInstance rootTracker' s)
      /\ (In call_GetMembershipCredentials
             (calls (trace (Start rlnInstance rootTracker') s)) ->
          forall credentials err,
            fst (answer_GetMembershipCredentials s) = (credentials, err) ->
            (err <> None \/ credentials = []
             \/ Z.of_nat (List.length credentials) - 1 < int (keystoreIndex (st_gm s)) ->
             st_gm (final (Start rlnInstance rootTracker') s)
             = after_NewRLN rlnInstance rootTracker' s)
            /\ forall credential,
                err = None ->
                int (keystoreIndex (st_gm s)) <= Z.of_nat (List.length credentials) - 1 ->
                nth_error credentials (Z.to_nat (keystoreIndex (st_gm s)))
                = Some credential ->
                identityCredential (st_gm (final (Start rlnInstance rootTracker') s))
                = credential_IdentityCredential credential
                /\ (Z.of_nat (List.length (MembershipGroups credential)) - 1
                    < int (membershipGroupIndex (st_gm s)) ->
                    membershipIndex (st_gm (final (Start rlnInstance rootTracker') s))
                    = membershipIndex (st_gm s))
                /\ forall group,
                    int (membershipGroupIndex (st_gm s))
                    <= Z.of_nat (List.length (MembershipGroups credential)) - 1 ->
                    nth_error (MembershipGroups credential)
                      (Z.to_nat (membershipGroupIndex (st_gm s)))
                    = Some group ->
                    membershipIndex (st_gm (final (Start rlnInstance rootTracker') s))
                    = Some (TreeIndex group))).
Proof.
  intros Hnil. as_post (Start rlnInstance rootTracker') s.
  unfold Start. method_steps.
  all: try (unfold load_credentials; method_steps).
  all: try (intros; discriminate).
  all: try (rewrite Hnil in *; discriminate).
  all: intros _ Hno.
  all: try (exfalso; apply Hno; simpl; intuition congruence).
  all: through_answers.
  all: repeat match goal with
              | |- _ /\ _ => split
              | |- _ -> _ => intro
              | |- forall _, _ => intro
              end.
  all: simpl in *; compare_to_Prop.
  all: repeat match goal with
              | H : (_, _) = (_, _) |- _ => injection H as ? ?
              end; subst.
  all: try solve [reflexivity | congruence | lia
                 | exfalso; intuition (try discriminate; try congruence; try lia)].
  all: repeat match goal with
              | H : _ \/ _ |- _ => destruct H as [H | H]; try discriminate H
              | H : False |- _ => contradiction H
              | H : ?x <> ?x |- _ => contradiction H; reflexivity
              | H1 : ?x = Some ?a, H2 : ?x = Some ?b |- _ =>
                  rewrite H1 in H2; injection H2 as <-
              | H : Z.of_nat (List.length ?l) = 0 |- _ =>
                  destruct l; [clear H | discriminate H]
              | H : nth_error [] ?n = Some _ |- _ => destruct n; discriminate H
              end.
  all: subst; simpl in *.
  all: try solve [reflexivity | congruence | lia].
Qed.

(** C8, as amended.  When [Start] returns an error on a manager that holds a
    cancel function, the error is the one of a manager already started, and
    the manager and the world are as they were.  When [Start] returns an error
    on a manager that holds none, and the error comes from a step before the
    subscription to the events (dialling the chain, reading the chain
    identifier, binding or probing the contract, reading the keystore,
    resolving the credential and the index), nothing that the call assigned
    is taken back.  The cancel function is the one the context returned: the
    manager is not in the state it was in, and every later call of [Start] on
    it returns the error of a manager already started and changes nothing.
    When the dial failed, nothing else is assigned.  When the dial succeeded,
    the client is the one the dial returned, the tree and the root tracker
    are the arguments of the call and the chain identifier is the one that
    was read, also when reading it failed; when it was read, the contract is
    the one that was bound, also when the binding failed, and all else is as
    it was but for the credential and the index: these are as they were when
    the keystore was not read, or answered with an error, with no credential
    or with fewer credentials than the keystore index asks for, and otherwise
    the credential is the one of the keystore entry, and the index the tree
    index of its group when the entry has the group asked for. *)
Theorem Start_error (rlnInstance : option RLN)
  (rootTracker' : option MerkleRootTracker) (s : Store) (e : error) :
  result (Start rlnInstance rootTracker') s = Ret (Some e) ->
  (cancel (st_gm s) <> None ->
   e = "already started"%string
   /\ final (Start rlnInstance rootTracker') s = s
   /\ trace (Start rlnInstance rootTracker') s = [])
  /\ (cancel (st_gm s) = None ->
      ~ In call_HandleGroupUpdates (calls (trace (Start rlnInstance rootTracker') s)) ->
      (cancel (st_gm (final (Start rlnInstance rootTracker') s))
       = Some (fst (answer_WithCancel s))
       /\ st_gm (final (Start rlnInstance rootTracker') s) <> st_gm s
       /\ forall rlnInstance2 rootTracker2 w,
           Start rlnInstance2 rootTracker2
             {| st_gm := st_gm (final (Start rlnInstance rootTracker') s);
                st_world := w |}
           = (Ret (Some "already started"%string),
              {| st_gm := st_gm (final (Start rlnInstance rootTracker') s);
                 st_world := w |},
              []))
      /\ (snd (fst (answer_Dial s)) <> None ->
          st_gm (final (Start rlnInstance rootTracker') s) = after_WithCancel s)
      /\ (snd (fst (answer_Dial s)) = None ->
          snd (fst (answer_ChainID s)) <> None ->
          st_gm (final (Start rlnInstance rootTracker') s)
          = after_ChainID rlnInstance rootTracker' s)
      /\ (snd (fst (answer_Dial s)) = None ->
          snd (fst (answer_ChainID s)) = None ->
          set_membershipIndex
            (membershipIndex (st_gm (final (Start rlnInstance rootTracker') s)))
            (set_identityCredential
               (identityCredential (st_gm (final (Start rlnInstance rootTracker') s)))
               (after_NewRLN rlnInstance rootTracker' s))
          = st_gm (final (Start rlnInstance rootTracker') s)
          /\ (~ In call_GetMembershipCredentials
                  (calls (trace (Start rlnInstance rootTracker') s)) ->
              st_gm (final (Start rlnInstance rootTracker') s)
              = after_NewRLN rlnInstance rootTracker' s)
          /\ (In call_GetMembershipCredentials
                 (calls (trace (Start rlnInstance rootTracker') s)) ->
              forall credentials err,
                fst (answer_GetMembershipCredentials s) = (credentials, err) ->
                (err <> None \/ credentials = []
                 \/ Z.of_nat (List.length credentials) - 1
                    < int (keystoreIndex (st_gm s)) ->
                 st_gm (final (Start rlnInstance rootTracker') s)
                 = after_NewRLN rlnInstance rootTracker' s)
                /\ forall credential,
                    err = None ->
                    int (keystoreIndex (st_gm s))
                    <= Z.of_nat (List.length credentials) - 1 ->
                    nth_error credentials (Z.to_nat (keystoreIndex (st_gm s)))
                    = Some credential ->
                    identityCredential
                      (st_gm (final (Start rlnInstance rootTracker') s))
                    = credential_IdentityCredential credential
                    /\ (Z.of_nat (List.length (MembershipGroups credential)) - 1
                        < int (membershipGroupIndex (st_gm s)) ->
                        membershipIndex
                          (st_gm (final (Start rlnInstance rootTracker') s))
                        = membershipIndex (st_gm s))
                    /\ forall group,
                        int (membershipGroupIndex (st_gm s))
                        <= Z.of_nat (List.length (MembershipGroups credential)) - 1 ->
                        nth_error (MembershipGroups credential)
                          (Z.to_nat (membershipGroupIndex (st_gm s)))
                        = Some group ->
                        membershipIndex
                          (st_gm (final (Start rlnInstance rootTracker') s))
                        = Some (TreeIndex group)))).
Proof.
  intros Hres. split.
  - intros Hset. unfold result, final, trace in *.
    rewrite (Start_already_started _ _ _ Hset) in *. simpl in *.
    injection Hres as <-. repeat split.
  - intros Hnil Hno.
    destruct (Start_error_state rlnInstance rootTracker' s e Hnil Hres Hno)
      as (Hcancel & Hdial & Hchain & Hrest).
    split; [split; [exact Hcancel | split] |].
    + intros E. rewrite E, Hnil in Hcancel. discriminate Hcancel.
    + intros a b w. apply Start_already_started. cbn [st_gm].
      rewrite Hcancel. discriminate.
    + split; [exact Hdial | split; [exact Hchain | exact Hrest]].
Qed.

End StartSteps.

(** ** Stop *)

Section StopSteps.
Context `{P : Platform} `{C : Collaborators} `{K : @Package C}.


Lemma Stop_without_cancel (s : Store) :
  cancel (st_gm s) = None -> Stop s = (Ret None, s, []).
Proof.
  intros Hnil. unfold Stop. rewrite bind_get_gm, Hnil. reflexivity.
Qed.

(** A manager that was never started.  On the manager the constructor
    returns, whatever its arguments, and in any world, [Stop] returns no
    error, makes no call and changes nothing. *)
Theorem Stop_before_Start (default_path default_password : string)
  (addr : string) (contract : Address) (group : Z) (path password : string)
  (index : Z) (save : bool) (w : World) :
  Stop {| st_gm := fst (fst (NewDynamicGroupManager default_path default_password
                               addr contract group path password index save));
          st_world := w |}
  = (Ret None,
     {| st_gm := fst (fst (NewDynamicGroupManager default_path default_password
                             addr contract group path password index save));
        st_world := w |},
     []).
Proof.
  apply Stop_without_cancel. unfold NewDynamicGroupManager.
  destruct (is_empty path), (is_empty password); reflexivity.
Qed.


End StopSteps.

(** ** More of the handler *)

Section HandlerMore.
Context `{P : Platform} `{C : Collaborators} `{K : @Package C}.

Lemma set_lastBlockProcessed_same (g : DynamicGroupManager) :
  set_lastBlockProcessed (lastBlockProcessed g) g = g.
Proof. destruct g. reflexivity. Qed.

Lemma set_lastBlockProcessed_twice (a b : Z) (g : DynamicGroupManager) :
  set_lastBlockProcessed a (set_lastBlockProcessed b g) = set_lastBlockProcessed a g.
Proof. reflexivity. Qed.

Lemma fold_left_max_In (l : list Z) (a x : Z) :
  In x l -> x <= fold_left Z.max l a.
Proof.
  revert a. induction l as [| y l IH]; intros a Hin; [destruct Hin |].
  simpl. destruct Hin as [-> | Hin].
  - pose proof (fold_left_max_ge l (Z.max a x)). lia.
  - apply IH. exact Hin.
Qed.

(** What one call of [handler] does to the manager, whatever it returns. *)
Lemma handler_manager (events : list RLNMemberRegistered) (s : Store) :
  exists err,
    result (handler events) s = Ret err
    /\ st_gm (final (handler events) s)
       = set_lastBlockProcessed
           (lastBlockProcessed (st_gm (final (handler events) s))) (st_gm s)
    /\ lastBlockProcessed (st_gm s)
       <= lastBlockProcessed (st_gm (final (handler events) s))
    /\ (err = None ->
        forall e, In e events -> Raw_Removed e = false ->
                  Raw_BlockNumber e
                  <= lastBlockProcessed (st_gm (final (handler events) s))).
Proof.
  destruct (handler_returns events s) as (r & Hr & Hrun).
  destruct (handler_tables (lastBlockProcessed (st_gm s)) events) as (_ & _ & Hcand).
  exists r. split; [exact Hr |].
  destruct Hrun as [e0 tr_r R | e0 tr_r tr_i R I | o tr_r tr_i R I].
  - rewrite set_lastBlockProcessed_same.
    split; [reflexivity | split; [apply Z.le_refl | discriminate]].
  - rewrite set_lastBlockProcessed_same.
    split; [reflexivity | split; [apply Z.le_refl | discriminate]].
  - simpl. rewrite Hcand. split; [reflexivity | split].
    + apply fold_left_max_ge.
    + intros _ e Hin Hrem. apply fold_left_max_In.
      unfold blocks_of. apply in_map. unfold inserted_events, is_inserted.
      apply filter_In. split; [exact Hin |]. rewrite Hrem. reflexivity.
Qed.

(** Batches handled one after the other.  Whatever each call of [handler]
    returns, the watermark never goes down, no other field of the manager
    changes, and at the end the watermark is not below the block of any event
    that is not removed of any batch whose call returned no error. *)
Theorem handle_batches_watermark (batches : list (list RLNMemberRegistered))
  (s : Store) :
  exists errs,
    result (handle_batches batches) s = Ret errs
    /\ List.length errs = List.length batches
    /\ st_gm (final (handle_batches batches) s)
       = set_lastBlockProcessed
           (lastBlockProcessed (st_gm (final (handle_batches batches) s))) (st_gm s)
    /\ lastBlockProcessed (st_gm s)
       <= lastBlockProcessed (st_gm (final (handle_batches batches) s))
    /\ (forall i events e,
           nth_error batches i = Some events ->
           nth_error errs i = Some None ->
           In e events -> Raw_Removed e = false ->
           Raw_BlockNumber e
           <= lastBlockProcessed (st_gm (final (handle_batches batches) s))).
Proof.
  revert s. induction batches as [| events more IH]; intros s.
  - exists []. simpl. rewrite set_lastBlockProcessed_same.
    split; [reflexivity | split; [reflexivity | split; [reflexivity | split]]];
      [apply Z.le_refl |].
    intros [| i] ? ? H; discriminate H.
  - destruct (handler_manager events s) as (err & Hr & Hgm & Hle & Hcover).
    destruct (IH (final (handler events) s)) as (errs & Hr' & Hlen & Hgm' & Hle' & Hcover').
    exists (err :: errs).
    unfold result, final in *.
    destruct (handler events s) as [[r s1] t1] eqn:E1. simpl in Hr, Hgm, Hle, Hcover.
    simpl in Hr', Hgm', Hle', Hcover'. subst r.
    destruct (handle_batches more s1) as [[r s2] t2] eqn:E2.
    simpl in Hr', Hgm', Hle', Hcover'. subst r.
    assert (E : handle_batches (events :: more) s
                = (Ret (err :: errs), s2, t1 ++ t2 ++ [])).
    { simpl. unfold bind. rewrite E1, E2. reflexivity. }
    rewrite E. simpl.
    split; [reflexivity | split; [| split; [| split]]].
    + rewrite Hlen. reflexivity.
    + rewrite Hgm' at 1. rewrite Hgm. reflexivity.
    + lia.
    + intros [| i] evs e Hb He Hin Hrem; simpl in Hb, He.
      * injection Hb as <-. injection He as ->.
        specialize (Hcover eq_refl e Hin Hrem). lia.
      * exact (Hcover' i evs e Hb He Hin Hrem).
Qed.

(** *** Nothing lost, nothing twice *)

Lemma filter_partition_perm {A} (p : A -> bool) (l : list A) :
  Permutation (filter p l ++ filter (fun x => negb (p x)) l) l.
Proof.
  induction l as [| a l IH]; simpl; [constructor |].
  destruct (p a); simpl.
  - constructor. exact IH.
  - apply Permutation_sym, Permutation_cons_app, Permutation_sym. exact IH.
Qed.

Lemma filter_filter_implied {A} (p q : A -> bool) (l : list A) :
  (forall x, In x l -> p x = true -> q x = true) ->
  filter p (filter q l) = filter p l.
Proof.
  induction l as [| a l IH]; intros H; simpl; [reflexivity |].
  assert (IH' : filter p (filter q l) = filter p l).
  { apply IH. intros x Hx. apply H. right. exact Hx. }
  destruct (q a) eqn:Eq; simpl.
  - rewrite IH'. reflexivity.
  - destruct (p a) eqn:Ep; [| exact IH'].
    rewrite (H a (or_introl eq_refl) Ep) in Eq. discriminate.
Qed.

Lemma flat_map_ext_in {A B} (f g : A -> list B) (l : list A) :
  (forall a, In a l -> f a = g a) -> flat_map f l = flat_map g l.
Proof.
  induction l as [| a l IH]; intros H; simpl; [reflexivity |].
  rewrite (H a (or_introl eq_refl)), IH; [reflexivity |].
  intros b Hb. apply H. right. exact Hb.
Qed.

(** The groups of a table hold every event once. *)
Lemma groups_perm (keys : list Z) (events : list RLNMemberRegistered) :
  NoDup keys ->
  (forall e, In e events -> In (Raw_BlockNumber e) keys) ->
  Permutation (flat_map (fun b => filter (in_block b) events) keys) events.
Proof.
  revert events. induction keys as [| k keys IH]; intros events ND Hall.
  - destruct events as [| e events]; [constructor |].
    destruct (Hall e (or_introl eq_refl)).
  - inversion ND as [| ? ? Hk ND']; subst. simpl.
    set (others := filter (fun e => negb (in_block k e)) events).
    rewrite (flat_map_ext_in _ (fun b => filter (in_block b) others)).
    + eapply Permutation_trans; [| apply (filter_partition_perm (in_block k))].
      apply Permutation_app_head. apply IH; [exact ND' |].
      intros e He. apply filter_In in He. destruct He as [He Hne].
      destruct (Hall e He) as [E | Hin]; [| exact Hin].
      unfold in_block in Hne. rewrite <- E, Z.eqb_refl in Hne. discriminate.
    + intros b Hb. symmetry. apply filter_filter_implied.
      intros e _ He. unfold in_block in *. apply Z.eqb_eq in He.
      apply negb_true_iff. apply Z.eqb_neq. intros E.
      apply Hk. rewrite <- E, He. exact Hb.
Qed.

Lemma flat_map_rev_perm {A B} (f : A -> list B) (l : list A) :
  Permutation (flat_map f (rev l)) (flat_map f l).
Proof.
  induction l as [| a l IH]; simpl; [constructor |].
  rewrite flat_map_app. simpl. rewrite app_nil_r.
  eapply Permutation_trans; [apply Permutation_app_comm |].
  apply Permutation_app_head. exact IH.
Qed.

Lemma flat_map_tabulate {V B} (g : Z -> V) (f : Z * V -> list B) (keys : list Z) :
  flat_map f (tabulate g keys) = flat_map (fun b => f (b, g b)) keys.
Proof.
  induction keys as [| k keys IH]; simpl; [reflexivity |]. rewrite IH. reflexivity.
Qed.

Lemma map_flat_map {A B D} (h : B -> D) (f : A -> list B) (l : list A) :
  map h (flat_map f l) = flat_map (fun a => map h (f a)) l.
Proof.
  induction l as [| a l IH]; simpl; [reflexivity |].
  rewrite map_app, IH. reflexivity.
Qed.

Lemma inserted_commitments_insertions (cs : list Call) :
  inserted_commitments (filter is_insertion cs) = inserted_commitments cs.
Proof.
  induction cs as [| c cs IH]; simpl; [reflexivity |].
  destruct c; simpl; rewrite ?IH; reflexivity.
Qed.

Lemma deleted_indexes_removals (cs : list Call) :
  deleted_indexes (filter is_removal cs) = deleted_indexes cs.
Proof.
  induction cs as [| c cs IH]; simpl; [reflexivity |].
  destruct c; simpl; rewrite ?IH; reflexivity.
Qed.

Lemma inserted_commitments_insertion_calls
  (pairs : list (Z * list RLNMemberRegistered)) :
  inserted_commitments (insertion_calls pairs)
  = flat_map (fun pair => commitments_of (snd pair)) pairs.
Proof.
  induction pairs as [| [k evs] pairs IH]; [reflexivity |].
  unfold inserted_commitments, insertion_calls in *.
  cbn [flat_map snd fst]. rewrite flat_map_app, IH.
  destruct evs as [| first rest]; [reflexivity |].
  cbn [flat_map]. rewrite app_nil_r. reflexivity.
Qed.

Lemma deleted_indexes_removal_calls (pairs : list (Z * list Z)) :
  deleted_indexes (removal_calls pairs) = flat_map snd pairs.
Proof.
  induction pairs as [| [k idx] pairs IH]; simpl; [reflexivity |].
  f_equal. exact IH.
Qed.

(** When [handler] returns no error, the commitments handed to the tree by
    its insert calls are the commitments of the events of the batch that are
    not removed, each one once, and the indexes handed to the tree by its
    delete calls are the indexes (as [uint]) of the removed events, each one
    once: the grouping by block loses no event and repeats none. *)
Theorem handler_events_accounted (events : list RLNMemberRegistered) (s : Store) :
  result (handler events) s = Ret None ->
  Permutation (inserted_commitments (calls (trace (handler events) s)))
    (commitments_of (inserted_events events))
  /\ Permutation (deleted_indexes (calls (trace (handler events) s)))
       (removed_indexes_of (removed_events events)).
Proof.
  intros Hres.
  destruct (handler_calls events s) as [[rest [Hc Hn]] [rest' [Hc' Hn']]].
  rewrite (Hn Hres), app_nil_r in Hc. rewrite (Hn' Hres), app_nil_r in Hc'.
  split.
  - rewrite <- inserted_commitments_insertions.
    fold (insertions_of (trace (handler events) s)). rewrite <- Hc'.
    unfold batch_insertions, insertion_groups.
    rewrite inserted_commitments_insertion_calls, flat_map_tabulate. simpl.
    unfold commitments_of at 1.
    rewrite <- (map_flat_map (fun evt => BigIntToBytes32 (IdCommitment evt))
                  (fun b => filter (in_block b) (inserted_events events))).
    apply Permutation_map, groups_perm; [apply arrival_order_NoDup |].
    intros e He. apply arrival_order_In. unfold blocks_of. apply in_map. exact He.
  - rewrite <- deleted_indexes_removals.
    fold (removals_of (trace (handler events) s)). rewrite <- Hc.
    unfold batch_removals, removal_groups.
    rewrite deleted_indexes_removal_calls.
    eapply Permutation_trans; [apply flat_map_rev_perm |].
    rewrite flat_map_tabulate. simpl. unfold removed_indexes_of.
    rewrite <- (map_flat_map (fun evt => uint (big.Uint64 (Index evt)))
                  (fun b => filter (in_block b) (removed_events events))).
    apply Permutation_map, groups_perm; [apply arrival_order_NoDup |].
    intros e He. apply arrival_order_In. unfold blocks_of. apply in_map. exact He.
Qed.

(** *** What a batch does not do *)

(** A batch without removed events makes no deletion and no backfill; a batch
    whose events are all removed makes no insertion and no update of the
    latest root. *)
Theorem handler_one_kind (events : list RLNMemberRegistered) (s : Store) :
  (removed_events events = [] -> removals_of (trace (handler events) s) = [])
  /\ (inserted_events events = [] -> insertions_of (trace (handler events) s) = []).
Proof.
  destruct (handler_calls events s) as [[rest [Hc _]] [rest' [Hc' _]]].
  split; intros Hnone.
  - unfold batch_removals, removal_groups in Hc. rewrite Hnone in Hc.
    symmetry in Hc. apply app_eq_nil in Hc. apply Hc.
  - unfold batch_insertions, insertion_groups in Hc'. rewrite Hnone in Hc'.
    symmetry in Hc'. apply app_eq_nil in Hc'. apply Hc'.
Qed.

(** There is no rollback.  When an insertion into the tree or an update of
    the latest root fails, every removal of the batch has been applied, each
    without error, and no call undoes it: the handler returns with the tree
    changed and the watermark as it found it. *)
Theorem handler_no_rollback (events : list RLNMemberRegistered) (s : Store)
  (c : Call) (e : error) :
  In {| ecall := c; eerr := Some e |} (trace (handler events) s) ->
  is_insertion c = true ->
  removals_of (trace (handler events) s) = batch_removals events
  /\ (forall c' o, In {| ecall := c'; eerr := o |} (trace (handler events) s) ->
                   is_removal c' = true -> o = None)
  /\ st_gm (final (handler events) s) = st_gm s.
Proof.
  intros Hin Hins.
  destruct (handler_returns events s) as (r & _ & Hrun).
  destruct (handler_tables (lastBlockProcessed (st_gm s)) events) as (HR & _ & _).
  unfold batch_removals. rewrite <- HR.
  assert (Hkind_r : forall tr_r r_r,
             removal_run
               (om.from_Newest
                  (toRemoveTable (sort_events (lastBlockProcessed (st_gm s)) events)))
               r_r tr_r ->
             ~ In {| ecall := c; eerr := Some e |} tr_r).
  { intros tr_r r_r R Hc.
    pose proof (removal_kind_no_insertion _ (removal_run_kind _ _ _ R)) as Hk.
    rewrite Forall_forall in Hk. specialize (Hk _ Hc). simpl in Hk. congruence. }
  destruct Hrun as [e0 tr_r R | e0 tr_r tr_i R I | o tr_r tr_i R I].
  - exfalso. exact (Hkind_r _ _ R Hin).
  - destruct (removal_run_calls _ _ _ R) as [rest [Hc Hn]].
    rewrite (Hn eq_refl), app_nil_r in Hc.
    pose proof (insertion_kind_no_removal _ (insertion_run_kind _ _ _ I)) as Hk.
    split; [| split; [| reflexivity]].
    + rewrite removals_of_app, (no_removals _ Hk), app_nil_r. symmetry. exact Hc.
    + intros c' o Hc' Hrem. apply in_app_or in Hc'. destruct Hc' as [Hc' | Hc'].
      * destruct o as [e' |]; [| reflexivity].
        pose proof (removal_run_error _ _ _ R c' e' Hc'). discriminate.
      * rewrite Forall_forall in Hk. specialize (Hk _ Hc'). simpl in Hk. congruence.
  - exfalso. apply in_app_or in Hin. destruct Hin as [Hin | Hin];
      [exact (Hkind_r _ _ R Hin) |].
    apply in_app_or in Hin. destruct Hin as [Hin | Hin].
    + pose proof (insertion_run_error _ _ _ I c e Hin). discriminate.
    + destruct Hin as [Heq | [Heq | []]].
      * injection Heq as <- _. discriminate.
      * unfold ok in Heq. discriminate.
Qed.

(** *** The two conversions of an index *)

Lemma removed_index_mod (idx : Z) :
  0 <= idx -> uint (big.Uint64 idx) = idx mod 2 ^ uint_bits.
Proof.
  intros Hidx. unfold uint, big.Uint64, big.low64. rewrite (Z.abs_eq _ Hidx).
  destruct uint_bits_cases as [E | E]; rewrite E;
    change (2 ^ 64) with 18446744073709551616;
    change (2 ^ 32) with 4294967296;
    Z.div_mod_to_equations; lia.
Qed.

(** An event that comes alone in a batch, and that same event when it comes
    again, alone, with its removed flag set.  The index an insertion starts
    at and the index a removal deletes are computed in two ways, through
    [Int64] and through [Uint64]; on an index that is not negative both give
    the index modulo the size of [uint]: the first call of [handler] on the
    event is the insertion of its commitment from that slot on, and the first
    call of [handler] on the removed event is the deletion of that slot. *)
Theorem delete_and_insert_same_slot (evt : RLNMemberRegistered) (s s' : Store) :
  0 <= Index evt ->
  Raw_Removed evt = false ->
  (exists o tl,
      trace (handler [evt]) s
      = {| ecall := call_InsertMembers (Index evt mod 2 ^ uint_bits)
                      [BigIntToBytes32 (IdCommitment evt)];
           eerr := o |} :: tl)
  /\ (exists o tl,
         trace (handler [{| IdCommitment := IdCommitment evt;
                            Index := Index evt;
                            Raw_BlockNumber := Raw_BlockNumber evt;
                            Raw_Removed := true |}]) s'
         = {| ecall := call_DeleteMembers [Index evt mod 2 ^ uint_bits];
              eerr := o |} :: tl).
Proof.
  intros Hidx Hins. split.
  - change (post (handler [evt]) s
              (fun _ _ t =>
                 exists o tl,
                   t = {| ecall := call_InsertMembers (Index evt mod 2 ^ uint_bits)
                                     [BigIntToBytes32 (IdCommitment evt)];
                          eerr := o |} :: tl)).
    unfold handler. cbv zeta. unfold sort_events. cbn [fold_left].
    unfold sort_event.
    rewrite Hins. cbn [toRemoveTable toInsertTable candidate get_or_nil om.Get
                       om.New om.Set_ app].
    unfold RemoveMembers, InsertMembers, om.from_Newest, om.from_Oldest.
    cbn [om.New rev app RemoveMembers_from InsertMembers_from collect_block fold_left
         List.length Z.of_nat].
    change (Z.pos (Pos.of_succ_nat 0) =? 0) with false. cbv iota.
    rewrite startIndex_of_mod by exact Hidx.
    repeat (method_steps; try unfold SetMetadata);
      simpl; eexists _, _; reflexivity.
  - change (post (handler [{| IdCommitment := IdCommitment evt;
                              Index := Index evt;
                              Raw_BlockNumber := Raw_BlockNumber evt;
                              Raw_Removed := true |}]) s'
              (fun _ _ t =>
                 exists o tl,
                   t = {| ecall := call_DeleteMembers [Index evt mod 2 ^ uint_bits];
                          eerr := o |} :: tl)).
    unfold handler. cbv zeta. unfold sort_events. cbn [fold_left].
    unfold sort_event.
    cbn [Raw_Removed Raw_BlockNumber Index toRemoveTable toInsertTable candidate
         get_or_nil om.Get om.New om.Set_ app].
    unfold RemoveMembers, InsertMembers, om.from_Newest, om.from_Oldest.
    cbn [om.New rev app RemoveMembers_from InsertMembers_from].
    rewrite removed_index_mod by exact Hidx.
    repeat (method_steps; try unfold SetMetadata);
      simpl; eexists _, _; reflexivity.
Qed.

(** *** Empty groups *)

Lemma bind_ext {A B} (m : M A) (f g : A -> M B) (s : Store) :
  (forall a s1, f a s1 = g a s1) -> bind m f s = bind m g s.
Proof.
  intros H. unfold bind. destruct (m s) as [[[a |] s1] t1]; [rewrite H |]; reflexivity.
Qed.

(** [InsertMembers] passes over a group without events: it runs as on the
    table without these groups, so that it makes no call for them, neither an
    insertion nor an update of the latest root. *)
Theorem InsertMembers_skips_empty
  (toInsert : om.OrderedMap (list RLNMemberRegistered)) (s : Store) :
  InsertMembers toInsert s = InsertMembers (filter has_events toInsert) s.
Proof.
  unfold InsertMembers, om.from_Oldest. revert s.
  induction toInsert as [| [key events] next IH]; intros s; [reflexivity |].
  destruct events as [| first rest].
  - cbn [filter has_events snd]. rewrite <- IH.
    cbn [InsertMembers_from]. rewrite collect_block_spec. reflexivity.
  - cbn [filter has_events snd]. cbn [InsertMembers_from].
    rewrite collect_block_spec.
    replace (Z.of_nat (List.length (commitments_of (first :: rest))) =? 0)
      with false by (symmetry; apply Z.eqb_neq; simpl; lia).
    apply bind_ext. intros gm s1.
    apply bind_ext. intros [e |] s2; [reflexivity |].
    apply bind_ext. intros [e |] s3; [reflexivity |].
    apply IH.
Qed.

End HandlerMore.

(** ** A manager fresh from the constructor *)

Section FreshManager.
Context `{P : Platform} `{C : Collaborators} `{K : @Package C}.

(** The constructor never leaves the path or the password of the keystore
    empty when the defaults are not, and its manager holds no credential: so
    a first [Start] that gets past the probe of the contract goes on to read
    the keystore. *)
Theorem Start_fresh_reads_keystore (default_path default_password : string)
  (addr : string) (contract : Address) (group : Z) (path password : string)
  (index : Z) (save : bool)
  (rlnInstance : option RLN) (rootTracker' : option MerkleRootTracker) (s : Store) :
  is_empty default_path = false ->
  is_empty default_password = false ->
  st_gm s = fst (fst (NewDynamicGroupManager default_path default_password
                        addr contract group path password index save)) ->
  is_empty (keystorePath (st_gm s)) = false
  /\ is_empty (keystorePassword (st_gm s)) = false
  /\ (In (ok call_MEMBERSHIPDEPOSIT) (trace (Start rlnInstance rootTracker') s) ->
      In call_GetMembershipCredentials
        (calls (trace (Start rlnInstance rootTracker') s))).
Proof.
  intros Hdp Hdpw Hgm.
  assert (Hc : cancel (st_gm s) = None
               /\ identityCredential (st_gm s) = None
               /\ is_empty (keystorePath (st_gm s)) = false
               /\ is_empty (keystorePassword (st_gm s)) = false).
  { rewrite Hgm. unfold NewDynamicGroupManager.
    destruct (is_empty path) eqn:Ep, (is_empty password) eqn:Epw; simpl;
      repeat split; assumption. }
  destruct Hc as (Hc & Hi & Hp & Hpw).
  split; [exact Hp | split; [exact Hpw |]].
  change (post (Start rlnInstance rootTracker') s
            (fun _ _ t => In (ok call_MEMBERSHIPDEPOSIT) t ->
                          In call_GetMembershipCredentials (calls t))).
  unfold Start. method_steps.
  all: try (unfold load_credentials; method_steps).
  all: cbn [identityCredential keystorePath keystorePassword set_rlnContract
              set_chainId set_rootTracker set_rln set_ethClient set_cancel] in *.
  all: try congruence.
  all: try (rewrite Hp, Hpw in *; discriminate).
  all: try (intros Hin; simpl in Hin; unfold ok in Hin; exfalso; intuition discriminate).
  all: intros _; simpl; tauto.
Qed.

End FreshManager.

(** * More runs in the scripted world *)

Module MoreRuns.
Import Script.
#[local] Existing Instance Platform64.
#[local] Existing Instance collaborators.
#[local] Existing Instance package.
Local Open Scope string_scope.

(** A [Start] in a world where every call succeeds. *)
Lemma Start_success_steps_witness :
  result (Start (Some tt) (Some tt)) (store []) = Ret None
  /\ cancel (st_gm (store [])) = None
  /\ exists keystore_calls,
      calls (trace (Start (Some tt) (Some tt)) (store []))
      = ([call_WithCancel;
          call_log Info "mounting rln-relay in on-chain/dynamic mode";
          call_Dial (ethClientAddress (st_gm (store []))); call_ChainID; call_NewRLN;
          call_MEMBERSHIPDEPOSIT]
         ++ keystore_calls ++ [call_HandleGroupUpdates])%list
      /\ (keystore_calls = [] \/ keystore_calls = [call_GetMembershipCredentials])
      /\ (identityCredential (st_gm (store [])) = None ->
          keystore_calls = [call_GetMembershipCredentials])
      /\ Forall (fun en => eerr en = None)
           (trace (Start (Some tt) (Some tt)) (store [])).
Proof.
  split; [reflexivity |].
  exact (Start_success_steps (Some tt) (Some tt) (store []) eq_refl).
Defined.

(** The accessors on the manager of the scripted world, before and after a
    [Start] that succeeds. *)
Lemma accessors_after_Start_witness :
  snd (IdentityCredentials tt (st_gm (store [])))
  = Some "identity credential has not been setup"
  /\ result (Start (Some tt) (Some tt)) (store []) = Ret None
  /\ exists credential index,
      identityCredential (st_gm (final (Start (Some tt) (Some tt)) (store [])))
      = Some credential
      /\ membershipIndex (st_gm (final (Start (Some tt) (Some tt)) (store [])))
         = Some index
      /\ IdentityCredentials tt (st_gm (final (Start (Some tt) (Some tt)) (store [])))
         = (credential, None)
      /\ MembershipIndex (st_gm (final (Start (Some tt) (Some tt)) (store [])))
         = (index, None).
Proof.
  split; [reflexivity | split; [reflexivity |]].
  apply (proj2 (accessors_after_Start (C := collaborators) tt
                  "rlnKeystore.json" "password"
                  (Some tt) (Some tt) (store []))); [| reflexivity].
  intros g w. simpl. destruct (answer w). split; reflexivity.
Defined.


(** A batch with two insertions in block 110, one in block 100 and two
    removals: the tree receives the three commitments and the two indexes. *)
Lemma handler_events_accounted_witness :
  result (handler [event 1 1 110 false; event 4 4 100 true; event 2 2 100 false;
                   event 5 5 110 true; event 3 3 110 false]) (store [])
  = Ret None
  /\ inserted_commitments
       (calls (trace (handler [event 1 1 110 false; event 4 4 100 true;
                               event 2 2 100 false; event 5 5 110 true;
                               event 3 3 110 false]) (store [])))
     = [1; 3; 2]
  /\ Permutation
       (inserted_commitments
          (calls (trace (handler [event 1 1 110 false; event 4 4 100 true;
                                  event 2 2 100 false; event 5 5 110 true;
                                  event 3 3 110 false]) (store []))))
       (commitments_of
          (inserted_events [event 1 1 110 false; event 4 4 100 true;
                            event 2 2 100 false; event 5 5 110 true;
                            event 3 3 110 false]))
  /\ Permutation
       (deleted_indexes
          (calls (trace (handler [event 1 1 110 false; event 4 4 100 true;
                                  event 2 2 100 false; event 5 5 110 true;
                                  event 3 3 110 false]) (store []))))
       (removed_indexes_of
          (removed_events [event 1 1 110 false; event 4 4 100 true;
                           event 2 2 100 false; event 5 5 110 true;
                           event 3 3 110 false])).
Proof.
  split; [reflexivity | split; [reflexivity |]].
  apply handler_events_accounted. reflexivity.
Defined.

(** The batch of one removal and one insertion when the insertion fails: the
    deletion and the backfill are done and stay. *)
Lemma handler_no_rollback_witness :
  In (failed (call_InsertMembers 1 [1]) "tree unavailable")
    (trace (handler mixed_batch) (store [None; Some "tree unavailable"]))
  /\ removals_of (trace (handler mixed_batch) (store [None; Some "tree unavailable"]))
     = [call_DeleteMembers [4]; call_Backfill 100]
  /\ removals_of (trace (handler mixed_batch) (store [None; Some "tree unavailable"]))
     = batch_removals mixed_batch
  /\ (forall c' o,
         In {| ecall := c'; eerr := o |}
           (trace (handler mixed_batch) (store [None; Some "tree unavailable"])) ->
         is_removal c' = true -> o = None)
  /\ st_gm (final (handler mixed_batch) (store [None; Some "tree unavailable"]))
     = st_gm (store [None; Some "tree unavailable"]).
Proof.
  assert (Hin : In (failed (call_InsertMembers 1 [1]) "tree unavailable")
                  (trace (handler mixed_batch) (store [None; Some "tree unavailable"]))).
  { right. right. left. reflexivity. }
  split; [exact Hin | split; [reflexivity |]].
  exact (handler_no_rollback mixed_batch (store [None; Some "tree unavailable"])
           (@call_InsertMembers collaborators 1 [1]) "tree unavailable" Hin eq_refl).
Defined.

(** The registration of the commitment 11 at the index 7, delivered alone,
    and delivered again as a removal. *)
Lemma delete_and_insert_same_slot_witness :
  0 <= Index (event 11 7 100 false)
  /\ Raw_Removed (event 11 7 100 false) = false
  /\ (exists o tl,
         trace (handler [event 11 7 100 false]) (store [])
         = {| ecall := call_InsertMembers (7 mod 2 ^ uint_bits) [11]; eerr := o |} :: tl)
  /\ (exists o tl,
         trace (handler [event 11 7 100 true]) (store [Some "tree unavailable"])
         = {| ecall := call_DeleteMembers [7 mod 2 ^ uint_bits]; eerr := o |} :: tl).
Proof.
  assert (H : 0 <= Index (event 11 7 100 false)) by (simpl; lia).
  split; [exact H | split; [reflexivity |]].
  exact (delete_and_insert_same_slot (event 11 7 100 false) (store [])
           (store [Some "tree unavailable"]) H eq_refl).
Defined.

(** A [Start] where the chain identifier cannot be read: the client, the
    tree and the root tracker stay assigned. *)
Lemma Start_error_witness :
  result (Start (Some tt) (Some tt)) (store [None; Some "no chain id"])
  = Ret (Some "no chain id")
  /\ cancel (st_gm (store [None; Some "no chain id"])) = None
  /\ ~ In call_HandleGroupUpdates
         (calls (trace (Start (Some tt) (Some tt)) (store [None; Some "no chain id"])))
  /\ st_gm (final (Start (Some tt) (Some tt)) (store [None; Some "no chain id"]))
     = after_ChainID (Some tt) (Some tt) (store [None; Some "no chain id"])
  /\ after_ChainID (Some tt) (Some tt) (store [None; Some "no chain id"])
     = set_chainId None
         (set_rootTracker (Some tt)
            (set_rln (Some tt)
               (set_ethClient (Some tt) (set_cancel (Some tt) manager)))).
Proof.
  assert (Hres : result (Start (Some tt) (Some tt)) (store [None; Some "no chain id"])
                 = Ret (Some "no chain id")) by reflexivity.
  assert (Hno : ~ In call_HandleGroupUpdates
                    (calls (trace (Start (Some tt) (Some tt))
                              (store [None; Some "no chain id"])))).
  { simpl. intuition discriminate. }
  split; [exact Hres | split; [reflexivity | split; [exact Hno |]]].
  split; [| reflexivity].
  destruct (Start_error (C := collaborators) (K := package) (Some tt) (Some tt)
              (store [None; Some "no chain id"]) "no chain id" Hres) as [_ H].
  destruct (H eq_refl Hno) as (_ & _ & Hchain & _).
  apply Hchain; [reflexivity | discriminate].
Defined.

(** A first [Start] of a manager built with an empty path and an empty
    password: the defaults are used and the keystore is read. *)
Lemma Start_fresh_reads_keystore_witness :
  In (ok call_MEMBERSHIPDEPOSIT) (trace (Start (Some tt) (Some tt)) Fresh.store)
  /\ keystorePath (st_gm Fresh.store) = "rlnKeystore.json"
  /\ is_empty (keystorePath (st_gm Fresh.store)) = false
  /\ is_empty (keystorePassword (st_gm Fresh.store)) = false
  /\ (In (ok call_MEMBERSHIPDEPOSIT) (trace (Start (Some tt) (Some tt)) Fresh.store) ->
      In call_GetMembershipCredentials
        (calls (trace (Start (Some tt) (Some tt)) Fresh.store))).
Proof.
  split; [do 5 right; left; reflexivity | split; [reflexivity |]].
  exact (Start_fresh_reads_keystore (C := collaborators)
           "rlnKeystore.json" "password"
           "ws://localhost:8545" tt 0 "" "" 0 false (Some tt) (Some tt)
           Fresh.store eq_refl eq_refl eq_refl).
Defined.

End MoreRuns.

(** * Runs with a chosen keystore index *)

Module KeystoreRuns.
Import Script.
#[local] Existing Instance Platform64.
#[local] Existing Instance collaborators.
#[local] Existing Instance package.
Local Open Scope string_scope.

(** One credential in the keystore and the keystore index 1. *)
Lemma Start_invalid_keystore_index_witness :
  In call_GetMembershipCredentials
    (calls (trace (Start (Some tt) (Some tt)) (Indexed.store 1 0)))
  /\ fst (answer_GetMembershipCredentials (Indexed.store 1 0)) = (one_credential, None)
  /\ result (Start (Some tt) (Some tt)) (Indexed.store 1 0)
     = Ret (Some "invalid keystore index")
  /\ identityCredential (st_gm (final (Start (Some tt) (Some tt)) (Indexed.store 1 0)))
     = None
  /\ ~ In call_HandleGroupUpdates
         (calls (trace (Start (Some tt) (Some tt)) (Indexed.store 1 0))).
Proof.
  assert (Hin : In call_GetMembershipCredentials
                  (calls (trace (Start (Some tt) (Some tt)) (Indexed.store 1 0)))).
  { do 6 right. left. reflexivity. }
  split; [exact Hin | split; [reflexivity |]].
  apply (Start_invalid_keystore_index (C := collaborators) (K := package) (Some tt) (Some tt)
           (Indexed.store 1 0)
           one_credential Hin eq_refl).
  - discriminate.
  - vm_compute. reflexivity.
Defined.

(** One credential with one group in the keystore, the keystore index 0 and
    the group index 1. *)
Lemma Start_invalid_group_index_witness :
  In call_GetMembershipCredentials
    (calls (trace (Start (Some tt) (Some tt)) (Indexed.store 0 1)))
  /\ fst (answer_GetMembershipCredentials (Indexed.store 0 1)) = (one_credential, None)
  /\ result (Start (Some tt) (Some tt)) (Indexed.store 0 1)
     = Ret (Some "invalid membership group index")
  /\ identityCredential (st_gm (final (Start (Some tt) (Some tt)) (Indexed.store 0 1)))
     = Some tt
  /\ ~ In call_HandleGroupUpdates
         (calls (trace (Start (Some tt) (Some tt)) (Indexed.store 0 1))).
Proof.
  assert (Hin : In call_GetMembershipCredentials
                  (calls (trace (Start (Some tt) (Some tt)) (Indexed.store 0 1)))).
  { do 6 right. left. reflexivity. }
  split; [exact Hin | split; [reflexivity |]].
  apply (Start_invalid_group_index (C := collaborators) (K := package) (Some tt) (Some tt)
           (Indexed.store 0 1)
           one_credential
           {| credential_IdentityCredential := Some tt;
              MembershipGroups := [{| TreeIndex := 3 |}] |} Hin eq_refl).
  - vm_compute. discriminate.
  - reflexivity.
  - vm_compute. reflexivity.
Defined.

(** One credential in the keystore and the keystore index [2 ^ 63], with an
    [int] of 64 bits. *)
Lemma Start_keystore_index_panic_witness :
  In call_GetMembershipCredentials
    (calls (trace (Start (Some tt) (Some tt)) (Indexed.store (2 ^ 63) 0)))
  /\ fst (answer_GetMembershipCredentials (Indexed.store (2 ^ 63) 0))
     = (one_credential, None)
  /\ result (Start (Some tt) (Some tt)) (Indexed.store (2 ^ 63) 0) = Panic.
Proof.
  assert (Hin : In call_GetMembershipCredentials
                  (calls (trace (Start (Some tt) (Some tt))
                            (Indexed.store (2 ^ 63) 0)))).
  { (* The trace is computed when the proof is closed: a reduction by the
       tactics would unfold the index [2 ^ 63] in unary. *)
    exact_no_check
      (or_intror (or_intror (or_intror (or_intror (or_intror (or_intror
         (or_introl (eq_refl (@call_GetMembershipCredentials collaborators))))))))
       : In (@call_GetMembershipCredentials collaborators)
           [call_WithCancel;
            call_log Info "mounting rln-relay in on-chain/dynamic mode";
            call_Dial "ws://localhost:8545"; call_ChainID; call_NewRLN;
            call_MEMBERSHIPDEPOSIT; call_GetMembershipCredentials]). }
  split; [exact Hin | split; [reflexivity |]].
  apply (Start_keystore_index_panic (C := collaborators) (K := package) (Some tt) (Some tt)
           (Indexed.store (2 ^ 63) 0)
           one_credential Hin eq_refl).
  - discriminate.
  - vm_compute. discriminate.
  - split; vm_compute; [discriminate | reflexivity].
Defined.

End KeystoreRuns.

(** ** The varint helpers *)

Section Varints.
Context `{P : Platform}.
Import pb.

Lemma int_fits (z : Z) : 0 <= z < 2 ^ (uint_bits - 1) -> int z = z.
Proof.
  unfold int.
  destruct uint_bits_spec as [E | E]; rewrite E;
    change (2 ^ (32 - 1)) with 2147483648; change (2 ^ 32) with 4294967296;
    change (2 ^ (64 - 1)) with 9223372036854775808;
    change (2 ^ 64) with 18446744073709551616;
    intros Hz; Z.div_mod_to_equations; lia.
Qed.

Lemma int_bits_le_64 : 2 ^ (uint_bits - 1) <= 2 ^ 63.
Proof.
  destruct uint_bits_spec as [E | E]; rewrite E; [| reflexivity].
  apply Z.pow_le_mono_r; lia.
Qed.

Lemma int_bits_ge_32 : 2 ^ 31 <= 2 ^ (uint_bits - 1).
Proof.
  destruct uint_bits_spec as [E | E]; rewrite E; [reflexivity |].
  apply Z.pow_le_mono_r; lia.
Qed.

Lemma Len64_lor_1 (x : Z) : 0 <= x -> Len64 (Z.lor x 1) = Z.log2 x + 1.
Proof.
  intros Hx. unfold Len64.
  destruct (Z.lor x 1 =? 0) eqn:E.
  - apply Z.eqb_eq, Z.lor_eq_0_iff in E. destruct E as [_ E]. discriminate E.
  - rewrite Z.log2_lor by lia. change (Z.log2 1) with 0.
    pose proof (Z.log2_nonneg x). rewrite Z.max_l by lia. reflexivity.
Qed.

Lemma sov_log2 (x : Z) : 0 <= x -> sovWakuLightpush x = (Z.log2 x + 7) / 7.
Proof.
  intros Hx. unfold sovWakuLightpush. rewrite Len64_lor_1 by exact Hx.
  f_equal. lia.
Qed.

Lemma sov_small (x : Z) : 0 <= x < 128 -> sovWakuLightpush x = 1.
Proof.
  intros [H0 H1]. rewrite sov_log2 by exact H0.
  assert (Z.log2 x < 7).
  { destruct (Z.eq_dec x 0) as [-> | Hn]; [reflexivity |].
    apply Z.log2_lt_pow2; [lia | exact H1]. }
  pose proof (Z.log2_nonneg x).
  Z.div_mod_to_equations; lia.
Qed.

Lemma sov_step (x : Z) :
  128 <= x -> sovWakuLightpush x = 1 + sovWakuLightpush (Z.shiftr x 7).
Proof.
  intros Hx.
  assert (H7 : 7 <= Z.log2 x) by (apply Z.log2_le_pow2; [lia | exact Hx]).
  rewrite (sov_log2 x) by lia.
  rewrite sov_log2 by (apply Z.shiftr_nonneg; lia).
  rewrite Z.log2_shiftr by lia. rewrite Z.max_r by lia.
  Z.div_mod_to_equations; lia.
Qed.

Lemma sov_positive (x : Z) : 0 <= x -> 1 <= sovWakuLightpush x.
Proof.
  intros Hx. rewrite sov_log2 by exact Hx.
  pose proof (Z.log2_nonneg x). Z.div_mod_to_equations; lia.
Qed.

Lemma sov_bound (x : Z) : 0 <= x -> x < 2 ^ (7 * sovWakuLightpush x).
Proof.
  intros Hx. rewrite sov_log2 by exact Hx.
  destruct (Z.eq_dec x 0) as [-> | Hn].
  - reflexivity.
  - pose proof (Z.log2_nonneg x).
    apply Z.lt_le_trans with (2 ^ (Z.log2 x + 1)).
    + replace (Z.log2 x + 1) with (Z.succ (Z.log2 x)) by lia.
      apply Z.log2_spec. lia.
    + apply Z.pow_le_mono_r; [lia |]. Z.div_mod_to_equations; lia.
Qed.

Lemma sov_least (x : Z) :
  0 <= x -> 1 < sovWakuLightpush x -> 2 ^ (7 * (sovWakuLightpush x - 1)) <= x.
Proof.
  intros Hx. rewrite sov_log2 by exact Hx. intros Hn.
  pose proof (Z.log2_nonneg x).
  assert (Hp : 0 < x).
  { destruct (Z.eq_dec x 0) as [-> | ]; [| lia].
    change (Z.log2 0) with 0 in Hn. change ((0 + 7) / 7) with 1 in Hn. lia. }
  apply Z.le_trans with (2 ^ Z.log2 x).
  - apply Z.pow_le_mono_r; [lia |]. Z.div_mod_to_equations; lia.
  - apply Z.log2_spec. exact Hp.
Qed.

Lemma sov_spec (x : Z) :
  0 <= x < 2 ^ 64 ->
  1 <= sovWakuLightpush x <= 10 /\
  x < 2 ^ (7 * sovWakuLightpush x) /\
  (1 < sovWakuLightpush x -> 2 ^ (7 * (sovWakuLightpush x - 1)) <= x).
Proof.
  intros [H0 H1]. split; [split |]; [| | split].
  - apply sov_positive. exact H0.
  - rewrite sov_log2 by exact H0.
    assert (Z.log2 x < 64).
    { destruct (Z.eq_dec x 0) as [-> | Hn]; [reflexivity |].
      apply Z.log2_lt_pow2; [lia | exact H1]. }
    Z.div_mod_to_equations; lia.
  - apply sov_bound. exact H0.
  - apply sov_least. exact H0.
Qed.

End Varints.

(** ** Writing into a buffer *)

Section Buffers.
Context `{P : Platform}.
Import pb.

Lemma len_app {A} (a b : list A) : len (a ++ b) = len a + len b.
Proof. unfold len. rewrite length_app. lia. Qed.

Lemma len_cons {A} (x : A) (a : list A) : len (x :: a) = 1 + len a.
Proof. unfold len. cbn [List.length]. lia. Qed.

Lemma len_nonneg {A} (a : list A) : 0 <= len a.
Proof. unfold len. lia. Qed.

Lemma len_nil_iff {A} (a : list A) : len a = 0 <-> a = [].
Proof.
  unfold len. destruct a; cbn [List.length]; split; intros H;
    try reflexivity; try discriminate; lia.
Qed.

Lemma length_splice (d : list Z) (k : nat) (bs : list Z) :
  (k + List.length bs <= List.length d)%nat ->
  List.length (splice d k bs) = List.length d.
Proof.
  intros H. unfold splice.
  rewrite !length_app, length_firstn, length_skipn. lia.
Qed.

Lemma splice_snoc (d : list Z) (k : nat) (b : Z) (bs : list Z) :
  (k + S (List.length bs) <= List.length d)%nat ->
  splice (splice d k [b]) (S k) bs = splice d k (b :: bs).
Proof.
  intros H. unfold splice. cbn [List.length app].
  assert (Hk : List.length (firstn k d) = k) by (rewrite length_firstn; lia).
  replace (firstn (S k) (firstn k d ++ b :: skipn (k + 1) d))
    with (firstn k d ++ [b]).
  2:{ rewrite firstn_app, Hk.
      replace (S k - k)%nat with 1%nat by lia.
      rewrite (firstn_all2 (firstn k d)) by lia. reflexivity. }
  replace (skipn (S k + List.length bs) (firstn k d ++ b :: skipn (k + 1) d))
    with (skipn (k + S (List.length bs)) d).
  2:{ rewrite skipn_app, Hk.
      rewrite (skipn_all2 (firstn k d)) by lia.
      replace (S k + List.length bs - k)%nat with (S (List.length bs)) by lia.
      cbn [skipn app]. rewrite skipn_skipn. f_equal. lia. }
  rewrite <- app_assoc. reflexivity.
Qed.

(** Writing just before a tail that reaches the end of the buffer. *)
Lemma splice_before (d : list Z) (i : nat) (tail bs : list Z) :
  (i + List.length tail = List.length d)%nat ->
  (List.length bs <= i)%nat ->
  splice (firstn i d ++ tail) (i - List.length bs) bs =
  firstn (i - List.length bs) d ++ bs ++ tail.
Proof.
  intros Ht Hb. unfold splice.
  assert (Hi : List.length (firstn i d) = i) by (rewrite length_firstn; lia).
  rewrite firstn_app, Hi.
  replace (i - List.length bs - i)%nat with 0%nat by lia.
  cbn [firstn]. rewrite app_nil_r, firstn_firstn.
  replace (Nat.min (i - List.length bs) i) with (i - List.length bs)%nat by lia.
  replace (i - List.length bs + List.length bs)%nat with i by lia.
  rewrite skipn_app, Hi, skipn_all2 by lia.
  replace (i - i)%nat with 0%nat by lia. reflexivity.
Qed.

Lemma store_splice (d : list Z) (k : nat) (b : Z) :
  (k < List.length d)%nat ->
  store d (Z.of_nat k) b = Ret (splice d k [b]).
Proof.
  intros H. unfold store, len.
  replace (0 <=? Z.of_nat k) with true by (symmetry; apply Z.leb_le; lia).
  replace (Z.of_nat k <? Z.of_nat (List.length d)) with true
    by (symmetry; apply Z.ltb_lt; lia).
  cbn [andb]. rewrite Nat2Z.id. unfold splice. cbn [List.length app].
  replace (k + 1)%nat with (S k) by lia. reflexivity.
Qed.

Lemma store_outside (d : list Z) (i b : Z) :
  i < 0 \/ len d <= i -> store d i b = Panic.
Proof.
  intros H. unfold store.
  destruct (0 <=? i) eqn:E0; [| reflexivity].
  destruct (i <? len d) eqn:E1; [| reflexivity].
  apply Z.leb_le in E0. apply Z.ltb_lt in E1. lia.
Qed.

Lemma copy_splice (d : list Z) (k : nat) (src : list Z) :
  (k + List.length src <= List.length d)%nat ->
  copy d (Z.of_nat k) src = Ret (splice d k src).
Proof.
  intros H. unfold copy, len.
  replace (0 <=? Z.of_nat k) with true by (symmetry; apply Z.leb_le; lia).
  replace (Z.of_nat k <=? Z.of_nat (List.length d)) with true
    by (symmetry; apply Z.leb_le; lia).
  cbn [andb]. rewrite Nat2Z.id.
  replace (Nat.min (List.length d - k) (List.length src)) with (List.length src)
    by lia.
  rewrite firstn_all. reflexivity.
Qed.

Lemma length_base128 (n : nat) (v : Z) : List.length (base128 n v) = n.
Proof.
  revert v. induction n as [| n IH]; intros v; [reflexivity |].
  destruct n as [| n]; [reflexivity |].
  change (base128 (S (S n)) v)
    with (uint8 (Z.lor (Z.land v 127) 128) :: base128 (S n) (Z.shiftr v 7)).
  cbn [List.length]. rewrite IH. reflexivity.
Qed.

Lemma varint_small (v : Z) : 0 <= v < 128 -> varint v = [uint8 v].
Proof.
  intros H. unfold varint. rewrite sov_small by exact H. reflexivity.
Qed.

Lemma varint_step (v : Z) :
  128 <= v ->
  varint v = uint8 (Z.lor (Z.land v 127) 128) :: varint (Z.shiftr v 7).
Proof.
  intros H. unfold varint. rewrite sov_step by exact H.
  assert (Hs : 0 <= Z.shiftr v 7) by (apply Z.shiftr_nonneg; lia).
  pose proof (sov_positive _ Hs) as Hp.
  replace (Z.to_nat (1 + sovWakuLightpush (Z.shiftr v 7)))
    with (S (Z.to_nat (sovWakuLightpush (Z.shiftr v 7)))) by lia.
  destruct (Z.to_nat (sovWakuLightpush (Z.shiftr v 7))) as [| n] eqn:E; [lia |].
  reflexivity.
Qed.

Lemma length_varint (v : Z) : len (varint v) = Z.max 0 (sovWakuLightpush v).
Proof. unfold varint, len. rewrite length_base128. lia. Qed.

Lemma len_varint (v : Z) : 0 <= v -> len (varint v) = sovWakuLightpush v.
Proof.
  intros H. rewrite length_varint. pose proof (sov_positive v H). lia.
Qed.

Lemma shiftr_7_bound (v : Z) (n : nat) :
  0 <= v < 2 ^ (7 * Z.of_nat (S n)) -> 0 <= Z.shiftr v 7 < 2 ^ (7 * Z.of_nat n).
Proof.
  intros [H0 H1]. rewrite Z.shiftr_div_pow2 by lia. split.
  - apply Z.div_pos; lia.
  - apply Z.div_lt_upper_bound; [lia |].
    rewrite <- Z.pow_add_r by lia.
    replace (7 + 7 * Z.of_nat n) with (7 * Z.of_nat (S n)) by lia. exact H1.
Qed.

(** The loop writes the varint of [v] from [offset] on. *)
Lemma encode_loop_S (fuel : nat) (d : list Z) (offset v : Z) :
  encode_loop (S fuel) d offset v =
  if 128 <=? v
  then run_bind (must (store d offset (uint8 (Z.lor (Z.land v 127) 128))))
         (fun d => encode_loop fuel d (offset + 1) (Z.shiftr v 7))
  else must (store d offset (uint8 v)).
Proof. reflexivity. Qed.

Lemma encode_loop_spec (fuel : nat) :
  forall (d : list Z) (k : nat) (v : Z),
    0 <= v < 2 ^ (7 * Z.of_nat (S fuel)) ->
    (k + List.length (varint v) <= List.length d)%nat ->
    encode_loop (S fuel) d (Z.of_nat k) v = Some (Ret (splice d k (varint v))).
Proof.
  induction fuel as [| fuel IH]; intros d k v Hv Hk;
    rewrite encode_loop_S; destruct (128 <=? v) eqn:E.
  - apply Z.leb_le in E. change (2 ^ (7 * Z.of_nat 1)) with 128 in Hv. lia.
  - apply Z.leb_gt in E. rewrite varint_small in Hk |- * by lia.
    cbn [List.length] in Hk. rewrite store_splice by lia. reflexivity.
  - apply Z.leb_le in E. rewrite varint_step in Hk |- * by exact E.
    cbn [List.length] in Hk.
    rewrite store_splice by lia. unfold must, run_bind.
    replace (Z.of_nat k + 1) with (Z.of_nat (S k)) by lia.
    rewrite IH.
    + rewrite splice_snoc by lia. reflexivity.
    + apply shiftr_7_bound. exact Hv.
    + rewrite length_splice by (cbn [List.length]; lia). lia.
  - apply Z.leb_gt in E. rewrite varint_small in Hk |- * by lia.
    cbn [List.length] in Hk. rewrite store_splice by lia. reflexivity.
Qed.

(** [encodeVarintWakuLightpush] writes the varint of [v] on the
    [sov v] bytes that end before [offset], touches no other byte, and
    returns the index of the first byte it wrote. *)
Theorem encodeVarint_writes (dAtA : list Z) (offset v : Z) :
  0 <= v < 2 ^ 64 ->
  sovWakuLightpush v <= offset <= len dAtA ->
  encodeVarintWakuLightpush dAtA offset v =
    Some (Ret (sub dAtA 0 (offset - sovWakuLightpush v) ++ varint v ++
               sub dAtA offset (len dAtA),
               offset - sovWakuLightpush v)) /\
  len (varint v) = sovWakuLightpush v.
Proof.
  intros Hv Ho. pose proof (len_varint v (proj1 Hv)) as Hl.
  split; [| exact Hl].
  unfold encodeVarintWakuLightpush.
  pose proof (sov_positive v (proj1 Hv)) as Hp.
  replace (offset - sovWakuLightpush v)
    with (Z.of_nat (Z.to_nat (offset - sovWakuLightpush v))) at 1 by lia.
  unfold len in Hl, Ho.
  change (encode_loop 10) with (encode_loop (S 9)).
  rewrite encode_loop_spec.
  - unfold run_bind, done, splice, sub. do 3 f_equal.
    rewrite Z.sub_0_r. cbn [skipn]. f_equal. f_equal.
    rewrite firstn_all2 by (rewrite length_skipn; unfold len; lia).
    f_equal. lia.
  - split; [lia |]. eapply Z.lt_le_trans; [apply Hv |].
    apply Z.pow_le_mono_r; lia.
  - lia.
Qed.

Lemma encode_no_room (dAtA : list Z) (offset v : Z) :
  0 <= v ->
  offset < sovWakuLightpush v ->
  encodeVarintWakuLightpush dAtA offset v = Some Panic.
Proof.
  intros Hv Ho. unfold encodeVarintWakuLightpush.
  change (encode_loop 10) with (encode_loop (S 9)). rewrite encode_loop_S.
  destruct (128 <=? v); rewrite store_outside by lia; reflexivity.
Qed.

End Buffers.

(** ** The encoder of [PushResponse] *)

Section BufferSteps.
Context `{P : Platform}.
Import pb.

Lemma len_put (d : list Z) (i : Z) (bs : list Z) :
  0 <= i -> i + len bs <= len d -> len (put d i bs) = len d.
Proof.
  unfold len, put. intros H0 H1. rewrite length_splice by lia. reflexivity.
Qed.

Lemma put_put (d : list Z) (i j : Z) (bs bs' : list Z) :
  0 <= j -> j + len bs' = i -> i + len bs <= len d ->
  put (put d i bs) j bs' = put d j (bs' ++ bs).
Proof.
  unfold len, put. intros H0 H1 H2.
  assert (Hi : Z.to_nat i = (Z.to_nat j + List.length bs')%nat) by lia.
  rewrite Hi. clear Hi.
  assert (Hd : (Z.to_nat j + List.length bs' + List.length bs <= List.length d)%nat)
    by lia.
  clear H0 H1 H2. revert Hd.
  generalize (Z.to_nat j). intros k Hd. unfold splice.
  assert (Hk : List.length (firstn (k + List.length bs') d) = (k + List.length bs')%nat)
    by (rewrite length_firstn; lia).
  rewrite firstn_app, Hk, firstn_firstn.
  replace (Nat.min k (k + List.length bs')) with k by lia.
  replace (k - (k + List.length bs'))%nat with 0%nat by lia.
  cbn [firstn]. rewrite app_nil_r.
  rewrite skipn_app, Hk.
  rewrite (skipn_all2 (firstn (k + List.length bs') d)) by lia.
  replace (k + List.length bs' - (k + List.length bs'))%nat with 0%nat by lia.
  cbn [skipn app]. rewrite length_app, <- !app_assoc.
  rewrite Nat.add_assoc. reflexivity.
Qed.

Lemma put_end (d : list Z) (i : Z) (bs : list Z) :
  0 <= i -> i + len bs = len d -> put d i bs = sub d 0 i ++ bs.
Proof.
  unfold len, put, splice, sub. intros H0 H1.
  rewrite skipn_all2 by lia. rewrite app_nil_r, Z.sub_0_r. reflexivity.
Qed.

Lemma copy_put (d : list Z) (i : Z) (bs : list Z) :
  0 <= i -> i + len bs <= len d -> copy d i bs = Ret (put d i bs).
Proof.
  unfold len, put. intros H0 H1.
  rewrite <- (Z2Nat.id i) at 1 by exact H0. apply copy_splice. lia.
Qed.

Lemma copy_outside (d : list Z) (i : Z) (bs : list Z) :
  i < 0 -> copy d i bs = Panic.
Proof.
  intros H. unfold copy.
  destruct (0 <=? i) eqn:E; [| reflexivity]. apply Z.leb_le in E. lia.
Qed.

Lemma store_put (d : list Z) (i b : Z) :
  0 <= i < len d -> store d i b = Ret (put d i [b]).
Proof.
  unfold len, put. intros H.
  rewrite <- (Z2Nat.id i) at 1 by lia. apply store_splice. lia.
Qed.

Lemma encode_put (d : list Z) (i v : Z) :
  0 <= v < 2 ^ 64 ->
  sovWakuLightpush v <= i <= len d ->
  encodeVarintWakuLightpush d i v =
    Some (Ret (put d (i - sovWakuLightpush v) (varint v), i - sovWakuLightpush v)).
Proof.
  intros Hv Hi. pose proof (len_varint v (proj1 Hv)) as Hl.
  pose proof (sov_positive v (proj1 Hv)) as Hp.
  unfold encodeVarintWakuLightpush, put.
  rewrite <- (Z2Nat.id (i - sovWakuLightpush v)) at 1 by lia.
  change (encode_loop 10) with (encode_loop (S 9)).
  unfold len in Hl, Hi.
  rewrite encode_loop_spec; [reflexivity | | lia].
  split; [lia |]. eapply Z.lt_le_trans; [apply Hv |].
  apply Z.pow_le_mono_r; lia.
Qed.

Lemma Info_on_the_wire (info : list Z) :
  match info with
  | [] => []
  | _ => 18 :: varint (len info) ++ info
  end = if 0 <? len info then 18 :: varint (len info) ++ info else [].
Proof.
  destruct info as [| b info]; [reflexivity |].
  rewrite len_cons. pose proof (len_nonneg info).
  replace (0 <? 1 + len info) with true by (symmetry; apply Z.ltb_lt; lia).
  reflexivity.
Qed.

Lemma uint64_fits (z : Z) : 0 <= z < 2 ^ (uint_bits - 1) -> uint64 z = z.
Proof.
  intros H. pose proof int_bits_le_64. unfold uint64.
  apply Z.mod_small. change (2 ^ 64) with (2 * 2 ^ 63). lia.
Qed.

End BufferSteps.

Ltac len_solve :=
  repeat match goal with
         | |- context [pb.len (pb.put ?d ?i ?bs)] =>
             rewrite (len_put d i bs) by len_solve
         end;
  repeat (rewrite len_app || rewrite len_cons);
  change (pb.len (@nil Z)) with 0; lia.

Ltac int_solve :=
  repeat match goal with
         | |- context [int ?z] => rewrite (int_fits z) by int_solve
         end;
  lia.

Ltac run_step :=
  cbn [pb.run_bind pb.must pb.done];
  lazymatch goal with
  | |- context [pb.copy ?d ?i ?bs] => rewrite (copy_put d i bs) by len_solve
  | |- context [pb.store ?d ?i ?b] => rewrite (store_put d i b) by len_solve
  | |- context [pb.encodeVarintWakuLightpush ?d ?i ?v] =>
      rewrite (encode_put d i v) by len_solve
  end.

Section Encoder.
Context `{P : Platform}.
Import pb.

Lemma slice_sub (d : list Z) (lo hi : Z) :
  0 <= lo <= hi -> hi <= len d -> slice d lo hi = Ret (sub d lo hi).
Proof.
  intros [H0 H1] H2. unfold slice.
  replace (0 <=? lo) with true by (symmetry; apply Z.leb_le; lia).
  replace (lo <=? hi) with true by (symmetry; apply Z.leb_le; lia).
  replace (hi <=? len d) with true by (symmetry; apply Z.leb_le; lia).
  reflexivity.
Qed.

Lemma sub_whole (d : list Z) : sub d 0 (len d) = d.
Proof.
  unfold sub, len. cbn [Z.to_nat skipn]. apply firstn_all2. lia.
Qed.

Lemma wire_length (m : PushResponse) :
  len (wire m) =
  (if IsSuccess m then 2 else 0) +
  (if 0 <? len (Info m)
   then 1 + Z.max 0 (sovWakuLightpush (len (Info m))) + len (Info m) else 0) +
  match XXX_unrecognized m with
  | Some u => len u
  | None => 0
  end.
Proof.
  unfold wire. rewrite Info_on_the_wire, !len_app.
  destruct (IsSuccess m), (0 <? len (Info m)), (XXX_unrecognized m);
    rewrite ?len_cons, ?len_app, ?length_varint;
    change (len (@nil Z)) with 0; lia.
Qed.

Lemma put_nil (d : list Z) (i : Z) : put d i [] = d.
Proof.
  unfold put, splice. cbn [app List.length]. rewrite Nat.add_0_r.
  apply firstn_skipn.
Qed.

Lemma MarshalToSizedBuffer_spec (m : PushResponse) (dAtA : list Z) :
  len (wire m) < 2 ^ (uint_bits - 1) ->
  len (wire m) <= len dAtA ->
  MarshalToSizedBuffer m dAtA =
    Some (Ret (sub dAtA 0 (len dAtA - len (wire m)) ++ wire m, len (wire m))).
Proof.
  intros Hfit Hroom. pose proof int_bits_le_64 as H64.
  rewrite wire_length in Hfit, Hroom.
  rewrite <- (put_end dAtA (len dAtA - len (wire m)) (wire m))
    by (pose proof (len_nonneg (wire m)); rewrite ?wire_length; lia).
  rewrite (wire_length m).
  unfold MarshalToSizedBuffer, wire. rewrite Info_on_the_wire.
  pose proof (len_nonneg (Info m)) as HI.
  pose proof (len_varint (len (Info m)) HI) as Hv.
  pose proof (sov_positive (len (Info m)) HI) as Hs.
  rewrite Z.max_r in Hfit, Hroom |- * by lia.
  destruct (IsSuccess m);
    (destruct (XXX_unrecognized m) as [u |];
     [pose proof (len_nonneg u) as Hu |]);
    (destruct (0 <? len (Info m)) eqn:EI;
     [apply Z.ltb_lt in EI; rewrite uint64_fits by lia
     |apply Z.ltb_ge in EI]);
    repeat run_step; cbn [run_bind must done];
    repeat (rewrite put_put by len_solve);
    cbn [app]; rewrite ?app_nil_r, <- ?app_assoc; cbn [app];
    unfold done; rewrite ?put_nil; apply f_equal, f_equal;
    (apply f_equal2; [first [reflexivity | f_equal; len_solve] | len_solve]).
Qed.

Lemma Marshal_spec (m : PushResponse) :
  len (wire m) < 2 ^ (uint_bits - 1) ->
  Marshal (Some m) = Some (Ret (wire m)) /\
  Size (Some m) = len (wire m).
Proof.
  intros Hfit.
  assert (HS : Size (Some m) = len (wire m)).
  { rewrite wire_length in Hfit |- *. unfold Size.
    pose proof (len_nonneg (Info m)) as HI.
    pose proof (sov_positive (len (Info m)) HI) as Hs.
    rewrite Z.max_r in Hfit |- * by lia.
    destruct (IsSuccess m);
      (destruct (XXX_unrecognized m) as [u |];
       [pose proof (len_nonneg u) as Hu |]);
      (destruct (0 <? len (Info m)) eqn:EI;
       [apply Z.ltb_lt in EI; rewrite uint64_fits by lia |]);
      int_solve. }
  split; [| exact HS].
  pose proof (len_nonneg (wire m)) as Hw.
  unfold Marshal. rewrite HS.
  replace (len (wire m) <? 0) with false by (symmetry; apply Z.ltb_ge; lia).
  set (buf := repeat 0 (Z.to_nat (len (wire m)))).
  assert (Hz : len buf = len (wire m))
    by (unfold buf, len; rewrite repeat_length; lia).
  rewrite <- Hz, slice_sub, sub_whole by lia.
  cbn [run_bind must]. rewrite MarshalToSizedBuffer_spec by lia.
  cbn [run_bind]. rewrite Hz, Z.sub_diag.
  change (sub buf 0 0) with (@nil Z). cbn [app].
  rewrite slice_sub, sub_whole by lia.
  reflexivity.
Qed.

End Encoder.

(** ** The decoder of [PushResponse] *)

Section Decoder.
Context `{P : Platform}.
Import pb.

Lemma decode_varint_S (conv : Z -> Z) (fuel : nat) (d : list Z) (l i shift acc : Z) :
  decode_varint conv (S fuel) d l i shift acc =
  if 64 <=? shift then done (inl ErrIntOverflowWakuLightpush)
  else if l <=? i then done (inl ErrUnexpectedEOF)
  else
    run_bind (must (load d i))
      (fun b =>
         if b <? 128
         then done (inr (Z.lor acc (conv (Z.shiftl (conv (Z.land b 127)) shift)),
                         i + 1))
         else decode_varint conv fuel d l (i + 1) (shift + 7)
                (Z.lor acc (conv (Z.shiftl (conv (Z.land b 127)) shift)))).
Proof. reflexivity. Qed.

Lemma load_middle (pre : list Z) (b : Z) (post : list Z) :
  load (pre ++ b :: post) (len pre) = Ret b.
Proof.
  unfold load, len. rewrite length_app. cbn [List.length].
  replace (0 <=? Z.of_nat (List.length pre)) with true
    by (symmetry; apply Z.leb_le; lia).
  replace (Z.of_nat (List.length pre) <? Z.of_nat (List.length pre + S (List.length post)))
    with true by (symmetry; apply Z.ltb_lt; lia).
  cbn [andb]. rewrite Nat2Z.id, nth_middle. reflexivity.
Qed.

Lemma land_127 (v : Z) : 0 <= Z.land v 127 < 128.
Proof.
  change 127 with (Z.ones 7). rewrite Z.land_ones by lia.
  apply Z.mod_pos_bound. reflexivity.
Qed.

Lemma land_127_le (v : Z) : 0 <= v -> Z.land v 127 <= v.
Proof.
  intros H. change 127 with (Z.ones 7). rewrite Z.land_ones by lia.
  apply Z.mod_le; lia.
Qed.

Lemma land_127_small (v : Z) : 0 <= v < 128 -> Z.land v 127 = v.
Proof.
  intros H. change 127 with (Z.ones 7). rewrite Z.land_ones by lia.
  apply Z.mod_small. exact H.
Qed.

(** A byte with the continuation bit. *)
Lemma continuation_byte (v : Z) :
  uint8 (Z.lor (Z.land v 127) 128) = Z.land v 127 + 128.
Proof.
  pose proof (land_127 v) as Hx.
  assert (E : Z.lor (Z.land v 127) 128 = Z.land v 127 + 128).
  { rewrite <- Z.add_lor_land.
    rewrite <- Z.land_assoc. change (Z.land 127 128) with 0.
    rewrite Z.land_0_r. lia. }
  rewrite E. unfold uint8. apply Z.mod_small.
  change (2 ^ 8) with 256. lia.
Qed.

Lemma continuation_byte_group (v : Z) :
  Z.land (Z.land v 127 + 128) 127 = Z.land v 127.
Proof.
  pose proof (land_127 v) as Hx.
  assert (E : Z.land v 127 + 128 = Z.lor (Z.land v 127) 128).
  { rewrite <- (Z.add_lor_land (Z.land v 127) 128).
    rewrite <- Z.land_assoc. change (Z.land 127 128) with 0.
    rewrite Z.land_0_r. lia. }
  rewrite E, Z.land_lor_distr_l, <- Z.land_assoc.
  change (Z.land 127 127) with 127. change (Z.land 128 127) with 0.
  apply Z.lor_0_r.
Qed.

Lemma groups_of (v : Z) : Z.lor (Z.land v 127) (Z.shiftl (Z.shiftr v 7) 7) = v.
Proof.
  rewrite <- Z.ldiff_ones_r by lia. change 127 with (Z.ones 7).
  rewrite Z.lor_comm. apply Z.lor_ldiff_and.
Qed.

Lemma shifted_group_le (v shift : Z) :
  0 <= v -> 0 <= shift -> Z.land v 127 * 2 ^ shift <= v * 2 ^ shift.
Proof.
  intros Hv Hs. apply Z.mul_le_mono_nonneg_r; [lia |].
  apply land_127_le. exact Hv.
Qed.

Lemma shifted_rest_le (v shift : Z) :
  0 <= v -> 0 <= shift -> Z.shiftr v 7 * 2 ^ (shift + 7) <= v * 2 ^ shift.
Proof.
  intros Hv Hs. rewrite Z.shiftr_div_pow2 by lia.
  rewrite Z.pow_add_r by lia. change (2 ^ 7) with 128.
  assert (0 < 2 ^ shift) by lia.
  assert (v / 128 * 128 <= v) by (Z.div_mod_to_equations; lia).
  nia.
Qed.

(** The loop reads back the groups of a value, in an integer type that holds
    the values below [B]. *)
Lemma decode_base128 (conv : Z -> Z) (B : Z) :
  (forall z, 0 <= z < B -> conv z = z) ->
  128 <= B ->
  forall (n fuel : nat) (pre : list Z) (v : Z) (post : list Z) (shift acc : Z),
    (n < fuel)%nat ->
    0 <= v < 2 ^ (7 * Z.of_nat (S n)) ->
    0 <= shift ->
    shift + 7 * Z.of_nat n < 64 ->
    v * 2 ^ shift < B ->
    decode_varint conv fuel (pre ++ base128 (S n) v ++ post)
      (len (pre ++ base128 (S n) v ++ post)) (len pre) shift acc =
    Some (Ret (inr (Z.lor acc (Z.shiftl v shift), len pre + Z.of_nat (S n)))).
Proof.
  intros Hconv HB. induction n as [| n IH];
    intros fuel pre v post shift acc Hfuel Hv Hshift H64 HvB;
    (destruct fuel as [| fuel]; [lia |]); rewrite decode_varint_S;
    replace (64 <=? shift) with false by (symmetry; apply Z.leb_gt; lia).
  - change (2 ^ (7 * Z.of_nat 1)) with 128 in Hv.
    cbn [base128 app]. rewrite len_app, len_cons.
    pose proof (len_nonneg post).
    replace (len pre + (1 + len post) <=? len pre) with false
      by (symmetry; apply Z.leb_gt; lia).
    rewrite load_middle. cbn [run_bind must].
    unfold uint8. rewrite (Z.mod_small v) by (change (2 ^ 8) with 256; lia).
    replace (v <? 128) with true by (symmetry; apply Z.ltb_lt; lia).
    rewrite land_127_small by lia.
    rewrite (Hconv v) by lia.
    rewrite Z.shiftl_mul_pow2 by lia.
    rewrite Hconv by (split; [apply Z.mul_nonneg_nonneg; lia | lia]).
    reflexivity.
  - change (base128 (S (S n)) v)
      with (uint8 (Z.lor (Z.land v 127) 128) :: base128 (S n) (Z.shiftr v 7)).
    rewrite continuation_byte. cbn [app].
    pose proof (land_127 v) as Hx.
    rewrite len_app, len_cons.
    pose proof (len_nonneg (base128 (S n) (Z.shiftr v 7) ++ post)).
    replace (len pre + (1 + len (base128 (S n) (Z.shiftr v 7) ++ post)) <=? len pre)
      with false by (symmetry; apply Z.leb_gt; lia).
    rewrite load_middle. cbn [run_bind must].
    replace (Z.land v 127 + 128 <? 128) with false
      by (symmetry; apply Z.ltb_ge; lia).
    rewrite continuation_byte_group.
    rewrite (Hconv (Z.land v 127)) by lia.
    pose proof (shifted_group_le v shift (proj1 Hv) Hshift) as Hg.
    rewrite (Z.shiftl_mul_pow2 (Z.land v 127)) by lia.
    rewrite Hconv by (split; [apply Z.mul_nonneg_nonneg; lia | lia]).
    rewrite <- Z.shiftl_mul_pow2 by lia.
    pose proof (IH fuel (pre ++ [Z.land v 127 + 128]) (Z.shiftr v 7) post
                  (shift + 7) (Z.lor acc (Z.shiftl (Z.land v 127) shift))) as IH'.
    rewrite <- !app_assoc in IH'. cbn [app] in IH'.
    rewrite !len_app, !len_cons in IH'. change (len (@nil Z)) with 0 in IH'.
    rewrite len_app in IH'.
    replace (len pre + (1 + 0)) with (len pre + 1) in IH' by lia.
    rewrite len_app.
    rewrite IH'.
    + do 3 f_equal. f_equal; [| lia].
      rewrite <- Z.lor_assoc. f_equal.
      replace (shift + 7) with (7 + shift) by lia.
      rewrite <- Z.shiftl_shiftl by lia.
      rewrite <- Z.shiftl_lor, groups_of. reflexivity.
    + lia.
    + apply shiftr_7_bound. exact Hv.
    + lia.
    + lia.
    + pose proof (shifted_rest_le v shift (proj1 Hv) Hshift). lia.
Qed.

Lemma uint64_small (z : Z) : 0 <= z < 2 ^ 64 -> uint64 z = z.
Proof. intros H. apply Z.mod_small. exact H. Qed.

(** The loop on the varint of a [uint64]. *)
Lemma decode_uint64_varint (d pre : list Z) (v : Z) (post : list Z) (i : Z) :
  0 <= v < 2 ^ 64 ->
  d = pre ++ varint v ++ post ->
  i = len pre ->
  decode_varint uint64 varint_fuel d (len d) i 0 0 =
    Some (Ret (inr (v, i + sovWakuLightpush v))).
Proof.
  intros Hv -> ->. unfold varint.
  destruct (sov_spec v Hv) as [[H1 H10] [Hb _]].
  destruct (Z.to_nat (sovWakuLightpush v)) as [| n] eqn:E; [lia |].
  rewrite (decode_base128 uint64 (2 ^ 64) uint64_small).
  - rewrite Z.shiftl_0_r, Z.lor_0_l. do 3 f_equal. f_equal. lia.
  - lia.
  - unfold varint_fuel. lia.
  - replace (Z.of_nat (S n)) with (sovWakuLightpush v) by lia.
    split; [lia | exact Hb].
  - lia.
  - lia.
  - change (2 ^ 0) with 1. lia.
Qed.

(** The loop on one byte without the continuation bit. *)
Lemma decode_byte (conv : Z -> Z) (B : Z) (d pre : list Z) (b : Z) (post : list Z) (i : Z) :
  (forall z, 0 <= z < B -> conv z = z) ->
  128 <= B ->
  0 <= b < 128 ->
  d = pre ++ b :: post ->
  i = len pre ->
  decode_varint conv varint_fuel d (len d) i 0 0 = Some (Ret (inr (b, i + 1))).
Proof.
  intros Hconv HB Hb -> ->.
  pose proof (decode_base128 conv B Hconv HB 0 varint_fuel pre b post 0 0) as H.
  cbn [base128 app] in H. unfold uint8 in H.
  rewrite (Z.mod_small b) in H by (change (2 ^ 8) with 256; lia).
  rewrite H.
  - rewrite Z.shiftl_0_r, Z.lor_0_l. reflexivity.
  - unfold varint_fuel. lia.
  - change (2 ^ (7 * Z.of_nat 1)) with 128. exact Hb.
  - lia.
  - lia.
  - change (2 ^ 0) with 1. lia.
Qed.

Lemma int_holds_a_byte : 128 <= 2 ^ (uint_bits - 1).
Proof. pose proof int_bits_ge_32. change (2 ^ 31) with 2147483648 in *. lia. Qed.

End Decoder.

(** ** Reading back what the encoder wrote *)

Section RoundTrip.
Context `{P : Platform}.
Import pb.

Lemma sub_middle (a b c : list Z) (lo hi : Z) :
  lo = len a -> hi = len a + len b -> sub (a ++ b ++ c) lo hi = b.
Proof.
  intros -> ->. unfold sub, len.
  replace (Z.of_nat (List.length a) + Z.of_nat (List.length b) - Z.of_nat (List.length a))
    with (Z.of_nat (List.length b)) by lia.
  rewrite !Nat2Z.id.
  rewrite skipn_app, skipn_all, Nat.sub_diag. cbn [skipn app].
  rewrite firstn_app, firstn_all, Nat.sub_diag. cbn [firstn].
  apply app_nil_r.
Qed.

Lemma Unmarshal_loop_end (fuel : nat) (m : PushResponse) (d : list Z) :
  Unmarshal_loop (S fuel) m d (len d) (len d) = Some (Ret (m, None)).
Proof. cbn [Unmarshal_loop]. rewrite Z.ltb_irrefl. reflexivity. Qed.

(** A turn of the loop on the field [IsSuccess]. *)
Lemma Unmarshal_loop_IsSuccess (fuel : nat) (m : PushResponse)
    (pre : list Z) (b : Z) (post : list Z) :
  0 <= b < 128 ->
  Unmarshal_loop (S fuel) m (pre ++ 8 :: b :: post)
    (len (pre ++ 8 :: b :: post)) (len pre) =
  Unmarshal_loop fuel (set_IsSuccess m (negb (b =? 0))) (pre ++ 8 :: b :: post)
    (len (pre ++ 8 :: b :: post)) (len pre + 2).
Proof.
  intros Hb. pose proof int_holds_a_byte as HB.
  set (d := pre ++ 8 :: b :: post).
  assert (Hd : len d = len pre + 2 + len post)
    by (unfold d; rewrite len_app, !len_cons; lia).
  pose proof (len_nonneg post). pose proof (len_nonneg pre).
  cbn [Unmarshal_loop].
  replace (len pre <? len d) with true by (symmetry; apply Z.ltb_lt; lia).
  rewrite (decode_byte uint64 (2 ^ 64) d pre 8 (b :: post) (len pre) uint64_small)
    by (try reflexivity; lia).
  cbn [run_bind].
  change (Z.land 8 7) with 0. change (int32 (Z.shiftr 8 3)) with 1.
  rewrite (int_fits 0) by lia.
  change (0 =? 4) with false. change (1 <=? 0) with false.
  change (negb (0 =? 0)) with false. cbv iota.
  rewrite (decode_byte int (2 ^ (uint_bits - 1)) d (pre ++ [8]) b post
             (len pre + 1) int_fits HB Hb).
  - cbn [run_bind]. f_equal. lia.
  - unfold d. rewrite <- app_assoc. reflexivity.
  - rewrite len_app. reflexivity.
Qed.

(** A turn of the loop on the field [Info]. *)
Lemma Unmarshal_loop_Info (fuel : nat) (m : PushResponse)
    (pre info post : list Z) :
  len (pre ++ 18 :: varint (len info) ++ info ++ post) < 2 ^ (uint_bits - 1) ->
  Unmarshal_loop (S fuel) m (pre ++ 18 :: varint (len info) ++ info ++ post)
    (len (pre ++ 18 :: varint (len info) ++ info ++ post)) (len pre) =
  Unmarshal_loop fuel (set_Info m info)
    (pre ++ 18 :: varint (len info) ++ info ++ post)
    (len (pre ++ 18 :: varint (len info) ++ info ++ post))
    (len pre + 1 + sovWakuLightpush (len info) + len info).
Proof.
  pose proof int_holds_a_byte as HB. pose proof int_bits_le_64 as H64.
  set (d := pre ++ 18 :: varint (len info) ++ info ++ post).
  pose proof (len_nonneg post). pose proof (len_nonneg pre).
  pose proof (len_nonneg info) as Hi.
  pose proof (len_varint (len info) Hi) as Hv.
  pose proof (sov_positive (len info) Hi) as Hs.
  assert (Hd : len d = len pre + 1 + sovWakuLightpush (len info) + len info + len post)
    by (unfold d; rewrite len_app, len_cons, !len_app; lia).
  intros Hfit.
  cbn [Unmarshal_loop].
  replace (len pre <? len d) with true by (symmetry; apply Z.ltb_lt; lia).
  rewrite (decode_byte uint64 (2 ^ 64) d pre 18
             (varint (len info) ++ info ++ post) (len pre) uint64_small)
    by (try reflexivity; lia).
  cbn [run_bind].
  change (Z.land 18 7) with 2. change (int32 (Z.shiftr 18 3)) with 2.
  rewrite (int_fits 2) by lia.
  change (2 =? 4) with false. change (2 <=? 0) with false.
  change (negb (2 =? 2)) with false. cbv iota.
  rewrite (decode_uint64_varint d (pre ++ [18]) (len info) (info ++ post)
             (len pre + 1)).
  - cbn [run_bind].
    rewrite (int_fits (len info)) by lia.
    replace (len info <? 0) with false by (symmetry; apply Z.ltb_ge; lia).
    rewrite int_fits by lia.
    replace (len pre + 1 + sovWakuLightpush (len info) + len info <? 0)
      with false by (symmetry; apply Z.ltb_ge; lia).
    replace (len d <? len pre + 1 + sovWakuLightpush (len info) + len info)
      with false by (symmetry; apply Z.ltb_ge; lia).
    rewrite slice_sub by lia. cbn [run_bind must].
    unfold d at 1.
    replace (pre ++ 18 :: varint (len info) ++ info ++ post)
      with ((pre ++ 18 :: varint (len info)) ++ info ++ post)
      by (rewrite <- app_assoc; reflexivity).
    rewrite sub_middle by (rewrite len_app, len_cons; lia).
    reflexivity.
  - change (2 ^ 64) with (2 * 2 ^ 63). lia.
  - unfold d. rewrite <- app_assoc. reflexivity.
  - rewrite len_app. reflexivity.
Qed.

Lemma fields_length (m : PushResponse) :
  (fields m <= List.length (wire m))%nat.
Proof.
  unfold fields, wire.
  destruct (IsSuccess m), (Info m);
    rewrite !length_app; cbn [List.length Nat.add]; lia.
Qed.

(** The loop on the fields of a message without unrecognized bytes. *)
Lemma Unmarshal_loop_wire (fuel : nat) (m0 m : PushResponse) (pre post : list Z) :
  XXX_unrecognized m = None ->
  len (pre ++ wire m ++ post) < 2 ^ (uint_bits - 1) ->
  Unmarshal_loop (fields m + fuel) m0 (pre ++ wire m ++ post)
    (len (pre ++ wire m ++ post)) (len pre) =
  Unmarshal_loop fuel (merge m0 m) (pre ++ wire m ++ post)
    (len (pre ++ wire m ++ post)) (len pre + len (wire m)).
Proof.
  destruct m as [s info u]. cbn [XXX_unrecognized]. intros -> .
  unfold wire, fields, merge.
  cbn [IsSuccess Info XXX_unrecognized]. rewrite !app_nil_r.
  destruct s; destruct info as [| c info']; cbv iota;
    try set (info := c :: info'); cbn [app Nat.add]; rewrite ?app_nil_r;
    intros Hfit.
  - rewrite Unmarshal_loop_IsSuccess by lia.
    change (negb (1 =? 0)) with true. destruct m0; reflexivity.
  - rewrite Unmarshal_loop_IsSuccess by lia.
    change (negb (1 =? 0)) with true.
    replace (pre ++ 8 :: 1 :: 18 :: (varint (len info) ++ info) ++ post)
      with ((pre ++ [8; 1]) ++ 18 :: varint (len info) ++ info ++ post) in *
      by (rewrite <- !app_assoc; reflexivity).
    replace (len pre + 2) with (len (pre ++ [8; 1]))
      by (rewrite len_app; reflexivity).
    rewrite Unmarshal_loop_Info by exact Hfit.
    pose proof (len_varint (len info) (len_nonneg info)) as Hv.
    f_equal. rewrite !len_app, !len_cons, len_app.
    change (len (@nil Z)) with 0. lia.
  - destruct m0; cbn [IsSuccess Info XXX_unrecognized].
    change (len (@nil Z)) with 0. rewrite Z.add_0_r. reflexivity.
  - replace (pre ++ 18 :: (varint (len info) ++ info) ++ post)
      with (pre ++ 18 :: varint (len info) ++ info ++ post) in *
      by (rewrite <- !app_assoc; reflexivity).
    rewrite Unmarshal_loop_Info by exact Hfit.
    pose proof (len_varint (len info) (len_nonneg info)) as Hv.
    f_equal. rewrite !len_cons, len_app. lia.
Qed.

Lemma Unmarshal_two (m0 m1 m2 : PushResponse) :
  XXX_unrecognized m1 = None ->
  XXX_unrecognized m2 = None ->
  len (wire m1 ++ wire m2) < 2 ^ (uint_bits - 1) ->
  Unmarshal m0 (wire m1 ++ wire m2) = Some (Ret (merge (merge m0 m1) m2, None)).
Proof.
  intros H1 H2 Hfit. unfold Unmarshal.
  pose proof (fields_length m1) as F1. pose proof (fields_length m2) as F2.
  set (d := wire m1 ++ wire m2) in *.
  assert (Hd : List.length d = (List.length (wire m1) + List.length (wire m2))%nat)
    by (unfold d; apply length_app).
  replace (S (List.length d))
    with (fields m1 + (fields m2 + S (List.length d - fields m1 - fields m2)))%nat
    by lia.
  pose proof (Unmarshal_loop_wire
                (fields m2 + S (List.length d - fields m1 - fields m2))
                m0 m1 [] (wire m2) H1) as E1.
  cbn [app] in E1. fold d in E1. change (len (@nil Z)) with 0 in E1.
  rewrite E1 by exact Hfit. clear E1.
  pose proof (Unmarshal_loop_wire (S (List.length d - fields m1 - fields m2))
                (merge m0 m1) m2 (wire m1) [] H2) as E2.
  rewrite app_nil_r in E2. fold d in E2.
  rewrite Z.add_0_l, E2 by exact Hfit. clear E2.
  replace (len (wire m1) + len (wire m2)) with (len d)
    by (unfold d; rewrite len_app; reflexivity).
  apply Unmarshal_loop_end.
Qed.

Lemma merge_zero (m : PushResponse) :
  XXX_unrecognized m = None -> merge zero m = m.
Proof.
  destruct m as [s info u]. cbn [XXX_unrecognized]. intros ->.
  unfold merge, zero. cbn [IsSuccess Info XXX_unrecognized].
  destruct s, info; reflexivity.
Qed.

Lemma wire_zero : wire zero = [].
Proof. reflexivity. Qed.

(** A message without unrecognized bytes survives the wire: [Marshal]
    returns bytes from which [Unmarshal], on a zero message, rebuilds the
    message and returns no error. *)
Theorem Unmarshal_Marshal (m : PushResponse) :
  XXX_unrecognized m = None ->
  len (wire m) < 2 ^ (uint_bits - 1) ->
  exists dAtA,
    Marshal (Some m) = Some (Ret dAtA) /\
    Unmarshal zero dAtA = Some (Ret (m, None)).
Proof.
  intros Hu Hfit. exists (wire m). split.
  - apply Marshal_spec. exact Hfit.
  - pose proof (Unmarshal_two zero m zero Hu eq_refl) as H.
    rewrite wire_zero, app_nil_r in H. rewrite H by exact Hfit.
    rewrite (merge_zero m Hu). unfold merge, zero.
    cbn [IsSuccess Info XXX_unrecognized]. destruct m; reflexivity.
Qed.

(** [Unmarshal] merges: on the encodings of two messages one after
    the other it leaves the receiver with the fields of the second over
    those of the first over its own; a field that is on the wire of neither
    keeps the receiver's value. *)
Theorem Unmarshal_merges (m0 m1 m2 : PushResponse) :
  XXX_unrecognized m1 = None ->
  XXX_unrecognized m2 = None ->
  len (wire m1 ++ wire m2) < 2 ^ (uint_bits - 1) ->
  Unmarshal m0 (wire m1 ++ wire m2) = Some (Ret (merge (merge m0 m1) m2, None)) /\
  IsSuccess (merge (merge m0 m1) m2) = IsSuccess m0 || IsSuccess m1 || IsSuccess m2 /\
  Info (merge (merge m0 m1) m2) =
    match Info m2, Info m1 with
    | _ :: _, _ => Info m2
    | [], _ :: _ => Info m1
    | [], [] => Info m0
    end.
Proof.
  intros H1 H2 Hfit. split; [apply Unmarshal_two; assumption |].
  unfold merge. cbn [IsSuccess Info]. split.
  - destruct (IsSuccess m0), (IsSuccess m1), (IsSuccess m2); reflexivity.
  - destruct (Info m2), (Info m1); reflexivity.
Qed.

End RoundTrip.

(** ** The decoder on any input *)

Section Ranges.

Lemma land_le (x y : Z) : 0 <= x -> Z.land x y <= x.
Proof.
  intros Hx.
  assert (D : Z.land (Z.ldiff x y) (Z.land x y) = 0).
  { rewrite (Z.land_comm x y), Z.land_assoc, Z.land_ldiff. apply Z.land_0_l. }
  pose proof (Z.add_lor_land (Z.ldiff x y) (Z.land x y)) as E.
  rewrite D, Z.lor_ldiff_and in E.
  assert (0 <= Z.ldiff x y) by (apply Z.ldiff_nonneg; left; exact Hx).
  lia.
Qed.

Lemma lor_below (k p q : Z) :
  0 < k -> 0 <= p < 2 ^ k -> 0 <= q < 2 ^ k -> 0 <= Z.lor p q < 2 ^ k.
Proof.
  intros Hk Hp Hq.
  assert (H0 : 0 <= Z.lor p q) by (apply Z.lor_nonneg; lia).
  split; [exact H0 |].
  destruct (Z.eq_dec (Z.lor p q) 0) as [E | E]; [rewrite E; lia |].
  apply Z.log2_lt_pow2; [lia |].
  rewrite Z.log2_lor by lia.
  assert (Z.log2 p < k).
  { destruct (Z.eq_dec p 0) as [-> | ]; [exact Hk |].
    apply Z.log2_lt_pow2; lia. }
  assert (Z.log2 q < k).
  { destruct (Z.eq_dec q 0) as [-> | ]; [exact Hk |].
    apply Z.log2_lt_pow2; lia. }
  lia.
Qed.

Lemma land_signed (k x y : Z) :
  0 < k ->
  - 2 ^ k <= x < 2 ^ k -> - 2 ^ k <= y < 2 ^ k ->
  - 2 ^ k <= Z.land x y < 2 ^ k.
Proof.
  intros Hk Hx Hy.
  destruct (Z_lt_dec x 0) as [Nx | Px].
  - destruct (Z_lt_dec y 0) as [Ny | Py].
    + rewrite <- (Z.lnot_involutive (Z.land x y)), Z.lnot_land.
      pose proof (lor_below k (Z.lnot x) (Z.lnot y) Hk) as H.
      rewrite !Z.lnot_eq_pred_opp in *. lia.
    + pose proof (land_le y x ltac:(lia)) as H.
      rewrite Z.land_comm in H.
      assert (0 <= Z.land x y) by (apply Z.land_nonneg; lia). lia.
  - pose proof (land_le x y ltac:(lia)) as H.
    assert (0 <= Z.land x y) by (apply Z.land_nonneg; lia). lia.
Qed.

Lemma lor_signed (k x y : Z) :
  0 < k ->
  - 2 ^ k <= x < 2 ^ k -> - 2 ^ k <= y < 2 ^ k ->
  - 2 ^ k <= Z.lor x y < 2 ^ k.
Proof.
  intros Hk Hx Hy.
  rewrite <- (Z.lnot_involutive (Z.lor x y)), Z.lnot_lor.
  pose proof (land_signed k (Z.lnot x) (Z.lnot y) Hk) as H.
  rewrite !Z.lnot_eq_pred_opp in *. lia.
Qed.

End Ranges.

Section Safety.
Context `{P : Platform}.
Import pb.

Lemma int_range (z : Z) : - 2 ^ (uint_bits - 1) <= int z < 2 ^ (uint_bits - 1).
Proof.
  unfold int.
  destruct uint_bits_spec as [E | E]; rewrite E;
    change (2 ^ (32 - 1)) with 2147483648; change (2 ^ 32) with 4294967296;
    change (2 ^ (64 - 1)) with 9223372036854775808;
    change (2 ^ 64) with 18446744073709551616;
    Z.div_mod_to_equations; lia.
Qed.

(** The sum of two indexes wraps to a negative [int] or does not wrap. *)
Lemma int_add (a b : Z) :
  0 <= a < 2 ^ (uint_bits - 1) -> 0 <= b < 2 ^ (uint_bits - 1) ->
  int (a + b) < 0 \/ int (a + b) = a + b.
Proof.
  unfold int.
  destruct uint_bits_spec as [E | E]; rewrite E;
    change (2 ^ (32 - 1)) with 2147483648; change (2 ^ 32) with 4294967296;
    change (2 ^ (64 - 1)) with 9223372036854775808;
    change (2 ^ 64) with 18446744073709551616;
    intros Ha Hb; Z.div_mod_to_equations; lia.
Qed.

Lemma int_width : 0 < uint_bits - 1.
Proof. destruct uint_bits_spec as [E | E]; rewrite E; lia. Qed.

Lemma load_in_range (d : list Z) (i : Z) :
  0 <= i < len d -> exists b, load d i = Ret b.
Proof.
  intros H. unfold load.
  replace (0 <=? i) with true by (symmetry; apply Z.leb_le; lia).
  replace (i <? len d) with true by (symmetry; apply Z.ltb_lt; lia).
  eexists. reflexivity.
Qed.

(** A varint loop returns, with an error or with an index further on and
    within the input; its accumulator stays in a set that the conversion
    lands in and that the bitwise or preserves. *)
Lemma decode_varint_returns (conv : Z -> Z) (I : Z -> Prop) (d : list Z) (l : Z) :
  (forall acc x, I acc -> I (Z.lor acc (conv x))) ->
  l <= len d ->
  forall (fuel : nat) (i shift acc : Z),
    0 <= i -> 70 <= shift + 7 * Z.of_nat fuel -> I acc ->
    exists r,
      decode_varint conv (S fuel) d l i shift acc = Some (Ret r) /\
      match r with
      | inl _ => True
      | inr (v, i') => i < i' <= l /\ I v
      end.
Proof.
  intros HI Hl. induction fuel as [| fuel IH]; intros i shift acc Hi Hf Hacc;
    rewrite decode_varint_S;
    (destruct (64 <=? shift) eqn:E64;
     [eexists; split; [reflexivity | exact Logic.I] |]);
    apply Z.leb_gt in E64; [lia |].
  destruct (l <=? i) eqn:El;
    [eexists; split; [reflexivity | exact Logic.I] |].
  apply Z.leb_gt in El.
  destruct (load_in_range d i ltac:(lia)) as [b Hb]. rewrite Hb.
  cbn [run_bind must].
  destruct (b <? 128).
  - eexists. split; [reflexivity |]. split; [lia | apply HI; exact Hacc].
  - destruct (IH (i + 1) (shift + 7)
                (Z.lor acc (conv (Z.shiftl (conv (Z.land b 127)) shift))))
      as [r [Hr Hp]]; [lia | lia | apply HI; exact Hacc |].
    exists r. split; [exact Hr |].
    destruct r as [e | [v i']]; [exact Logic.I |]. split; [lia | apply Hp].
Qed.

Lemma skip_varint_S (fuel : nat) (d : list Z) (l i shift : Z) :
  skip_varint (S fuel) d l i shift =
  if 64 <=? shift then done (inl ErrIntOverflowWakuLightpush)
  else if l <=? i then done (inl ErrUnexpectedEOF)
  else
    run_bind (must (load d (i + 1 - 1)))
      (fun b =>
         if b <? 128 then done (inr (i + 1))
         else skip_varint fuel d l (i + 1) (shift + 7)).
Proof. reflexivity. Qed.

Lemma skip_varint_returns (d : list Z) (l : Z) :
  l <= len d ->
  forall (fuel : nat) (i shift : Z),
    0 <= i -> 70 <= shift + 7 * Z.of_nat fuel ->
    exists r,
      skip_varint (S fuel) d l i shift = Some (Ret r) /\
      match r with
      | inl _ => True
      | inr i' => i < i' <= l
      end.
Proof.
  intros Hl. induction fuel as [| fuel IH]; intros i shift Hi Hf;
    rewrite skip_varint_S;
    (destruct (64 <=? shift) eqn:E64;
     [eexists; split; [reflexivity | exact Logic.I] |]);
    apply Z.leb_gt in E64; [lia |].
  destruct (l <=? i) eqn:El;
    [eexists; split; [reflexivity | exact Logic.I] |].
  apply Z.leb_gt in El.
  destruct (load_in_range d (i + 1 - 1) ltac:(lia)) as [b Hb]. rewrite Hb.
  cbn [run_bind must].
  destruct (b <? 128).
  - eexists. split; [reflexivity |]. cbv iota. lia.
  - destruct (IH (i + 1) (shift + 7)) as [r [Hr Hp]]; [lia | lia |].
    exists r. split; [exact Hr |].
    destruct r as [e | i']; [exact Logic.I |]. lia.
Qed.

Lemma tag_returns (d : list Z) (i : Z) :
  0 <= i ->
  exists r,
    decode_varint uint64 varint_fuel d (len d) i 0 0 = Some (Ret r) /\
    match r with
    | inl _ => True
    | inr (_, i') => i < i' <= len d
    end.
Proof.
  intros Hi.
  destruct (decode_varint_returns uint64 (fun _ => True) d (len d)
              ltac:(intros; exact Logic.I) ltac:(lia) 10 i 0 0 Hi ltac:(lia)
              Logic.I) as [r [Hr Hp]].
  exists r. split; [exact Hr |].
  destruct r as [e | [v i']]; [exact Logic.I | apply Hp].
Qed.

Lemma int_varint_returns (d : list Z) (i : Z) :
  0 <= i ->
  exists r,
    decode_varint int varint_fuel d (len d) i 0 0 = Some (Ret r) /\
    match r with
    | inl _ => True
    | inr (v, i') =>
      i < i' <= len d /\ - 2 ^ (uint_bits - 1) <= v < 2 ^ (uint_bits - 1)
    end.
Proof.
  intros Hi. pose proof int_width as Hw.
  apply (decode_varint_returns int
           (fun v => - 2 ^ (uint_bits - 1) <= v < 2 ^ (uint_bits - 1))
           d (len d)); try lia.
  intros acc x Hacc. apply lor_signed; [exact Hw | exact Hacc | apply int_range].
Qed.

(** The wire type of a tag. *)
Lemma wire_type_cases (wire : Z) :
  let t := int (Z.land wire 7) in
  t = 0 \/ t = 1 \/ t = 2 \/ t = 3 \/ t = 4 \/ t = 5 \/ t = 6 \/ t = 7.
Proof.
  assert (H : 0 <= Z.land wire 7 < 8).
  { change 7 with (Z.ones 3). rewrite Z.land_ones by lia.
    apply Z.mod_pos_bound. reflexivity. }
  pose proof int_holds_a_byte. cbv zeta. rewrite int_fits by lia. lia.
Qed.

Lemma after_switch_returns (again : Z -> Z -> Run (Z * option DecodeError))
    (i i' depth : Z) :
  i' < 0 \/ i < i' < 2 ^ (uint_bits - 1) ->
  (forall depth', i < i' ->
     exists r, again i' depth' = Some (Ret r) /\ skipped i' r) ->
  exists r, after_switch again i' depth = Some (Ret r) /\ skipped i r.
Proof.
  intros Hi Hagain. unfold after_switch.
  destruct (i' <? 0) eqn:E.
  - eexists. split; [reflexivity |]. intros H. discriminate H.
  - apply Z.ltb_ge in E.
    destruct (depth =? 0).
    + eexists. split; [reflexivity |]. intros _. cbn [fst]. lia.
    + destruct (Hagain depth ltac:(lia)) as [r [Hr Hp]].
      exists r. split; [exact Hr |]. intros Hn. specialize (Hp Hn). lia.
Qed.

Lemma skip_loop_S (fuel : nat) (d : list Z) (l i depth : Z) :
  skip_loop (S fuel) d l i depth =
  if i <? l
  then
    run_bind (decode_varint uint64 varint_fuel d l i 0 0)
      (fun r =>
         match r with
         | inl err => done (0, Some err)
         | inr (wire, i) =>
           match int (Z.land wire 7) with
           | 0 =>
             run_bind (skip_varint varint_fuel d l i 0)
               (fun r =>
                  match r with
                  | inl err => done (0, Some err)
                  | inr i => after_switch (skip_loop fuel d l) i depth
                  end)
           | 1 => after_switch (skip_loop fuel d l) (int (i + 8)) depth
           | 2 =>
             run_bind (decode_varint int varint_fuel d l i 0 0)
               (fun r =>
                  match r with
                  | inl err => done (0, Some err)
                  | inr (length, i) =>
                    if length <? 0
                    then done (0, Some ErrInvalidLengthWakuLightpush)
                    else after_switch (skip_loop fuel d l) (int (i + length)) depth
                  end)
           | 3 => after_switch (skip_loop fuel d l) i (int (depth + 1))
           | 4 =>
             if depth =? 0
             then done (0, Some ErrUnexpectedEndOfGroupWakuLightpush)
             else after_switch (skip_loop fuel d l) i (int (depth - 1))
           | 5 => after_switch (skip_loop fuel d l) (int (i + 4)) depth
           | _ => done (0, Some (ErrIllegalWireType (int (Z.land wire 7))))
           end
         end)
  else done (0, Some ErrUnexpectedEOF).
Proof. reflexivity. Qed.

Ltac failed_skip :=
  eexists; split; [reflexivity | intros H; discriminate H].

Lemma skip_loop_returns (d : list Z) :
  len d < 2 ^ (uint_bits - 1) ->
  forall (fuel : nat) (i depth : Z),
    0 <= i -> len d - i <= Z.of_nat fuel ->
    exists r, skip_loop (S fuel) d (len d) i depth = Some (Ret r) /\ skipped i r.
Proof.
  intros Hd. pose proof int_holds_a_byte as HB.
  induction fuel as [| fuel IH]; intros i depth Hi Hf; rewrite skip_loop_S;
    (destruct (i <? len d) eqn:El; [apply Z.ltb_lt in El | failed_skip]);
    [lia |].
  destruct (tag_returns d i Hi) as [r [Hr Hp]]. rewrite Hr. cbn [run_bind].
  destruct r as [e | [wire i1]]; [failed_skip |].
  assert (Hnext : forall i' depth', i1 <= i' ->
            exists r, skip_loop (S fuel) d (len d) i' depth' = Some (Ret r) /\
                      skipped i' r)
    by (intros i' depth' Hlt; apply IH; lia).
  destruct (wire_type_cases wire) as [E | [E | [E | [E | [E | [E | [E | E]]]]]]];
    cbv zeta in E; rewrite E; cbv iota.
  - destruct (skip_varint_returns d (len d) ltac:(lia) 10 i1 0 ltac:(lia) ltac:(lia))
      as [r [Hr' Hp']].
    change (skip_varint varint_fuel) with (skip_varint 11). rewrite Hr'.
    cbn [run_bind]. destruct r as [e | i2]; [failed_skip |].
    apply after_switch_returns; [lia |].
    intros depth' _. destruct (Hnext i2 depth' ltac:(lia)) as [r [H1 H2]].
    exists r. split; [exact H1 | exact H2].
  - destruct (int_add i1 8 ltac:(lia) ltac:(lia)) as [Hn | He];
      (apply after_switch_returns; [pose proof (int_range (i1 + 8)); lia |]).
    + intros depth' Hlt. apply Hnext. lia.
    + intros depth' Hlt. apply Hnext. lia.
  - destruct (int_varint_returns d i1 ltac:(lia)) as [r [Hr' Hp']].
    rewrite Hr'. cbn [run_bind]. destruct r as [e | [length i2]]; [failed_skip |].
    destruct (length <? 0) eqn:EL; [failed_skip |]. apply Z.ltb_ge in EL.
    destruct (int_add i2 length ltac:(lia) ltac:(lia)) as [Hn | He];
      (apply after_switch_returns;
       [pose proof (int_range (i2 + length)); lia |]);
      intros depth' Hlt; apply Hnext; lia.
  - apply after_switch_returns; [lia |]. intros depth' _. apply Hnext. lia.
  - destruct (depth =? 0); [failed_skip |].
    apply after_switch_returns; [lia |]. intros depth' _. apply Hnext. lia.
  - destruct (int_add i1 4 ltac:(lia) ltac:(lia)) as [Hn | He];
      (apply after_switch_returns; [pose proof (int_range (i1 + 4)); lia |]);
      intros depth' Hlt; apply Hnext; lia.
  - failed_skip.
  - failed_skip.
Qed.

Lemma skipWakuLightpush_skips (d : list Z) :
  len d < 2 ^ (uint_bits - 1) ->
  exists r, skipWakuLightpush d = Some (Ret r) /\ skipped 0 r.
Proof.
  intros Hd. unfold skipWakuLightpush.
  apply skip_loop_returns; [exact Hd | lia | unfold len; lia].
Qed.

Lemma Unmarshal_loop_S (fuel : nat) (m : PushResponse) (d : list Z) (l i : Z) :
  Unmarshal_loop (S fuel) m d l i =
  if i <? l
  then
    run_bind (decode_varint uint64 varint_fuel d l i 0 0)
      (fun r =>
         match r with
         | inl err => done (m, Some err)
         | inr (wire, i1) =>
           if int (Z.land wire 7) =? 4 then done (m, Some ErrEndGroupForNonGroup)
           else if int32 (Z.shiftr wire 3) <=? 0
           then done (m, Some (ErrIllegalTag (int32 (Z.shiftr wire 3)) wire))
           else
             match int32 (Z.shiftr wire 3) with
             | 1 =>
               if negb (int (Z.land wire 7) =? 0)
               then done (m, Some (ErrWrongWireType (int (Z.land wire 7)) "IsSuccess"))
               else
                 run_bind (decode_varint int varint_fuel d l i1 0 0)
                   (fun r =>
                      match r with
                      | inl err => done (m, Some err)
                      | inr (v, i2) =>
                        Unmarshal_loop fuel (set_IsSuccess m (negb (v =? 0))) d l i2
                      end)
             | 2 =>
               if negb (int (Z.land wire 7) =? 2)
               then done (m, Some (ErrWrongWireType (int (Z.land wire 7)) "Info"))
               else
                 run_bind (decode_varint uint64 varint_fuel d l i1 0 0)
                   (fun r =>
                      match r with
                      | inl err => done (m, Some err)
                      | inr (stringLen, i2) =>
                        if int stringLen <? 0
                        then done (m, Some ErrInvalidLengthWakuLightpush)
                        else if int (i2 + int stringLen) <? 0
                        then done (m, Some ErrInvalidLengthWakuLightpush)
                        else if l <? int (i2 + int stringLen)
                        then done (m, Some ErrUnexpectedEOF)
                        else
                          run_bind (must (slice d i2 (int (i2 + int stringLen))))
                            (fun info =>
                               Unmarshal_loop fuel (set_Info m info) d l
                                 (int (i2 + int stringLen)))
                      end)
             | _ =>
               run_bind (must (slice d i (len d)))
                 (fun rest =>
                    run_bind (skipWakuLightpush rest)
                      (fun r =>
                         match r with
                         | (_, Some err) => done (m, Some err)
                         | (skippy, None) =>
                           if (skippy <? 0) || (int (i + skippy) <? 0)
                           then done (m, Some ErrInvalidLengthWakuLightpush)
                           else if l <? int (i + skippy)
                           then done (m, Some ErrUnexpectedEOF)
                           else
                             run_bind (must (slice d i (int (i + skippy))))
                               (fun unknown =>
                                  Unmarshal_loop fuel
                                    (set_XXX_unrecognized m
                                       (append (XXX_unrecognized m) unknown))
                                    d l (int (i + skippy)))
                         end))
             end
         end)
  else done (m, if l <? i then Some ErrUnexpectedEOF else None).
Proof. reflexivity. Qed.

Lemma field_number_default {A : Type} (fieldNum : Z) (a b c : A) :
  fieldNum <> 1 -> fieldNum <> 2 ->
  match fieldNum with
  | 1 => a
  | 2 => b
  | _ => c
  end = c.
Proof.
  intros H1 H2.
  destruct fieldNum as [| [[p | p |] | [p | p |] |] | p];
    try reflexivity; congruence.
Qed.

Lemma len_sub_le (d : list Z) (lo hi : Z) : len (sub d lo hi) <= len d.
Proof.
  unfold len, sub. rewrite length_firstn, length_skipn. lia.
Qed.

Ltac returned := eexists; reflexivity.

Lemma Unmarshal_loop_returns (d : list Z) :
  len d < 2 ^ (uint_bits - 1) ->
  forall (fuel : nat) (m : PushResponse) (i : Z),
    0 <= i <= len d -> len d - i <= Z.of_nat fuel ->
    exists r, Unmarshal_loop (S fuel) m d (len d) i = Some (Ret r).
Proof.
  intros Hd. pose proof int_holds_a_byte as HB.
  induction fuel as [| fuel IH]; intros m i Hi Hf; rewrite Unmarshal_loop_S;
    (destruct (i <? len d) eqn:El; [apply Z.ltb_lt in El | returned]);
    [lia |].
  destruct (tag_returns d i ltac:(lia)) as [r [Hr Hp]]. rewrite Hr.
  cbn [run_bind].
  destruct r as [e | [wire i1]]; [returned |].
  destruct (int (Z.land wire 7) =? 4); [returned |].
  destruct (int32 (Z.shiftr wire 3) <=? 0); [returned |].
  destruct (Z.eq_dec (int32 (Z.shiftr wire 3)) 1) as [E1 | N1];
    [| destruct (Z.eq_dec (int32 (Z.shiftr wire 3)) 2) as [E2 | N2]].
  - rewrite E1. cbv iota.
    destruct (negb (int (Z.land wire 7) =? 0)); [returned |].
    destruct (int_varint_returns d i1 ltac:(lia)) as [r [Hr' Hp']].
    rewrite Hr'. cbn [run_bind].
    destruct r as [e | [v i2]]; [returned |].
    apply IH; lia.
  - rewrite E2. cbv iota.
    destruct (negb (int (Z.land wire 7) =? 2)); [returned |].
    destruct (tag_returns d i1 ltac:(lia)) as [r [Hr' Hp']].
    rewrite Hr'. cbn [run_bind].
    destruct r as [e | [stringLen i2]]; [returned |].
    destruct (int stringLen <? 0) eqn:EL; [returned |]. apply Z.ltb_ge in EL.
    pose proof (int_range stringLen) as HR.
    destruct (int (i2 + int stringLen) <? 0) eqn:EP; [returned |].
    apply Z.ltb_ge in EP.
    destruct (len d <? int (i2 + int stringLen)) eqn:EE; [returned |].
    apply Z.ltb_ge in EE.
    destruct (int_add i2 (int stringLen)) as [Hn | He];
      [lia | lia | exfalso; lia |].
    rewrite slice_sub by lia. cbn [run_bind must].
    apply IH; lia.
  - rewrite field_number_default by assumption.
    rewrite slice_sub by lia. cbn [run_bind must].
    pose proof (len_sub_le d i (len d)) as Hrest.
    destruct (skipWakuLightpush_skips (sub d i (len d)) ltac:(lia))
      as [[skippy err] [Hs Hk]].
    rewrite Hs. cbn [run_bind].
    destruct err as [err |]; [returned |].
    specialize (Hk eq_refl). cbn [fst] in Hk.
    destruct ((skippy <? 0) || (int (i + skippy) <? 0)) eqn:EN; [returned |].
    apply orb_false_elim in EN. destruct EN as [_ EN]. apply Z.ltb_ge in EN.
    destruct (len d <? int (i + skippy)) eqn:EE; [returned |].
    apply Z.ltb_ge in EE.
    destruct (int_add i skippy ltac:(lia) ltac:(lia)) as [Hn | He];
      [exfalso; lia |].
    rewrite slice_sub by lia. cbn [run_bind must].
    apply IH; lia.
Qed.

End Safety.

(** ** The wire format, for its users *)

Ltac short_step :=
  cbn [pb.run_bind pb.must pb.done];
  lazymatch goal with
  | |- context [pb.copy ?d ?i ?bs] =>
      destruct (Z_lt_dec i 0);
      [rewrite (copy_outside d i bs) by assumption; reflexivity
      |rewrite (copy_put d i bs) by len_solve]
  | |- context [pb.encodeVarintWakuLightpush ?d ?i ?v] =>
      destruct (Z_lt_dec i (pb.sovWakuLightpush v));
      [rewrite (encode_no_room d i v) by lia; reflexivity
      |rewrite (encode_put d i v) by len_solve]
  | |- context [pb.store ?d ?i ?b] =>
      destruct (Z_lt_dec i 0);
      [rewrite (store_outside d i b) by (left; assumption); reflexivity
      |rewrite (store_put d i b) by len_solve]
  end.

Section WireFormat.
Context `{P : Platform}.
Import pb.

(** The size of a varint is the number of groups of seven bits its value
    needs: between one and ten for a [uint64], enough to hold the value, and
    no more than that. *)
Theorem sov_groups (x : Z) :
  0 <= x < 2 ^ 64 ->
  1 <= sovWakuLightpush x <= 10 /\
  x < 2 ^ (7 * sovWakuLightpush x) /\
  (1 < sovWakuLightpush x -> 2 ^ (7 * (sovWakuLightpush x - 1)) <= x).
Proof. apply sov_spec. Qed.

Lemma lxor_ones (n y : Z) :
  0 <= n -> 0 <= y < 2 ^ n -> Z.lxor y (Z.ones n) = 2 ^ n - 1 - y.
Proof.
  intros Hn Hy.
  assert (Hl : y = 0 \/ Z.log2 y < n).
  { destruct (Z.eq_dec y 0) as [-> | ]; [left; reflexivity | right].
    apply Z.log2_lt_pow2; lia. }
  rewrite Z.ones_equiv.
  destruct Hl as [-> | Hl]; [rewrite Z.lxor_0_l; lia |].
  rewrite <- Z.ones_equiv.
  rewrite <- Z.ldiff_ones_l_low by lia.
  rewrite <- Z.sub_nocarry_ldiff by (apply Z.ldiff_ones_r_low; lia).
  rewrite Z.ones_equiv. lia.
Qed.

(** [sozWakuLightpush] is the size of the varint of the zigzag code of a
    signed value: twice the value when it is not negative, twice its
    opposite less one when it is. *)
Theorem soz_zigzag (n : Z) :
  - 2 ^ 63 <= n < 2 ^ 63 ->
  sozWakuLightpush (uint64 n) =
  sovWakuLightpush (if n <? 0 then - 2 * n - 1 else 2 * n).
Proof.
  intros Hn. unfold sozWakuLightpush. f_equal.
  change (2 ^ 63) with 9223372036854775808 in Hn.
  destruct (n <? 0) eqn:E; [apply Z.ltb_lt in E | apply Z.ltb_ge in E].
  - assert (Hx : uint64 n = n + 2 ^ 64).
    { unfold uint64. change (2 ^ 64) with 18446744073709551616.
      Z.div_mod_to_equations; lia. }
    rewrite Hx.
    assert (Hi : int64 (n + 2 ^ 64) = n).
    { unfold int64. change (2 ^ 64) with 18446744073709551616.
      change (2 ^ 63) with 9223372036854775808.
      Z.div_mod_to_equations; lia. }
    rewrite Hi.
    assert (Hs : Z.shiftr n 63 = - 1).
    { rewrite Z.shiftr_div_pow2 by lia.
      change (2 ^ 63) with 9223372036854775808.
      Z.div_mod_to_equations; lia. }
    rewrite Hs. change (uint64 (- 1)) with (Z.ones 64).
    assert (Hl : uint64 (Z.shiftl (n + 2 ^ 64) 1) = 2 * n + 2 ^ 64).
    { rewrite Z.shiftl_mul_pow2 by lia. unfold uint64.
      change (2 ^ 64) with 18446744073709551616. change (2 ^ 1) with 2.
      Z.div_mod_to_equations; lia. }
    rewrite Hl, lxor_ones by (change (2 ^ 64) with 18446744073709551616; lia).
    unfold uint64. change (2 ^ 64) with 18446744073709551616.
    Z.div_mod_to_equations; lia.
  - assert (Hx : uint64 n = n).
    { apply Z.mod_small. change (2 ^ 64) with 18446744073709551616. lia. }
    rewrite Hx.
    assert (Hi : int64 n = n).
    { unfold int64. change (2 ^ 64) with 18446744073709551616.
      change (2 ^ 63) with 9223372036854775808.
      Z.div_mod_to_equations; lia. }
    rewrite Hi.
    assert (Hs : Z.shiftr n 63 = 0).
    { rewrite Z.shiftr_div_pow2 by lia. apply Z.div_small.
      change (2 ^ 63) with 9223372036854775808. lia. }
    rewrite Hs. change (uint64 0) with 0. rewrite Z.lxor_0_r.
    rewrite Z.shiftl_mul_pow2 by lia. change (2 ^ 1) with 2.
    unfold uint64. change (2 ^ 64) with 18446744073709551616.
    Z.div_mod_to_equations; lia.
Qed.

(** With no room for the varint before [offset], the first write is out of
    the buffer and [encodeVarintWakuLightpush] panics. *)
Theorem encodeVarint_no_room (dAtA : list Z) (offset v : Z) :
  0 <= v ->
  offset < sovWakuLightpush v ->
  encodeVarintWakuLightpush dAtA offset v = Some Panic.
Proof. apply encode_no_room. Qed.

(** The loop of the decoder reads back what [encodeVarintWakuLightpush]
    wrote: started on the index the encoder returns, it gives the value and
    stops on the index the encoder was given. *)
Theorem varint_round_trip (dAtA : list Z) (offset v : Z) :
  0 <= v < 2 ^ 64 ->
  sovWakuLightpush v <= offset <= len dAtA ->
  exists d,
    encodeVarintWakuLightpush dAtA offset v =
      Some (Ret (d, offset - sovWakuLightpush v)) /\
    len d = len dAtA /\
    decode_varint uint64 varint_fuel d (len d) (offset - sovWakuLightpush v) 0 0 =
      Some (Ret (inr (v, offset))).
Proof.
  intros Hv Ho.
  pose proof (len_varint v (proj1 Hv)) as Hl.
  pose proof (sov_positive v (proj1 Hv)) as Hp.
  exists (put dAtA (offset - sovWakuLightpush v) (varint v)).
  split; [apply encode_put; assumption |].
  split; [apply len_put; lia |].
  unfold put, splice.
  rewrite (decode_uint64_varint _
             (firstn (Z.to_nat (offset - sovWakuLightpush v)) dAtA) v
             (skipn (Z.to_nat (offset - sovWakuLightpush v) +
                     List.length (varint v)) dAtA)
             (offset - sovWakuLightpush v) Hv eq_refl).
  - do 3 f_equal. f_equal. lia.
  - unfold len in *. rewrite length_firstn. lia.
Qed.

(** [Marshal] returns the bytes of the message on the wire, in the order of
    the field numbers and with the unrecognized bytes last, and [Size] is
    their number: the buffer [Marshal] allocates is filled from its last byte
    back to its first, so that the prefix it returns is the whole of it. *)
Theorem Marshal_wire (m : PushResponse) :
  len (wire m) < 2 ^ (uint_bits - 1) ->
  Marshal (Some m) = Some (Ret (wire m)) /\
  Size (Some m) = len (wire m).
Proof. apply Marshal_spec. Qed.

(** In a buffer with room to spare, [MarshalToSizedBuffer] writes the message
    on the last bytes of the buffer, leaves the bytes before them as they
    were, and returns the number of bytes it wrote. *)
Theorem MarshalToSizedBuffer_at_the_end (m : PushResponse) (dAtA : list Z) :
  len (wire m) < 2 ^ (uint_bits - 1) ->
  len (wire m) <= len dAtA ->
  MarshalToSizedBuffer m dAtA =
    Some (Ret (sub dAtA 0 (len dAtA - len (wire m)) ++ wire m, len (wire m))).
Proof. apply MarshalToSizedBuffer_spec. Qed.

(** In a buffer too short for the message, [MarshalToSizedBuffer] panics: it
    never returns with a part of the message written. *)
Theorem MarshalToSizedBuffer_short_buffer (m : PushResponse) (dAtA : list Z) :
  len (wire m) < 2 ^ (uint_bits - 1) ->
  len dAtA < len (wire m) ->
  MarshalToSizedBuffer m dAtA = Some Panic.
Proof.
  intros Hfit Hshort. pose proof int_bits_le_64 as H64.
  rewrite wire_length in Hfit, Hshort.
  unfold MarshalToSizedBuffer.
  pose proof (len_nonneg (Info m)) as HI.
  pose proof (len_nonneg dAtA) as HD.
  pose proof (len_varint (len (Info m)) HI) as Hv.
  pose proof (sov_positive (len (Info m)) HI) as Hs.
  rewrite Z.max_r in Hfit, Hshort by lia.
  destruct (IsSuccess m);
    (destruct (XXX_unrecognized m) as [u |];
     [pose proof (len_nonneg u) as Hu |]);
    (destruct (0 <? len (Info m)) eqn:EI;
     [apply Z.ltb_lt in EI; rewrite uint64_fits by lia
     |apply Z.ltb_ge in EI]);
    repeat short_step; exfalso; lia.
Qed.

End WireFormat.

(** ** Unknown fields and malformed input *)

Section Unknown.
Context `{P : Platform}.
Import pb.

(** [Unmarshal] returns on every input that fits a slice: it reads no byte
    out of the input, and each turn of its loop moves on in the input. *)
Theorem Unmarshal_returns (m : PushResponse) (dAtA : list Z) :
  len dAtA < 2 ^ (uint_bits - 1) ->
  exists m' err, Unmarshal m dAtA = Some (Ret (m', err)).
Proof.
  intros Hd. unfold Unmarshal.
  destruct (Unmarshal_loop_returns dAtA Hd (List.length dAtA) m 0)
    as [[m' err] H].
  - pose proof (len_nonneg dAtA). lia.
  - unfold len. lia.
  - exists m', err. exact H.
Qed.

(** [skipWakuLightpush] returns on every input that fits a slice, and when it
    returns no error the length it returns is positive; it may be more than
    the length of the input. *)
Theorem skipWakuLightpush_returns (dAtA : list Z) :
  len dAtA < 2 ^ (uint_bits - 1) ->
  exists n err,
    skipWakuLightpush dAtA = Some (Ret (n, err)) /\
    (err = None -> 0 < n < 2 ^ (uint_bits - 1)).
Proof.
  intros Hd. destruct (skipWakuLightpush_skips dAtA Hd) as [[n err] [H S]].
  exists n, err. split; [exact H | exact S].
Qed.

Lemma first_byte (conv : Z -> Z) (B : Z) (b : Z) (rest : list Z) :
  (forall z, 0 <= z < B -> conv z = z) ->
  128 <= B ->
  0 <= b < 128 ->
  decode_varint conv varint_fuel (b :: rest) (len (b :: rest)) 0 0 0 =
    Some (Ret (inr (b, 1))).
Proof.
  intros Hconv HB Hb.
  apply (decode_byte conv B (b :: rest) [] b rest 0 Hconv HB Hb); reflexivity.
Qed.

(** On a field of a fixed width, [skipWakuLightpush] does not look at the
    bytes it skips nor at their number: it returns 9 for a 64-bit field and
    5 for a 32-bit field, whatever follows the tag. *)
Theorem skipWakuLightpush_fixed_width (tag : Z) (rest : list Z) :
  0 <= tag < 128 ->
  (Z.land tag 7 = 1 -> skipWakuLightpush (tag :: rest) = Some (Ret (9, None))) /\
  (Z.land tag 7 = 5 -> skipWakuLightpush (tag :: rest) = Some (Ret (5, None))).
Proof.
  intros Ht. pose proof int_holds_a_byte as HB.
  assert (Hl : (0 <? len (tag :: rest)) = true).
  { apply Z.ltb_lt. rewrite len_cons. pose proof (len_nonneg rest). lia. }
  split; intros Hw; unfold skipWakuLightpush; rewrite skip_loop_S, Hl;
    rewrite (first_byte uint64 (2 ^ 64) tag rest uint64_small) by lia;
    cbn [run_bind]; rewrite Hw, int_fits by lia; cbv iota;
    unfold after_switch; rewrite int_fits by lia; reflexivity.
Qed.

Lemma skip_base128 :
  forall (n fuel : nat) (pre : list Z) (v : Z) (post : list Z) (shift : Z),
    (n < fuel)%nat ->
    0 <= v < 2 ^ (7 * Z.of_nat (S n)) ->
    shift + 7 * Z.of_nat n < 64 ->
    skip_varint fuel (pre ++ base128 (S n) v ++ post)
      (len (pre ++ base128 (S n) v ++ post)) (len pre) shift =
    Some (Ret (inr (len pre + Z.of_nat (S n)))).
Proof.
  induction n as [| n IH]; intros fuel pre v post shift Hfuel Hv H64;
    (destruct fuel as [| fuel]; [lia |]); rewrite skip_varint_S;
    replace (64 <=? shift) with false by (symmetry; apply Z.leb_gt; lia);
    replace (len pre + 1 - 1) with (len pre) by lia.
  - change (2 ^ (7 * Z.of_nat 1)) with 128 in Hv.
    cbn [base128 app]. rewrite len_app, len_cons.
    pose proof (len_nonneg post).
    replace (len pre + (1 + len post) <=? len pre) with false
      by (symmetry; apply Z.leb_gt; lia).
    rewrite load_middle. cbn [run_bind must].
    unfold uint8. rewrite (Z.mod_small v) by (change (2 ^ 8) with 256; lia).
    replace (v <? 128) with true by (symmetry; apply Z.ltb_lt; lia).
    reflexivity.
  - change (base128 (S (S n)) v)
      with (uint8 (Z.lor (Z.land v 127) 128) :: base128 (S n) (Z.shiftr v 7)).
    rewrite continuation_byte. cbn [app].
    pose proof (land_127 v) as Hx.
    rewrite len_app, len_cons.
    pose proof (len_nonneg (base128 (S n) (Z.shiftr v 7) ++ post)).
    replace (len pre + (1 + len (base128 (S n) (Z.shiftr v 7) ++ post)) <=? len pre)
      with false by (symmetry; apply Z.leb_gt; lia).
    rewrite load_middle. cbn [run_bind must].
    replace (Z.land v 127 + 128 <? 128) with false
      by (symmetry; apply Z.ltb_ge; lia).
    pose proof (IH fuel (pre ++ [Z.land v 127 + 128]) (Z.shiftr v 7) post
                  (shift + 7)) as IH'.
    rewrite <- !app_assoc in IH'. cbn [app] in IH'.
    rewrite !len_app, !len_cons in IH'. change (len (@nil Z)) with 0 in IH'.
    rewrite len_app in IH'.
    replace (len pre + (1 + 0)) with (len pre + 1) in IH' by lia.
    rewrite len_app, IH'.
    + do 3 f_equal. lia.
    + lia.
    + apply shiftr_7_bound. exact Hv.
    + lia.
Qed.

(** [skipWakuLightpush] on a field of wire type 0: the tag and the varint. *)
Lemma skip_varint_field (tag v : Z) (post : list Z) :
  0 <= tag < 128 -> Z.land tag 7 = 0 -> 0 <= v < 2 ^ 64 ->
  skipWakuLightpush (tag :: varint v ++ post) =
    Some (Ret (1 + sovWakuLightpush v, None)).
Proof.
  intros Ht Hw Hv. pose proof int_holds_a_byte as HB.
  destruct (sov_spec v Hv) as [[H1 H10] [Hb _]].
  assert (Hl : (0 <? len (tag :: varint v ++ post)) = true).
  { apply Z.ltb_lt. rewrite len_cons.
    pose proof (len_nonneg (varint v ++ post)). lia. }
  unfold skipWakuLightpush. rewrite skip_loop_S, Hl.
  rewrite (first_byte uint64 (2 ^ 64) tag _ uint64_small) by lia.
  cbn [run_bind]. rewrite Hw, int_fits by lia. cbv iota.
  unfold varint.
  destruct (Z.to_nat (sovWakuLightpush v)) as [| n] eqn:E; [lia |].
  pose proof (skip_base128 n varint_fuel [tag] v post 0) as H.
  cbn [app] in H. change (len [tag]) with 1 in H.
  rewrite H.
  - cbn [run_bind]. unfold after_switch.
    replace (1 + Z.of_nat (S n) <? 0) with false
      by (symmetry; apply Z.ltb_ge; lia).
    change (0 =? 0) with true. cbv iota.
    replace (Z.of_nat (S n)) with (sovWakuLightpush v) by lia. reflexivity.
  - unfold varint_fuel. lia.
  - replace (Z.of_nat (S n)) with (sovWakuLightpush v) by lia.
    split; [lia | exact Hb].
  - lia.
Qed.

Lemma sub_suffix (a b : list Z) (lo hi : Z) :
  lo = len a -> hi = len (a ++ b) -> sub (a ++ b) lo hi = b.
Proof.
  intros -> ->. rewrite <- (app_nil_r b) at 1 2.
  apply sub_middle; [reflexivity |].
  rewrite !len_app. change (len (@nil Z)) with 0. lia.
Qed.

Lemma field_number (tag : Z) :
  0 <= tag < 128 -> int32 (Z.shiftr tag 3) = tag / 8.
Proof.
  intros H. rewrite Z.shiftr_div_pow2 by lia. change (2 ^ 3) with 8.
  unfold int32. change (2 ^ 31) with 2147483648.
  change (2 ^ 32) with 4294967296. Z.div_mod_to_equations; lia.
Qed.

(** A turn of the loop on a field with another number and wire type 0. *)
Lemma Unmarshal_loop_unknown (fuel : nat) (m : PushResponse)
    (pre : list Z) (tag v : Z) (post : list Z) :
  24 <= tag < 128 -> Z.land tag 7 = 0 -> 0 <= v < 2 ^ 64 ->
  len (pre ++ tag :: varint v ++ post) < 2 ^ (uint_bits - 1) ->
  Unmarshal_loop (S fuel) m (pre ++ tag :: varint v ++ post)
    (len (pre ++ tag :: varint v ++ post)) (len pre) =
  Unmarshal_loop fuel
    (set_XXX_unrecognized m (append (XXX_unrecognized m) (tag :: varint v)))
    (pre ++ tag :: varint v ++ post)
    (len (pre ++ tag :: varint v ++ post))
    (len pre + 1 + sovWakuLightpush v).
Proof.
  intros Ht Hw Hv. pose proof int_holds_a_byte as HB.
  set (d := pre ++ tag :: varint v ++ post).
  pose proof (len_nonneg post). pose proof (len_nonneg pre).
  pose proof (len_varint v (proj1 Hv)) as Hlv.
  pose proof (sov_positive v (proj1 Hv)) as Hs.
  assert (Hd : len d = len pre + 1 + sovWakuLightpush v + len post)
    by (unfold d; rewrite len_app, len_cons, len_app; lia).
  intros Hfit.
  rewrite Unmarshal_loop_S.
  replace (len pre <? len d) with true by (symmetry; apply Z.ltb_lt; lia).
  rewrite (decode_byte uint64 (2 ^ 64) d pre tag (varint v ++ post) (len pre)
             uint64_small) by (try reflexivity; lia).
  cbn [run_bind]. rewrite Hw, int_fits by lia.
  change (0 =? 4) with false. cbv iota.
  rewrite field_number by lia.
  assert (Hf : 3 <= tag / 8) by (Z.div_mod_to_equations; lia).
  replace (tag / 8 <=? 0) with false by (symmetry; apply Z.leb_gt; lia).
  rewrite field_number_default by lia.
  rewrite slice_sub by lia. cbn [run_bind must].
  unfold d at 1. rewrite sub_suffix by (fold d; reflexivity).
  rewrite skip_varint_field by (assumption || lia).
  cbn [run_bind].
  replace (1 + sovWakuLightpush v <? 0) with false
    by (symmetry; apply Z.ltb_ge; lia).
  rewrite int_fits by lia.
  replace (len pre + (1 + sovWakuLightpush v) <? 0) with false
    by (symmetry; apply Z.ltb_ge; lia).
  cbn [orb].
  replace (len d <? len pre + (1 + sovWakuLightpush v)) with false
    by (symmetry; apply Z.ltb_ge; lia).
  rewrite slice_sub by lia. cbn [run_bind must].
  unfold d at 1.
  replace (pre ++ tag :: varint v ++ post)
    with (pre ++ (tag :: varint v) ++ post) by reflexivity.
  rewrite sub_middle by (rewrite ?len_cons; lia).
  f_equal. lia.
Qed.

(** A field that [PushResponse] does not know, of wire type 0, is kept: after
    the fields of a message, [Unmarshal] stores its bytes as they are in
    [XXX_unrecognized], and [Marshal] on the message it leaves gives the
    input back. *)
Theorem Unmarshal_keeps_unknown (m : PushResponse) (tag v : Z) :
  XXX_unrecognized m = None ->
  24 <= tag < 128 -> Z.land tag 7 = 0 -> 0 <= v < 2 ^ 64 ->
  len (wire m ++ tag :: varint v) < 2 ^ (uint_bits - 1) ->
  Unmarshal zero (wire m ++ tag :: varint v) =
    Some (Ret (set_XXX_unrecognized m (Some (tag :: varint v)), None)) /\
  Marshal (Some (set_XXX_unrecognized m (Some (tag :: varint v)))) =
    Some (Ret (wire m ++ tag :: varint v)).
Proof.
  intros Hu Ht Hw Hv Hfit.
  assert (Hwire : wire (set_XXX_unrecognized m (Some (tag :: varint v))) =
                  wire m ++ tag :: varint v).
  { unfold wire, set_XXX_unrecognized.
    cbn [IsSuccess Info XXX_unrecognized]. rewrite Hu, app_nil_r, app_assoc.
    reflexivity. }
  split.
  - unfold Unmarshal.
    pose proof (fields_length m) as F.
    set (d := wire m ++ tag :: varint v) in *.
    assert (Hd : List.length d = (List.length (wire m) + S (List.length (varint v)))%nat)
      by (unfold d; rewrite length_app; reflexivity).
    replace (S (List.length d))
      with (fields m + S (S (List.length d - fields m - 1)))%nat by lia.
    pose proof (Unmarshal_loop_wire (S (S (List.length d - fields m - 1)))
                  zero m [] (tag :: varint v) Hu) as E1.
    cbn [app] in E1. fold d in E1. change (len (@nil Z)) with 0 in E1.
    rewrite E1 by exact Hfit. clear E1. rewrite Z.add_0_l.
    pose proof (Unmarshal_loop_unknown (S (List.length d - fields m - 1))
                  (merge zero m) (wire m) tag v [] Ht Hw Hv) as E2.
    rewrite app_nil_r in E2. fold d in E2.
    rewrite E2 by exact Hfit. clear E2.
    replace (len (wire m) + 1 + sovWakuLightpush v) with (len d).
    + rewrite Unmarshal_loop_end, (merge_zero m Hu).
      unfold append. rewrite Hu. reflexivity.
    + unfold d. rewrite len_app, len_cons, (len_varint v) by lia. lia.
  - rewrite <- Hwire. apply Marshal_spec. rewrite Hwire. exact Hfit.
Qed.

(** [Unmarshal] is not atomic: when a tag with the field number 0 follows the
    fields of a message, it returns the error of the illegal tag and leaves
    the receiver with the fields it has read before. *)
Theorem Unmarshal_not_atomic (m0 m : PushResponse) (tag : Z) (rest : list Z) :
  XXX_unrecognized m = None ->
  0 <= tag < 8 -> tag <> 4 ->
  len (wire m ++ tag :: rest) < 2 ^ (uint_bits - 1) ->
  Unmarshal m0 (wire m ++ tag :: rest) =
    Some (Ret (merge m0 m, Some (ErrIllegalTag 0 tag))).
Proof.
  intros Hu Ht H4 Hfit. pose proof int_holds_a_byte as HB.
  unfold Unmarshal.
  pose proof (fields_length m) as F.
  set (d := wire m ++ tag :: rest) in *.
  assert (Hd : List.length d = (List.length (wire m) + S (List.length rest))%nat)
    by (unfold d; rewrite length_app; reflexivity).
  replace (S (List.length d))
    with (fields m + S (List.length d - fields m))%nat by lia.
  pose proof (Unmarshal_loop_wire (S (List.length d - fields m))
                m0 m [] (tag :: rest) Hu) as E1.
  cbn [app] in E1. fold d in E1. change (len (@nil Z)) with 0 in E1.
  rewrite E1 by exact Hfit. clear E1. rewrite Z.add_0_l.
  rewrite Unmarshal_loop_S.
  assert (Hl : len d = len (wire m) + 1 + len rest)
    by (unfold d; rewrite len_app, len_cons; lia).
  pose proof (len_nonneg rest).
  replace (len (wire m) <? len d) with true by (symmetry; apply Z.ltb_lt; lia).
  rewrite (decode_byte uint64 (2 ^ 64) d (wire m) tag rest (len (wire m))
             uint64_small) by (try reflexivity; lia).
  cbn [run_bind].
  assert (Hw : Z.land tag 7 = tag).
  { change 7 with (Z.ones 3). rewrite Z.land_ones by lia.
    apply Z.mod_small. exact Ht. }
  rewrite Hw, int_fits by lia.
  replace (tag =? 4) with false by (symmetry; apply Z.eqb_neq; exact H4).
  rewrite field_number by lia.
  rewrite Z.div_small by exact Ht. reflexivity.
Qed.

End Unknown.

(** ** Runs of the codec *)

Module WireRuns.
Import pb.
Import Responses.
#[local] Existing Instance Platform64.

Ltac evaluated :=
  vm_compute; repeat split; try reflexivity;
  let H := fresh in intros H; discriminate H.

Lemma sov_groups_witness :
  0 <= 300 < 2 ^ 64 /\
  1 <= sovWakuLightpush 300 <= 10 /\
  300 < 2 ^ (7 * sovWakuLightpush 300) /\
  (1 < sovWakuLightpush 300 -> 2 ^ (7 * (sovWakuLightpush 300 - 1)) <= 300).
Proof. split; [evaluated | apply (sov_groups 300); evaluated]. Defined.

Lemma soz_zigzag_witness :
  - 2 ^ 63 <= - 3 < 2 ^ 63 /\
  sozWakuLightpush (uint64 (- 3)) =
  sovWakuLightpush (if - 3 <? 0 then - 2 * - 3 - 1 else 2 * - 3).
Proof. split; [evaluated | apply (soz_zigzag (- 3)); evaluated]. Defined.

Lemma encodeVarint_writes_witness :
  0 <= 300 < 2 ^ 64 /\
  sovWakuLightpush 300 <= 3 <= len [1; 2; 3; 4] /\
  encodeVarintWakuLightpush [1; 2; 3; 4] 3 300 =
    Some (Ret (sub [1; 2; 3; 4] 0 (3 - sovWakuLightpush 300) ++ varint 300 ++
               sub [1; 2; 3; 4] 3 (len [1; 2; 3; 4]),
               3 - sovWakuLightpush 300)) /\
  len (varint 300) = sovWakuLightpush 300.
Proof.
  split; [evaluated | split; [evaluated |]].
  apply (encodeVarint_writes [1; 2; 3; 4] 3 300); evaluated.
Defined.

Lemma encodeVarint_no_room_witness :
  0 <= 300 /\ 1 < sovWakuLightpush 300 /\
  encodeVarintWakuLightpush [1; 2; 3; 4] 1 300 = Some Panic.
Proof.
  split; [evaluated | split; [evaluated |]].
  apply (encodeVarint_no_room [1; 2; 3; 4] 1 300); evaluated.
Defined.

Lemma varint_round_trip_witness :
  0 <= 300 < 2 ^ 64 /\
  sovWakuLightpush 300 <= 3 <= len [1; 2; 3; 4] /\
  exists d,
    encodeVarintWakuLightpush [1; 2; 3; 4] 3 300 =
      Some (Ret (d, 3 - sovWakuLightpush 300)) /\
    len d = len [1; 2; 3; 4] /\
    decode_varint uint64 varint_fuel d (len d) (3 - sovWakuLightpush 300) 0 0 =
      Some (Ret (inr (300, 3))).
Proof.
  split; [evaluated | split; [evaluated |]].
  apply (varint_round_trip [1; 2; 3; 4] 3 300); evaluated.
Defined.

Lemma Marshal_wire_witness :
  len (wire accepted) < 2 ^ (uint_bits - 1) /\
  Marshal (Some accepted) = Some (Ret (wire accepted)) /\
  Size (Some accepted) = len (wire accepted).
Proof. split; [evaluated | apply (Marshal_wire accepted); evaluated]. Defined.

Lemma MarshalToSizedBuffer_at_the_end_witness :
  len (wire accepted) < 2 ^ (uint_bits - 1) /\
  len (wire accepted) <= len (repeat 7 8) /\
  MarshalToSizedBuffer accepted (repeat 7 8) =
    Some (Ret (sub (repeat 7 8) 0 (len (repeat 7 8) - len (wire accepted)) ++
               wire accepted, len (wire accepted))).
Proof.
  split; [evaluated | split; [evaluated |]].
  apply (MarshalToSizedBuffer_at_the_end accepted (repeat 7 8)); evaluated.
Defined.

Lemma MarshalToSizedBuffer_short_buffer_witness :
  len (wire accepted) < 2 ^ (uint_bits - 1) /\
  len (repeat 7 5) < len (wire accepted) /\
  MarshalToSizedBuffer accepted (repeat 7 5) = Some Panic.
Proof.
  split; [evaluated | split; [evaluated |]].
  apply (MarshalToSizedBuffer_short_buffer accepted (repeat 7 5)); evaluated.
Defined.

Lemma Unmarshal_Marshal_witness :
  XXX_unrecognized accepted = None /\
  len (wire accepted) < 2 ^ (uint_bits - 1) /\
  exists dAtA,
    Marshal (Some accepted) = Some (Ret dAtA) /\
    Unmarshal zero dAtA = Some (Ret (accepted, None)).
Proof.
  split; [reflexivity | split; [evaluated |]].
  apply (Unmarshal_Marshal accepted); evaluated.
Defined.

Lemma Unmarshal_merges_witness :
  XXX_unrecognized refused = None /\
  XXX_unrecognized accepted = None /\
  len (wire refused ++ wire accepted) < 2 ^ (uint_bits - 1) /\
  Unmarshal zero (wire refused ++ wire accepted) =
    Some (Ret (merge (merge zero refused) accepted, None)) /\
  IsSuccess (merge (merge zero refused) accepted) =
    IsSuccess zero || IsSuccess refused || IsSuccess accepted /\
  Info (merge (merge zero refused) accepted) =
    match Info accepted, Info refused with
    | _ :: _, _ => Info accepted
    | [], _ :: _ => Info refused
    | [], [] => Info zero
    end.
Proof.
  split; [reflexivity | split; [reflexivity | split; [evaluated |]]].
  apply (Unmarshal_merges zero refused accepted); evaluated.
Defined.

Lemma Unmarshal_returns_witness :
  len [18; 200] < 2 ^ (uint_bits - 1) /\
  exists m' err, Unmarshal zero [18; 200] = Some (Ret (m', err)).
Proof. split; [evaluated | apply (Unmarshal_returns zero [18; 200]); evaluated]. Defined.

Lemma skipWakuLightpush_returns_witness :
  len [11; 8; 1; 12] < 2 ^ (uint_bits - 1) /\
  exists n err,
    skipWakuLightpush [11; 8; 1; 12] = Some (Ret (n, err)) /\
    (err = None -> 0 < n < 2 ^ (uint_bits - 1)).
Proof.
  split; [evaluated | apply (skipWakuLightpush_returns [11; 8; 1; 12]); evaluated].
Defined.

Lemma skipWakuLightpush_fixed_width_witness :
  0 <= 25 < 128 /\
  (Z.land 25 7 = 1 -> skipWakuLightpush [25; 0; 0] = Some (Ret (9, None))) /\
  (Z.land 25 7 = 5 -> skipWakuLightpush [25; 0; 0] = Some (Ret (5, None))).
Proof.
  split; [evaluated | apply (skipWakuLightpush_fixed_width 25 [0; 0]); evaluated].
Defined.

Lemma Unmarshal_keeps_unknown_witness :
  XXX_unrecognized accepted = None /\
  24 <= 24 < 128 /\ Z.land 24 7 = 0 /\ 0 <= 300 < 2 ^ 64 /\
  len (wire accepted ++ 24 :: varint 300) < 2 ^ (uint_bits - 1) /\
  Unmarshal zero (wire accepted ++ 24 :: varint 300) =
    Some (Ret (set_XXX_unrecognized accepted (Some (24 :: varint 300)), None)) /\
  Marshal (Some (set_XXX_unrecognized accepted (Some (24 :: varint 300)))) =
    Some (Ret (wire accepted ++ 24 :: varint 300)).
Proof.
  split; [reflexivity |]. split; [evaluated |]. split; [reflexivity |].
  split; [evaluated |]. split; [evaluated |].
  apply (Unmarshal_keeps_unknown accepted 24 300); evaluated.
Defined.

Lemma Unmarshal_not_atomic_witness :
  XXX_unrecognized accepted = None /\
  0 <= 0 < 8 /\ 0 <> 4 /\
  len (wire accepted ++ 0 :: [1]) < 2 ^ (uint_bits - 1) /\
  Unmarshal zero (wire accepted ++ 0 :: [1]) =
    Some (Ret (merge zero accepted, Some (ErrIllegalTag 0 0))).
Proof.
  split; [reflexivity |]. split; [evaluated |]. split; [discriminate |].
  split; [evaluated |].
  apply (Unmarshal_not_atomic zero accepted 0 [1]); evaluated.
Defined.

End WireRuns.

